(** * MetroService: the instance-lifecycle manager of [src/server.ts]

    A shallow embedding of class [MetroService]: the round-robin port
    allocator, the workspace provisioner (over a small model of the POSIX
    file tree that Node's [fs] and [path] act on), the start pipeline cut at
    its [await] points, [stopMetro], [getStatus] and the idle sweep.

    Conventions.
    - JS numbers that hold ports, indices and millisecond timestamps are [Z].
    - [Map<string, MetroInstance>] is a [gmap string loc]: the map holds
      references, and the records live in [heap], because [startMetro]
      keeps mutating the object it inserted while other requests run.
    - Everything the environment decides (I/O faults, npm, spawn, the
      readiness probe, ngrok, [kill]) is an explicit oracle argument.
    - Calls into the outside world are appended to [trace]. *)

From stdpp Require Import gmap strings list fin_maps.
From Stdlib Require Import ZArith Ascii.

(** ** Data model *)

Abbreviation path := (list string).
Abbreviation pid := nat.
Abbreviation loc := nat.

Record MetroInstance := {
  appId : string;
  appName : string;
  process : pid;
  workspaceDir : path;
  port : Z;
  tunnelUrl : option string;
  bundleUrl : option string;
  startTime : Z;
  lastAccess : Z;
  isReady : bool
}.

Inductive signal := SIGTERM | SIGKILL.

Inductive fsnode := Dir | File (content : string).

(** Calls that leave the service, in the order they are made. *)
Inductive event :=
| EvNpmInstall (cwd : path)
| EvSpawn (p : pid) (cwd : path) (port : Z)
| EvKill (p : pid) (sig : signal)
| EvForceKillTimer (p : pid)
| EvNgrokConnect (port : Z)
| EvNgrokDisconnect (url : option string)
| EvClearInterval.

Record MetroService := {
  instances : gmap string loc;
  portPool : list Z;
  currentPortIndex : Z;
  heap : list MetroInstance;
  fs : gmap path fsnode;
  next_pid : pid;
  trace : list event
}.

#[global] Instance signal_eq_dec : EqDecision signal.
Proof. solve_decision. Defined.
#[global] Instance fsnode_eq_dec : EqDecision fsnode.
Proof. solve_decision. Defined.
#[global] Instance event_eq_dec : EqDecision event.
Proof. solve_decision. Defined.

(** ** Configuration *)

Definition METRO_TIMEOUT : Z := 15 * 60 * 1000.
Definition PORT_RANGE_START : Z := 8081.
Definition PORT_RANGE_END : Z := 8180.
Definition WORKSPACE_BASE : path := ["tmp"; "metro-apps"].

(** ** Port allocator *)

(** [for (port = START; port <= END; port++) portPool.push(port)] *)
Definition initializePortPool (s : MetroService) : MetroService :=
  {| instances := instances s;
     portPool := portPool s ++ seqZ PORT_RANGE_START (PORT_RANGE_END - PORT_RANGE_START + 1);
     currentPortIndex := currentPortIndex s;
     heap := heap s; fs := fs s; next_pid := next_pid s; trace := trace s |}.

Definition set_cursor (i : Z) (s : MetroService) : MetroService :=
  {| instances := instances s; portPool := portPool s;
     currentPortIndex := i;
     heap := heap s; fs := fs s; next_pid := next_pid s; trace := trace s |}.

Definition getNextPort (s : MetroService) : option Z * MetroService :=
  let len := Z.of_nat (length (portPool s)) in
  if decide (len = 0)%Z then (None, s)
  else
    (portPool s !! Z.to_nat (currentPortIndex s `mod` len)%Z,
     set_cursor ((currentPortIndex s + 1) `mod` len)%Z s).

(** ** Paths (POSIX [path.join], [path.dirname])

    An absolute normalised path is the list of its segments; [[]] is the
    root. *)

Definition slash : Ascii.ascii := "/"%char.

(** [s.split("/")] *)
Fixpoint split_slash (s : string) : list string :=
  match s with
  | EmptyString => [EmptyString]
  | String c r =>
      if decide (c = slash) then EmptyString :: split_slash r
      else match split_slash r with
           | seg :: segs => String c seg :: segs
           | [] => [String c EmptyString]
           end
  end.

(** One segment of [path.normalize] on an absolute path whose segments
    so far are [dir]: empty segments and [.] vanish, [..] climbs and stays
    at the root. *)
Definition push_segment (dir : path) (seg : string) : path :=
  if decide (seg = "") then dir
  else if decide (seg = ".") then dir
  else if decide (seg = "..") then removelast dir
  else dir ++ [seg].

(** [path.join(base, rel)] for a normalised absolute [base]. *)
Definition path_join (base : path) (rel : string) : path :=
  foldl push_segment base (split_slash rel).

(** [path.dirname] *)
Definition path_dirname (p : path) : path := removelast p.

(** [path.join] keeps a trailing separator of its last argument. *)
Fixpoint trailing_slash (s : string) : bool :=
  match s with
  | EmptyString => false
  | String c EmptyString => bool_decide (c = slash)
  | String _ r => trailing_slash r
  end.

(** ** The file tree and the [fs] calls the service makes

    The tree is a finite map from paths to nodes; the root is a directory
    without an entry. A call either fails with a message or succeeds; in
    both cases it leaves a tree behind. [fault n] is the environment's
    verdict on the [n]-th call of a run (permissions, full disk, ...). *)

Definition FS (A : Type) : Type := gmap path fsnode → (string + A) * gmap path fsnode.

Definition fs_ret {A} (a : A) : FS A := λ f, (inr a, f).

Definition fs_bind {A B} (m : FS A) (k : A → FS B) : FS B :=
  λ f, match m f with
       | (inl e, f') => (inl e, f')
       | (inr a, f') => k a f'
       end.

Notation "m ;;; k" := (fs_bind m (λ _, k)) (at level 100, k at level 200, right associativity).

(** [try { await m } catch { }] *)
Definition fs_ignore (m : FS unit) : FS unit :=
  λ f, (inr (), (m f).2).

Definition sys (fault : nat → option string) (n : nat) (m : FS unit) : FS unit :=
  λ f, match fault n with
       | Some e => (inl e, f)
       | None => m f
       end.

(** [fs.rm(p, {recursive: true, force: true})] *)
Definition fs_rm (p : path) : FS unit :=
  λ f, (inr (), filter (λ kv, ¬ p `prefix_of` kv.1) f).

(** [fs.mkdir(p, {recursive: true})], walking down from [done]. *)
Fixpoint mkdir_from (done : path) (rest : path) : FS unit :=
  match rest with
  | [] => fs_ret ()
  | seg :: rest' =>
      λ f, match f !! (done ++ [seg]) with
           | Some (File _) =>
               (inl (if rest' is [] then "EEXIST" else "ENOTDIR"), f)
           | Some Dir => mkdir_from (done ++ [seg]) rest' f
           | None => mkdir_from (done ++ [seg]) rest' (<[done ++ [seg] := Dir]> f)
           end
  end.

Definition fs_mkdir (p : path) : FS unit := mkdir_from [] p.

Definition is_dir (f : gmap path fsnode) (p : path) : bool :=
  match p with
  | [] => true
  | _ => bool_decide (f !! p = Some Dir)
  end.

(** [fs.writeFile(p, content, 'utf8')]; [slashed] says that the path string
    ends in a separator. *)
Definition fs_writeFile (p : path) (slashed : bool) (content : string) : FS unit :=
  λ f, if slashed then (inl "EISDIR", f)
       else if is_dir f p then (inl "EISDIR", f)
       else if is_dir f (path_dirname p) then (inr (), <[p := File content]> f)
       else (inl "ENOENT", f).

(** ** Workspace provisioner *)

(** The [for (const [filePath, content] of Object.entries(files))] loop;
    [files] is the list [Object.entries] yields and [n] counts the [fs]
    calls made so far. *)
Fixpoint write_files (fault : nat → option string) (n : nat)
    (workspaceDir : path) (files : list (string * string)) : FS unit :=
  match files with
  | [] => fs_ret ()
  | (filePath, content) :: rest =>
      let fullPath := path_join workspaceDir filePath in
      let dirPath := path_dirname fullPath in
      sys fault n (fs_mkdir dirPath) ;;;
      sys fault (n + 1) (fs_writeFile fullPath (trailing_slash filePath) content) ;;;
      write_files fault (n + 2) workspaceDir rest
  end.

(** The outer [try]/[catch] only logs and rethrows. *)
Definition createWorkspace (fault : nat → option string)
    (workspaceDir : path) (files : list (string * string)) : FS unit :=
  fs_ignore (sys fault 0 (fs_rm workspaceDir)) ;;;
  sys fault 1 (fs_mkdir workspaceDir) ;;;
  write_files fault 2 workspaceDir files.

Definition no_fault : nat → option string := λ _, None.

(** ** Service state *)

Definition set_instances (m : gmap string loc) (s : MetroService) : MetroService :=
  {| instances := m; portPool := portPool s;
     currentPortIndex := currentPortIndex s;
     heap := heap s; fs := fs s; next_pid := next_pid s; trace := trace s |}.

Definition set_heap (h : list MetroInstance) (s : MetroService) : MetroService :=
  {| instances := instances s; portPool := portPool s;
     currentPortIndex := currentPortIndex s;
     heap := h; fs := fs s; next_pid := next_pid s; trace := trace s |}.

Definition set_fs (f : gmap path fsnode) (s : MetroService) : MetroService :=
  {| instances := instances s; portPool := portPool s;
     currentPortIndex := currentPortIndex s;
     heap := heap s; fs := f; next_pid := next_pid s; trace := trace s |}.

Definition set_next_pid (p : pid) (s : MetroService) : MetroService :=
  {| instances := instances s; portPool := portPool s;
     currentPortIndex := currentPortIndex s;
     heap := heap s; fs := fs s; next_pid := p; trace := trace s |}.

Definition emit (e : event) (s : MetroService) : MetroService :=
  {| instances := instances s; portPool := portPool s;
     currentPortIndex := currentPortIndex s;
     heap := heap s; fs := fs s; next_pid := next_pid s;
     trace := trace s ++ [e] |}.

(** The field initialisers of the class, over a given file tree. *)
Definition blank (f : gmap path fsnode) : MetroService :=
  {| instances := ∅; portPool := []; currentPortIndex := 0;
     heap := []; fs := f; next_pid := 0; trace := [] |}.

(** [fs.mkdir(WORKSPACE_BASE, {recursive: true})] with its error logged and
    dropped. *)
Definition ensureWorkspaceDir (fault : nat → option string) (s : MetroService) : MetroService :=
  set_fs (fs_ignore (sys fault 0 (fs_mkdir WORKSPACE_BASE)) (fs s)).2 s.

(** [new MetroService()]; the cleanup timer it arms fires as [OpSweep]
    below. *)
Definition new_service (fault : nat → option string) (f : gmap path fsnode) : MetroService :=
  ensureWorkspaceDir fault (initializePortPool (blank f)).

(** [this.instances.get(appId)], with the reference followed. *)
Definition get_instance (s : MetroService) (id : string) : option (loc * MetroInstance) :=
  l ← instances s !! id; i ← heap s !! l; Some (l, i).

(** JS truthiness of a [string | undefined] and of a [number | null]. *)
Definition truthy_str (u : option string) : bool :=
  match u with
  | Some v => bool_decide (v ≠ "")
  | None => false
  end.

Definition truthy_num (n : option Z) : bool :=
  match n with
  | Some v => bool_decide (v ≠ 0%Z)
  | None => false
  end.

Arguments truthy_str : simpl never.
Arguments truthy_num : simpl never.

(** ** stopMetro *)

(** [kill_throws p] tells whether [process.kill] raises for handle [p]; the
    [catch] then skips the timer and the tunnel, and the record is deleted
    all the same. *)
Definition stopMetro (kill_throws : pid → bool) (id : string) (s : MetroService)
    : bool * MetroService :=
  match get_instance s id with
  | None => (false, s)
  | Some (_, instance) =>
      let s1 := emit (EvKill (process instance) SIGTERM) s in
      let s2 :=
        if kill_throws (process instance) then s1
        else
          let s' := emit (EvForceKillTimer (process instance)) s1 in
          if truthy_str (tunnelUrl instance)
          then emit (EvNgrokDisconnect (tunnelUrl instance)) s'
          else s' in
      (true, set_instances (delete id (instances s2)) s2)
  end.

(** ** getStatus *)

Record Status := {
  st_appId : string;
  st_appName : string;
  st_port : Z;
  st_tunnelUrl : option string;
  st_bundleUrl : option string;
  st_isReady : bool;
  st_uptime : Z;
  st_lastAccess : Z
}.

Definition status_of (now : Z) (instance : MetroInstance) : Status :=
  {| st_appId := appId instance;
     st_appName := appName instance;
     st_port := port instance;
     st_tunnelUrl := tunnelUrl instance;
     st_bundleUrl := bundleUrl instance;
     st_isReady := isReady instance;
     st_uptime := (now - startTime instance)%Z;
     st_lastAccess := (now - lastAccess instance)%Z |}.

Definition getStatus (now : Z) (id : string) (s : MetroService) : option Status :=
  match get_instance s id with
  | None => None
  | Some (_, instance) => Some (status_of now instance)
  end.

(** [Array.from(this.instances.values()).map(...)]; the entries come in the
    map's key order, not in insertion order. *)
Definition listInstances (now : Z) (s : MetroService) : list Status :=
  omap (λ kv, status_of now <$> heap s !! kv.2) (map_to_list (instances s)).

(** ** The idle sweep *)

Definition idle (now : Z) (instance : MetroInstance) : bool :=
  bool_decide (now - lastAccess instance > METRO_TIMEOUT)%Z.

(** The [inactiveInstances] array built by the first loop. *)
Definition inactiveInstances (now : Z) (s : MetroService) : list string :=
  omap (λ kv, match heap s !! kv.2 with
              | Some instance => if idle now instance then Some kv.1 else None
              | None => None
              end)
       (map_to_list (instances s)).

Definition stop_each (kill_throws : pid → bool) (ids : list string) (s : MetroService)
    : MetroService :=
  foldl (λ acc id, (stopMetro kill_throws id acc).2) s ids.

Definition cleanupInactiveInstances (now : Z) (kill_throws : pid → bool)
    (s : MetroService) : MetroService :=
  stop_each kill_throws (inactiveInstances now s) s.

(** ** shutdown *)

Definition shutdown (kill_throws : pid → bool) (s : MetroService) : MetroService :=
  emit (EvNgrokDisconnect None)
    (stop_each kill_throws (map_to_list (instances s)).*1 (emit EvClearInterval s)).

(** ** startMetro

    The body of [startMetro] runs in turns of the event loop, one per
    [await]: other requests and the sweep may run between two turns. A call
    in flight is its arguments plus the stage it waits in, which carries the
    locals it will need; [Crashed] is the end of a call whose spawn raised
    an unhandled ['error'] event. *)

Record StartResult := {
  success : bool;
  r_tunnelUrl : option string;
  r_bundleUrl : option string;
  r_port : option Z;
  error : option string
}.

Definition failure (msg : string) : StartResult :=
  {| success := false; r_tunnelUrl := None; r_bundleUrl := None;
     r_port := None; error := Some msg |}.

Inductive stage :=
| Provisioning (port : Z) (workspaceDir : path)
| Launching (port : Z) (workspaceDir : path)
| Probing (instance : loc) (port : Z)
| Tunneling (instance : loc) (port : Z)
| Returned (r : StartResult)
| Crashed.

Record call := {
  c_appId : string;
  c_appName : string;
  c_files : list (string * string);
  c_stage : stage
}.

Inductive fetch_outcome := FetchOk | FetchNotOk | FetchThrew.

(** What [spawn] does: it returns a running child; it throws; or it returns
    a child that never ran and emits ['error'] through [process.nextTick],
    that is, after the promise continuations of the current turn have run.
    [startMetroProcess] listens to [stdout], [stderr] and ['exit'] only, so
    the ['error'] event is unhandled: Node rethrows it as an uncaught
    exception and the service process exits. *)
Inductive spawn_outcome := SpawnOk | SpawnThrew (msg : string) | SpawnErrorEvent.

(** What the environment answers to one call of [startMetro]. *)
Record oracle := {
  io_fault : nat → option string;
  npm_error : option string;
  spawned : spawn_outcome;
  now_startTime : Z;
  now_lastAccess : Z;
  probe : nat → fetch_outcome;
  ngrok_url : option string;
  kill_throws : pid → bool
}.

Definition touch (now : Z) (i : MetroInstance) : MetroInstance :=
  {| appId := appId i; appName := appName i; process := process i;
     workspaceDir := workspaceDir i; port := port i;
     tunnelUrl := tunnelUrl i; bundleUrl := bundleUrl i;
     startTime := startTime i; lastAccess := now; isReady := isReady i |}.

Definition bundle_of (url : string) : string :=
  url +:+ "/index.bundle?platform=ios&dev=true&minify=false".

(** [instance.tunnelUrl = ...; instance.bundleUrl = ...; instance.isReady = true] *)
Definition mark_ready (url : string) (i : MetroInstance) : MetroInstance :=
  {| appId := appId i; appName := appName i; process := process i;
     workspaceDir := workspaceDir i; port := port i;
     tunnelUrl := Some url; bundleUrl := Some (bundle_of url);
     startTime := startTime i; lastAccess := lastAccess i; isReady := true |}.

(** [const port = this.getNextPort(); if (!port) return {...}] and the
    path of the workspace. *)
Definition start_fresh (id : string) (s : MetroService) : stage * MetroService :=
  let '(port, s1) := getNextPort s in
  if truthy_num port
  then (Provisioning (default 0%Z port) (path_join WORKSPACE_BASE id), s1)
  else (Returned (failure "No available ports for Metro instance"), s1).

(** First turn: the reuse check and the port. *)
Definition start_begin (now : Z) (id : string) (s : MetroService)
    : stage * MetroService :=
  match get_instance s id with
  | Some (l, existing) =>
      let s0 := set_heap (alter (touch now) l (heap s)) s in
      if isReady existing && truthy_str (tunnelUrl existing)
      then (Returned {| success := true;
                        r_tunnelUrl := tunnelUrl existing;
                        r_bundleUrl := bundleUrl existing;
                        r_port := Some (port existing);
                        error := None |}, s0)
      else start_fresh id s0
  | None => start_fresh id s
  end.

(** [waitForMetroReady]: attempts [attempt], [attempt + 1], ... while
    [remaining] of them are left. *)
Fixpoint wait_from (probe : nat → fetch_outcome) (attempt remaining : nat) : bool :=
  match remaining with
  | O => false
  | S r =>
      match probe attempt with
      | FetchOk => true
      | _ => wait_from probe (S attempt) r
      end
  end.

Definition waitForMetroReady (probe : nat → fetch_outcome) (maxAttempts : nat) : bool :=
  wait_from probe 1 maxAttempts.

(** One later turn of a call: the awaited stage completes with the
    oracle's answer and the body runs to its next [await] or [return]. In
    the turn that spawns, a child whose ['error'] event is pending is
    registered like any other; the event fires once the turn is over, and
    the call ends [Crashed]: the process is gone and nothing is returned. *)
Definition resume (o : oracle) (c : call) (s : MetroService) : stage * MetroService :=
  match c_stage c with
  | Provisioning p ws =>
      match createWorkspace (io_fault o) ws (c_files c) (fs s) with
      | (inl e, f) => (Returned (failure e), set_fs f s)
      | (inr _, f) => (Launching p ws, emit (EvNpmInstall ws) (set_fs f s))
      end
  | Launching p ws =>
      match npm_error o with
      | Some e => (Returned (failure e), s)
      | None =>
          match spawned o with
          | SpawnThrew e => (Returned (failure e), s)
          | outcome =>
              let metroProcess := next_pid s in
              let s1 := set_next_pid (S metroProcess) (emit (EvSpawn metroProcess ws p) s) in
              let instance :=
                {| appId := c_appId c; appName := c_appName c;
                   process := metroProcess; workspaceDir := ws; port := p;
                   tunnelUrl := None; bundleUrl := None;
                   startTime := now_startTime o; lastAccess := now_lastAccess o;
                   isReady := false |} in
              let l := length (heap s1) in
              (match outcome with
               | SpawnErrorEvent => Crashed
               | _ => Probing l p
               end,
               set_instances (<[c_appId c := l]> (instances s1))
                 (set_heap (heap s1 ++ [instance]) s1))
          end
      end
  | Probing l p =>
      if waitForMetroReady (probe o) 30
      then (Tunneling l p, emit (EvNgrokConnect p) s)
      else (Returned (failure "Metro failed to start within timeout"),
            (stopMetro (kill_throws o) (c_appId c) s).2)
  | Tunneling l p =>
      match ngrok_url o with
      | Some url =>
          if truthy_str (Some url)
          then (Returned {| success := true;
                            r_tunnelUrl := Some url;
                            r_bundleUrl := Some (bundle_of url);
                            r_port := Some p;
                            error := None |},
                set_heap (alter (mark_ready url) l (heap s)) s)
          else (Returned (failure "Failed to create ngrok tunnel"),
                (stopMetro (kill_throws o) (c_appId c) s).2)
      | None =>
          (Returned (failure "Failed to create ngrok tunnel"),
           (stopMetro (kill_throws o) (c_appId c) s).2)
      end
  | Returned r => (Returned r, s)
  | Crashed => (Crashed, s)
  end.

(** Whether this turn of the call reaches [this.instances.set]. *)
Definition registers (o : oracle) (c : call) : bool :=
  match c_stage c with
  | Launching _ _ =>
      match npm_error o, spawned o with
      | Some _, _ | None, SpawnThrew _ => false
      | None, _ => true
      end
  | _ => false
  end.

(** The stage a call is in after the turn that registered its record. *)
Definition launch_stage (o : oracle) (l : loc) (p : Z) : stage :=
  match spawned o with
  | SpawnErrorEvent => Crashed
  | _ => Probing l p
  end.

(** A whole call run without any other turn in between. *)
Definition with_stage (c : call) (st : stage) : call :=
  {| c_appId := c_appId c; c_appName := c_appName c;
     c_files := c_files c; c_stage := st |}.

Definition resume_call (o : oracle) (cs : call * MetroService) : call * MetroService :=
  let '(st, s) := resume o cs.1 cs.2 in (with_stage cs.1 st, s).

Definition begin_call (now : Z) (id name : string) (files : list (string * string))
    (s : MetroService) : call * MetroService :=
  let '(st, s1) := start_begin now id s in
  ({| c_appId := id; c_appName := name; c_files := files; c_stage := st |}, s1).

(** [k] later turns of a call, run back to back. *)
Definition turns (k : nat) (o : oracle) (cs : call * MetroService) : call * MetroService :=
  Nat.iter k (resume_call o) cs.

(** The first turn and the four that may follow it: one per [await] on the
    way to the last [return]. *)
Definition startMetro (now : Z) (o : oracle) (id name : string)
    (files : list (string * string)) (s : MetroService) : stage * MetroService :=
  let cs := turns 4 o (begin_call now id name files s) in
  (c_stage cs.1, cs.2).

(** ** The service as a transition system

    One [op] is one turn of the event loop: a new start request, the next
    turn of a call in flight, a stop request, a tick of the cleanup timer,
    or a shutdown. *)

Record System := {
  service : MetroService;
  calls : list call
}.

Inductive op :=
| OpStart (id name : string) (files : list (string * string)) (now : Z)
| OpResume (i : nat) (o : oracle)
| OpStop (id : string) (kill_throws : pid → bool)
| OpSweep (now : Z) (kill_throws : pid → bool)
| OpShutdown (kill_throws : pid → bool).

Definition turn (S : System) (x : op) : System :=
  match x with
  | OpStart id name files now =>
      let '(c, s) := begin_call now id name files (service S) in
      {| service := s; calls := calls S ++ [c] |}
  | OpResume i o =>
      match calls S !! i with
      | Some c =>
          let '(c', s) := resume_call o (c, service S) in
          {| service := s; calls := <[i := c']> (calls S) |}
      | None => S
      end
  | OpStop id kt =>
      {| service := (stopMetro kt id (service S)).2; calls := calls S |}
  | OpSweep now kt =>
      {| service := cleanupInactiveInstances now kt (service S); calls := calls S |}
  | OpShutdown kt =>
      {| service := shutdown kt (service S); calls := calls S |}
  end.

(** Once a call has crashed the process has exited: no further turn runs. *)
Definition crashed (c : call) : bool :=
  match c_stage c with
  | Crashed => true
  | _ => false
  end.

Definition halted (S : System) : bool := existsb crashed (calls S).

Definition step (S : System) (x : op) : System :=
  if halted S then S else turn S x.

Definition run (S : System) (ops : list op) : System := foldl step S ops.

Definition boot (fault : nat → option string) (f : gmap path fsnode) : System :=
  {| service := new_service fault f; calls := [] |}.

(** The reuse test of [startMetro]. *)
Definition reusable (s : MetroService) (id : string) : bool :=
  match get_instance s id with
  | Some (_, existing) => isReady existing && truthy_str (tunnelUrl existing)
  | None => false
  end.

(** Whether a turn draws a port: a start request, made while the process
    runs, that does not end in the reuse branch. *)
Definition draws_port (S : System) (x : op) : bool :=
  match x with
  | OpStart id _ _ _ => negb (halted S) && negb (reusable (service S) id)
  | _ => false
  end.

(** Number of [getNextPort] calls made while running [ops] from [S]. *)
Fixpoint allocations (S : System) (ops : list op) : nat :=
  match ops with
  | [] => 0
  | x :: rest => (if draws_port S x then 1 else 0) + allocations (step S x) rest
  end.

(** ** Draw numbers

    The calls of [getNextPort] are numbered from 0 in the order they are
    made. The ledger of a run notes, for each call of [startMetro], the
    number of its draw ([None] for a call that took the reuse branch), and
    for each record, in the order the records are created, the draw number
    of the call that created it. The service itself keeps no such book. *)

Record ledger := {
  drawn : list (option nat);
  born : list (option nat)
}.

Definition no_ledger : ledger := {| drawn := []; born := [] |}.

(** What the turn [x], taken in [S] after [n] draws, adds to the ledger. *)
Definition note (n : nat) (S : System) (x : op) (L : ledger) : ledger :=
  if halted S then L
  else
    match x with
    | OpStart id _ _ _ =>
        {| drawn := drawn L ++ [if reusable (service S) id then None else Some n];
           born := born L |}
    | OpResume k o =>
        match calls S !! k with
        | Some c =>
            if registers o c
            then {| drawn := drawn L; born := born L ++ [mjoin (drawn L !! k)] |}
            else L
        | None => L
        end
    | _ => L
    end.

Fixpoint ledger_of (n : nat) (S : System) (L : ledger) (ops : list op) : ledger :=
  match ops with
  | [] => L
  | x :: rest =>
      ledger_of (n + (if draws_port S x then 1 else 0)) (step S x) (note n S x L) rest
  end.

(** The number of the draw that gave the record at [l] its port, in the run
    [ops] from [S]. *)
Definition draw_of_record (S : System) (ops : list op) (l : loc) : option nat :=
  mjoin (born (ledger_of 0 S no_ledger ops) !! l).


(** ** Vocabulary of the statements *)

(** The events one [stopMetro] of a record adds. *)
Definition stop_events (kt : pid → bool) (i : MetroInstance) : list event :=
  EvKill (process i) SIGTERM ::
  (if kt (process i) then []
   else EvForceKillTimer (process i) ::
        (if truthy_str (tunnelUrl i) then [EvNgrokDisconnect (tunnelUrl i)] else [])).

(** The record of an existing appId after [existing.lastAccess = new Date()]. *)
Definition touch_existing (now : Z) (id : string) (s : MetroService) : MetroService :=
  match get_instance s id with
  | Some (l, _) => set_heap (alter (touch now) l (heap s)) s
  | None => s
  end.

(** Who holds a port: a call that has drawn one and not yet registered its
    record, or a registry entry. *)
Inductive holder :=
| InFlight (k : nat)
| Registered (id : string).

Definition stage_port (st : stage) : option Z :=
  match st with
  | Provisioning p _ | Launching p _ => Some p
  | _ => None
  end.

Definition flight_port (cs : list call) (k : nat) : option Z :=
  c ← cs !! k; stage_port (c_stage c).

(** The record a call registers once its process is spawned. *)
Definition new_instance (o : oracle) (c : call) (p : Z) (ws : path) (metroProcess : pid)
    : MetroInstance :=
  {| appId := c_appId c; appName := c_appName c;
     process := metroProcess; workspaceDir := ws; port := p;
     tunnelUrl := None; bundleUrl := None;
     startTime := now_startTime o; lastAccess := now_lastAccess o;
     isReady := false |}.

Definition registered_port (s : MetroService) (id : string) : option Z :=
  (λ li, port li.2) <$> get_instance s id.

Definition held_port (S : System) (h : holder) : option Z :=
  match h with
  | InFlight k => flight_port (calls S) k
  | Registered id => registered_port (service S) id
  end.

(** How a record may differ from its earlier self. *)
Definition evolved (i i' : MetroInstance) : Prop :=
  port i' = port i ∧ process i' = process i ∧
  ((isReady i = true → truthy_str (tunnelUrl i) = true) →
   isReady i' = true → truthy_str (tunnelUrl i') = true).

(** What holds in every state the service reaches after [n] draws from the
    port pool. *)
Record inv (n : nat) (S : System) : Prop := {
  inv_pool : portPool (service S) = seqZ 8081 100;
  inv_cursor : currentPortIndex (service S) = Z.of_nat (n `mod` 100);
  inv_ready : ∀ l i, heap (service S) !! l = Some i →
                isReady i = true → truthy_str (tunnelUrl i) = true;
  inv_bound : ∀ id l, instances (service S) !! id = Some l →
                l < length (heap (service S));
  inv_pids : ∀ l i, heap (service S) !! l = Some i → process i < next_pid (service S);
  inv_range : n ≤ 100 → ∀ h p, held_port S h = Some p → (8081 ≤ p < 8081 + Z.of_nat n)%Z;
  inv_distinct : n ≤ 100 → ∀ h1 h2 p,
                   held_port S h1 = Some p → held_port S h2 = Some p → h1 = h2
}.

(** The stage at which a start that has drawn its port fails, if any, read
    off the environment's answers in pipeline order. *)
Inductive failure_stage :=
| FailProvision (e : string)
| FailInstall (e : string)
| FailLaunch (e : string)
| FailSpawnEvent
| FailProbe
| FailTunnel.

Definition first_failure (o : oracle) (ws : path) (files : list (string * string))
    (f : gmap path fsnode) : option failure_stage :=
  match (createWorkspace (io_fault o) ws files f).1 with
  | inl e => Some (FailProvision e)
  | inr _ =>
      match npm_error o with
      | Some e => Some (FailInstall e)
      | None =>
          match spawned o with
          | SpawnThrew e => Some (FailLaunch e)
          | SpawnErrorEvent => Some FailSpawnEvent
          | SpawnOk =>
              if waitForMetroReady (probe o) 30
              then if truthy_str (ngrok_url o) then None else Some FailTunnel
              else Some FailProbe
          end
      end
  end.

(** The message the caller gets; none when the process dies of the
    unhandled ['error'] event of the spawn. *)
Definition failure_message (stg : failure_stage) : option string :=
  match stg with
  | FailProvision e | FailInstall e | FailLaunch e => Some e
  | FailSpawnEvent => None
  | FailProbe => Some "Metro failed to start within timeout"
  | FailTunnel => Some "Failed to create ngrok tunnel"
  end.

(** How the failing call ends. *)
Definition failure_outcome (stg : failure_stage) : stage :=
  match failure_message stg with
  | Some msg => Returned (failure msg)
  | None => Crashed
  end.

(** Whether the child was running (and its record registered) when the start
    failed: the failures after which [startMetro] calls [stopMetro]. *)
Definition launched (stg : failure_stage) : bool :=
  match stg with
  | FailProbe | FailTunnel => true
  | _ => false
  end.

(** The outside calls a failing start makes, in order; [i] is the record it
    registers if it gets that far. *)
Definition failure_trace (kt : pid → bool) (i : MetroInstance) (stg : failure_stage)
    : list event :=
  match stg with
  | FailProvision _ => []
  | FailInstall _ | FailLaunch _ => [EvNpmInstall (workspaceDir i)]
  | FailSpawnEvent =>
      [EvNpmInstall (workspaceDir i); EvSpawn (process i) (workspaceDir i) (port i)]
  | FailProbe =>
      [EvNpmInstall (workspaceDir i); EvSpawn (process i) (workspaceDir i) (port i)]
      ++ stop_events kt i
  | FailTunnel =>
      [EvNpmInstall (workspaceDir i); EvSpawn (process i) (workspaceDir i) (port i);
       EvNgrokConnect (port i)]
      ++ stop_events kt i
  end.

(** The service once the call has spawned its process and registered its
    record: [this.instances.set(appId, instance)]. *)
Definition registered (o : oracle) (c : call) (p : Z) (ws : path) (s : MetroService)
    : MetroService :=
  {| instances := <[c_appId c := length (heap s)]> (instances s);
     portPool := portPool s; currentPortIndex := currentPortIndex s;
     heap := heap s ++ [new_instance o c p ws (next_pid s)];
     fs := fs s; next_pid := S (next_pid s);
     trace := trace s ++ [EvSpawn (next_pid s) ws p] |}.

(** The four turns of a call after the first. *)
Definition pipeline (o : oracle) (c : call) (s : MetroService) : stage * MetroService :=
  let cs := turns 4 o (c, s) in (c_stage cs.1, cs.2).

(** [q] lies inside the directory [dir], at any depth. *)
Definition inside (dir q : path) : Prop := dir `prefix_of` q ∧ q ≠ dir.

(** The files found inside [dir], with their contents. *)
Definition files_inside (dir : path) (f : gmap path fsnode) : list (path * string) :=
  omap (λ kv, match kv.2 with
              | File content =>
                  if decide (inside dir kv.1) then Some (kv.1, content) else None
              | Dir => None
              end)
       (map_to_list f).

(** The tree inside [ws] holds the files of [done] at the places their keys
    resolve to, and no directory but the ancestors of those files. *)
Definition provisioned_as (ws : path) (done : list (string * string))
    (f : gmap path fsnode) : Prop :=
  (∀ q c, inside ws q →
     (f !! q = Some (File c) ↔ ∃ k, (k, c) ∈ done ∧ path_join ws k = q)) ∧
  (∀ q, inside ws q → f !! q = Some Dir →
     ∃ k c, (k, c) ∈ done ∧ q `prefix_of` path_join ws k ∧ q ≠ path_join ws k).

(** Where the entries of a file mapping land. *)
Definition resolved (workspaceDir : path) (files : list (string * string)) : list path :=
  (λ kc, path_join workspaceDir kc.1) <$> files.

(** The record a call has registered and still works on. *)
Definition stage_record (st : stage) : option loc :=
  match st with
  | Probing l _ | Tunneling l _ => Some l
  | _ => None
  end.


(** What the ledger and the state agree on after [n] draws: every call that
    still holds a port and every record carries the pool port of its draw
    number, no two calls and no two records share a draw number, and a call
    that still holds its port has no record yet. Children are numbered in
    the order they are spawned, one per record. *)
Record booked (n : nat) (S : System) (L : ledger) : Prop := {
  bk_calls : length (drawn L) = length (calls S);
  bk_heap : length (born L) = length (heap (service S));
  bk_next : next_pid (service S) = length (heap (service S));
  bk_process : ∀ l i, heap (service S) !! l = Some i → process i = l;
  bk_own : ∀ k c l, calls S !! k = Some c → stage_record (c_stage c) = Some l →
             ∃ i, heap (service S) !! l = Some i ∧ appId i = c_appId c;
  bk_flight : ∀ k c p, calls S !! k = Some c → stage_port (c_stage c) = Some p →
                ∃ d, drawn L !! k = Some (Some d) ∧
                     p = (8081 + Z.of_nat (d `mod` 100))%Z ∧
                     ∀ l, born L !! l ≠ Some (Some d);
  bk_drawn : ∀ k d, drawn L !! k = Some (Some d) → d < n;
  bk_drawn_inj : ∀ k1 k2 d, drawn L !! k1 = Some (Some d) →
                   drawn L !! k2 = Some (Some d) → k1 = k2;
  bk_born : ∀ l i, heap (service S) !! l = Some i →
              ∃ d, born L !! l = Some (Some d) ∧ d < n ∧
                   port i = (8081 + Z.of_nat (d `mod` 100))%Z;
  bk_born_inj : ∀ l1 l2 d, born L !! l1 = Some (Some d) →
                  born L !! l2 = Some (Some d) → l1 = l2
}.

(** What no turn changes in a record. *)
Definition same_identity (i i' : MetroInstance) : Prop :=
  appId i' = appId i ∧ appName i' = appName i ∧ process i' = process i ∧
  workspaceDir i' = workspaceDir i ∧ port i' = port i ∧
  startTime i' = startTime i ∧ (isReady i = true → isReady i' = true).


(** A record as [startMetro] builds and completes it. *)
Definition well_formed (i : MetroInstance) : Prop :=
  workspaceDir i = path_join WORKSPACE_BASE (appId i) ∧
  (8081 ≤ port i ≤ 8180)%Z ∧
  ((isReady i = false ∧ tunnelUrl i = None ∧ bundleUrl i = None) ∨
   (isReady i = true ∧
    ∃ url, url ≠ "" ∧ tunnelUrl i = Some url ∧ bundleUrl i = Some (bundle_of url))).

(** The locals of a call that has drawn its port. *)
Definition stage_ok (c : call) : Prop :=
  match c_stage c with
  | Provisioning p ws | Launching p ws =>
      (8081 ≤ p ≤ 8180)%Z ∧ ws = path_join WORKSPACE_BASE (c_appId c)
  | _ => True
  end.

(** What the registry, the records and the calls in flight agree on. *)
Record consistent (S : System) : Prop := {
  con_key : ∀ id l i, instances (service S) !! id = Some l →
              heap (service S) !! l = Some i → appId i = id;
  con_inj : ∀ id1 id2 l, instances (service S) !! id1 = Some l →
              instances (service S) !! id2 = Some l → id1 = id2;
  con_heap : ∀ l i, heap (service S) !! l = Some i → well_formed i;
  con_calls : ∀ k c, calls S !! k = Some c → stage_ok c
}.

(** A relative path with no [..] segment. *)
Definition climbs (rel : string) : Prop := ".." ∈ split_slash rel.

(** An appId or file name that is one ordinary path segment. *)
Definition plain (name : string) : Prop :=
  split_slash name = [name] ∧ name ≠ "" ∧ name ≠ "." ∧ name ≠ "..".

(** [f'] differs from [f] at [q] at most by a directory created on the way
    down to [ws]. *)
Definition untouched_at (ws : path) (f f' : gmap path fsnode) (q : path) : Prop :=
  f' !! q = f !! q ∨ (f !! q = None ∧ f' !! q = Some Dir ∧ q `prefix_of` ws).

(** ** Sample environments and runs *)

(** A workspace and a mapping with a key that climbs out of it. *)
Definition demo_workspace : path := ["tmp"; "metro-apps"; "app-1"].
Definition escaping_files : list (string * string) := [("../evil.js", "x")].

(** A well-behaved mapping, and a tree that already holds an older
    workspace at the same place. *)
Definition demo_files : list (string * string) :=
  [("index.js", "console.log(1)"); ("src/App.js", "export default 1")].
Definition demo_tree : gmap path fsnode :=
  {[ ["tmp"] := Dir; ["tmp"; "metro-apps"] := Dir;
     ["tmp"; "metro-apps"; "app-1"] := Dir;
     ["tmp"; "metro-apps"; "app-1"; "stale.js"] := File "old" ]}.

(** The stub environment of the end-to-end scenario: the dev server answers
    its first probe, the tunnel provider returns a fixed URL. *)
Definition stub_oracle : oracle :=
  {| io_fault := no_fault; npm_error := None; spawned := SpawnOk;
     now_startTime := 1000; now_lastAccess := 1000;
     probe := λ _, FetchOk;
     ngrok_url := Some "https://stub.example";
     kill_throws := λ _, false |}.

(** An environment in which [npm install] fails. *)
Definition npm_fails : oracle :=
  {| io_fault := no_fault; npm_error := Some "Command failed: npm install --legacy-peer-deps";
     spawned := SpawnOk;
     now_startTime := 1000; now_lastAccess := 1000;
     probe := λ _, FetchThrew;
     ngrok_url := None;
     kill_throws := λ _, false |}.

(** An environment in which the dev server never answers. *)
Definition never_ready : oracle :=
  {| io_fault := no_fault; npm_error := None; spawned := SpawnOk;
     now_startTime := 1000; now_lastAccess := 1000;
     probe := λ _, FetchThrew;
     ngrok_url := None;
     kill_throws := λ _, false |}.

(** A start of "x" that has registered its record and waits for the
    readiness probe. *)
Definition probing_ops : list op :=
  [OpStart "x" "Demo" [("index.js", "console.log(1)")] 0;
   OpResume 0 stub_oracle; OpResume 0 stub_oracle].

(** A whole successful start of the call with index [k]. *)
Definition full_start (k : nat) (id : string) : list op :=
  [OpStart id "Demo" [("index.js", "console.log(1)")] 0;
   OpResume k stub_oracle; OpResume k stub_oracle;
   OpResume k stub_oracle; OpResume k stub_oracle].

(** A start of the call with index [k] that dies in [npm install]. *)
Definition failed_start (k : nat) (id : string) : list op :=
  [OpStart id "Broken" [] 0; OpResume k npm_fails; OpResume k npm_fails].

(** Two apps started one after the other; then "b" asked for again late. *)
Definition two_apps_ops : list op := full_start 0 "a" ++ full_start 1 "b".
Definition touched_ops : list op :=
  two_apps_ops ++ [OpStart "b" "Demo" [] 800000].

(** A [kill] that never raises, and one that always does. *)
Definition quiet : pid → bool := λ _, false.

(** An environment in which the spawned child never runs and emits
    ['error']. *)
Definition spawn_dies : oracle :=
  {| io_fault := no_fault; npm_error := None; spawned := SpawnErrorEvent;
     now_startTime := 1000; now_lastAccess := 1000;
     probe := λ _, FetchThrew;
     ngrok_url := None;
     kill_throws := λ _, false |}.

(** Two starts of "x" racing: the second registers its record while the
    first still waits for its readiness probe. *)
Definition racing_ops : list op :=
  [OpStart "x" "Demo" [] 0; OpResume 0 stub_oracle; OpResume 0 stub_oracle;
   OpStart "x" "Demo" [] 5; OpResume 1 stub_oracle; OpResume 1 stub_oracle].

(** A tree that also holds the workspace of another app. *)
Definition shared_tree : gmap path fsnode :=
  {[ ["tmp"] := Dir; ["tmp"; "metro-apps"] := Dir;
     ["tmp"; "metro-apps"; "app-2"] := Dir;
     ["tmp"; "metro-apps"; "app-2"; "index.js"] := File "other" ]}.

(** App "a" starts, 99 starts of "b" fail, app "c" starts. *)
Definition wraparound_ops : list op :=
  full_start 0 "a" ++
  flat_map (λ k, failed_start k "b") (seq 1 99) ++
  full_start 100 "c".

(** The wrap-around run followed by a start of app "d": 102 draws. *)
Definition beyond_cycle_ops : list op := wraparound_ops ++ full_start 101 "d".

(** * Properties *)

#[local] Arguments Nat.modulo : simpl never.
#[local] Arguments Z.modulo : simpl never.

(** ** Frame facts: what each operation leaves alone *)

(** Closes the contradictory branches left by a case split on [decide]. *)
Ltac clash :=
  repeat match goal with
         | H : _ ∧ _ |- _ => destruct H
         | H : is_Some None |- _ => by destruct H
         | H : _ ∈ [] |- _ => by apply elem_of_nil in H
         | H : _ ∈ _ :: _ |- _ => apply elem_of_cons in H
         end;
  try (rewrite elem_of_cons in * );
  try naive_solver.

(** Projections out of the record-building functions. *)
Ltac fields :=
  cbn [fst snd instances portPool currentPortIndex heap fs next_pid trace
       set_cursor set_fs set_heap set_instances set_next_pid emit
       c_appId c_appName c_files c_stage service calls] in *.

Section Frames.
Implicit Types (s : MetroService) (id : string) (kt : pid → bool).

Lemma get_instance_Some s id l i :
  get_instance s id = Some (l, i) ↔ instances s !! id = Some l ∧ heap s !! l = Some i.
Proof.
  unfold get_instance. split.
  - destruct (instances s !! id) as [l'|] eqn:E; simpl; [|done].
    destruct (heap s !! l') as [i'|] eqn:E'; simpl; [|done].
    by intros [= <- <-].
  - intros [-> H]. simpl. by rewrite H.
Qed.

Lemma get_instance_None_absent s id :
  instances s !! id = None → get_instance s id = None.
Proof. unfold get_instance. by intros ->. Qed.

Lemma stopMetro_absent kt id s :
  get_instance s id = None → stopMetro kt id s = (false, s).
Proof. unfold stopMetro. by intros ->. Qed.

Lemma stopMetro_present kt id s l i :
  get_instance s id = Some (l, i) →
  stopMetro kt id s =
    (true, {| instances := delete id (instances s); portPool := portPool s;
              currentPortIndex := currentPortIndex s; heap := heap s;
              fs := fs s; next_pid := next_pid s;
              trace := trace s ++ stop_events kt i |}).
Proof.
  unfold stopMetro, stop_events. intros ->.
  destruct (kt (process i)); [done|].
  destruct (truthy_str (tunnelUrl i)); simpl; unfold set_instances; simpl;
    by rewrite <- ?app_assoc.
Qed.

Lemma stopMetro_frame kt id s :
  let s' := (stopMetro kt id s).2 in
  portPool s' = portPool s ∧ currentPortIndex s' = currentPortIndex s ∧
  heap s' = heap s ∧ fs s' = fs s ∧ next_pid s' = next_pid s.
Proof.
  simpl. destruct (get_instance s id) as [[l i]|] eqn:E.
  - by rewrite (stopMetro_present _ _ _ _ _ E).
  - by rewrite (stopMetro_absent _ _ _ E).
Qed.

Lemma stopMetro_lookup kt id s id' :
  instances (stopMetro kt id s).2 !! id' =
    if decide (id = id' ∧ is_Some (get_instance s id)) then None
    else instances s !! id'.
Proof.
  destruct (get_instance s id) as [[l i]|] eqn:E.
  - rewrite (stopMetro_present _ _ _ _ _ E). simpl.
    case_decide as H.
    + destruct H as [<- _]. apply lookup_delete_eq.
    + apply lookup_delete_ne. intros <-. apply H. eauto.
  - rewrite (stopMetro_absent _ _ _ E). simpl.
    case_decide as H; [|done]. destruct H as [_ [? ?]]. done.
Qed.

Lemma stopMetro_get kt id s id' :
  get_instance (stopMetro kt id s).2 id' =
    if decide (id = id' ∧ is_Some (get_instance s id)) then None
    else get_instance s id'.
Proof.
  unfold get_instance at 1. rewrite stopMetro_lookup.
  destruct (stopMetro_frame kt id s) as (_ & _ & -> & _).
  by case_decide.
Qed.

Lemma stop_each_cons kt id ids s :
  stop_each kt (id :: ids) s = stop_each kt ids (stopMetro kt id s).2.
Proof. done. Qed.

Lemma stop_each_frame kt ids s :
  let s' := stop_each kt ids s in
  portPool s' = portPool s ∧ currentPortIndex s' = currentPortIndex s ∧
  heap s' = heap s ∧ fs s' = fs s ∧ next_pid s' = next_pid s.
Proof.
  revert s. induction ids as [|id ids IH]; intros s; [done|].
  rewrite stop_each_cons. simpl.
  destruct (IH (stopMetro kt id s).2) as (-> & -> & -> & -> & ->).
  apply stopMetro_frame.
Qed.

Lemma stop_each_get kt ids s id' :
  get_instance (stop_each kt ids s) id' =
    if decide (id' ∈ ids ∧ is_Some (get_instance s id')) then None
    else get_instance s id'.
Proof.
  revert s. induction ids as [|id ids IH]; intros s.
  - destruct (decide _) as [[H _]|]; [by apply elem_of_nil in H|done].
  - rewrite stop_each_cons, IH, !stopMetro_get.
    repeat case_decide; try done; exfalso; clash.
    all: destruct (decide (id = id')) as [<-|]; naive_solver.
Qed.

Lemma stop_each_lookup kt ids s id' :
  instances (stop_each kt ids s) !! id' =
    if decide (id' ∈ ids ∧ is_Some (get_instance s id')) then None
    else instances s !! id'.
Proof.
  revert s. induction ids as [|id ids IH]; intros s.
  - destruct (decide _) as [[H _]|]; [by apply elem_of_nil in H|done].
  - rewrite stop_each_cons, IH, stopMetro_lookup, stopMetro_get.
    repeat case_decide; try done; exfalso; clash.
    all: destruct (decide (id = id')) as [<-|]; naive_solver.
Qed.

(** What a run of [stopMetro] over [ids] appends to the trace: the stop
    events of records that were registered under one of [ids], with the
    SIGTERM of every such record among them. *)
Lemma stop_each_trace kt ids s :
  ∃ added,
    trace (stop_each kt ids s) = trace s ++ added ∧
    (∀ e, e ∈ added →
       ∃ id l i, id ∈ ids ∧ get_instance s id = Some (l, i) ∧ e ∈ stop_events kt i) ∧
    (∀ id l i, id ∈ ids → get_instance s id = Some (l, i) →
       EvKill (process i) SIGTERM ∈ added).
Proof.
  revert s. induction ids as [|id ids IH]; intros s.
  - exists []. simpl. rewrite app_nil_r. split_and!; [done|..].
    + intros e H. by apply elem_of_nil in H.
    + intros ??? H. by apply elem_of_nil in H.
  - rewrite stop_each_cons.
    destruct (IH (stopMetro kt id s).2) as (added & Htr & Hsub & Hkill).
    destruct (get_instance s id) as [[l i]|] eqn:E.
    + exists (stop_events kt i ++ added). split_and!.
      * rewrite Htr, (stopMetro_present _ _ _ _ _ E). simpl. by rewrite <- app_assoc.
      * intros e [He|He]%elem_of_app.
        { exists id, l, i. set_solver. }
        destruct (Hsub e He) as (id' & l' & i' & Hin & Hget & Hev).
        rewrite stopMetro_get in Hget. case_decide; [done|].
        exists id', l', i'. set_solver.
      * intros id' l' i' Hin Hget. apply elem_of_app.
        destruct (decide (id = id')) as [<-|Hne].
        { left. rewrite E in Hget. injection Hget as <- <-. unfold stop_events. set_solver. }
        right. apply (Hkill id' l' i'); [set_solver|].
        rewrite stopMetro_get. case_decide; [naive_solver|done].
    + exists added. rewrite (stopMetro_absent _ _ _ E) in *. simpl in *. split_and!.
      * done.
      * intros e He. destruct (Hsub e He) as (id' & l' & i' & Hin & Hget & Hev).
        exists id', l', i'. set_solver.
      * intros id' l' i' Hin Hget. apply (Hkill id' l' i'); [|done].
        apply elem_of_cons in Hin as [->|]; [congruence|done].
Qed.

Lemma elem_of_inactiveInstances now s id :
  id ∈ inactiveInstances now s ↔
  ∃ l i, get_instance s id = Some (l, i) ∧ idle now i = true.
Proof.
  unfold inactiveInstances. rewrite list_elem_of_omap. split.
  - intros ([id' l] & Hin%elem_of_map_to_list & H). simpl in H.
    destruct (heap s !! l) as [i|] eqn:E; [|done].
    destruct (idle now i) eqn:Ei; [|done]. injection H as ->.
    exists l, i. split; [|done]. by apply get_instance_Some.
  - intros (l & i & [H1 H2]%get_instance_Some & Hi).
    exists (id, l). split; [by apply elem_of_map_to_list|].
    simpl. by rewrite H2, Hi.
Qed.

End Frames.

(** ** stop and status *)

Section Stop.
Implicit Types (s : MetroService) (id : string) (kt : pid → bool).

Lemma sigterm_in_stop_events kt i : EvKill (process i) SIGTERM ∈ stop_events kt i.
Proof. unfold stop_events. set_solver. Qed.

Lemma stopMetro_removal kt id0 s id l i :
  get_instance s id = Some (l, i) →
  instances (stopMetro kt id0 s).2 !! id = None →
  ∃ added, trace (stopMetro kt id0 s).2 = trace s ++ added ∧
           EvKill (process i) SIGTERM ∈ added.
Proof.
  intros Hget. rewrite stopMetro_lookup. case_decide as Hd.
  - destruct Hd as [-> _]. intros _.
    rewrite (stopMetro_present _ _ _ _ _ Hget). simpl.
    eexists. split; [done|]. apply sigterm_in_stop_events.
  - apply get_instance_Some in Hget as [-> _]. done.
Qed.

Lemma stop_each_removal kt ids s id l i :
  get_instance s id = Some (l, i) →
  instances (stop_each kt ids s) !! id = None →
  ∃ added, trace (stop_each kt ids s) = trace s ++ added ∧
           EvKill (process i) SIGTERM ∈ added.
Proof.
  intros Hget. rewrite stop_each_lookup. case_decide as Hd.
  - destruct Hd as [Hin _]. intros _.
    destruct (stop_each_trace kt ids s) as (added & Htr & _ & Hkill).
    exists added. split; [done|]. by apply (Hkill id l i).
  - apply get_instance_Some in Hget as [-> _]. done.
Qed.

(** C6. [stopMetro] on an appId without a record returns false and leaves
    the whole service state (registry, cursor, processes, tunnels) as it
    was; on an appId with a record it returns true, and a [getStatus] made
    right after it reports the instance absent. *)
Theorem stop_unknown_is_noop_stop_live_removes kt now id s :
  match get_instance s id with
  | None => stopMetro kt id s = (false, s)
  | Some _ =>
      (stopMetro kt id s).1 = true ∧
      getStatus now id (stopMetro kt id s).2 = None
  end.
Proof.
  destruct (get_instance s id) as [[l i]|] eqn:E.
  - split.
    + by rewrite (stopMetro_present _ _ _ _ _ E).
    + unfold getStatus. rewrite stopMetro_get, E.
      case_decide as Hd; [done|]. destruct Hd. eauto.
  - by apply stopMetro_absent.
Qed.

End Stop.

(** ** The idle sweep *)

Section Sweep.
Implicit Types (s : MetroService) (id : string) (kt : pid → bool).

Lemma sweep_lookup now kt s id :
  instances (cleanupInactiveInstances now kt s) !! id =
    match get_instance s id with
    | Some (_, i) => if idle now i then None else instances s !! id
    | None => instances s !! id
    end.
Proof.
  unfold cleanupInactiveInstances. rewrite stop_each_lookup.
  destruct (get_instance s id) as [[l i]|] eqn:E.
  - destruct (idle now i) eqn:Ei.
    + case_decide as Hd; [done|]. destruct Hd. split; [|eauto].
      apply elem_of_inactiveInstances. eauto.
    + case_decide as Hd; [|done]. destruct Hd as [Hin _].
      apply elem_of_inactiveInstances in Hin as (l' & i' & Hg & Hi). congruence.
  - case_decide as Hd; [|done]. destruct Hd as [_ [? ?]]. done.
Qed.

(** C7. One run of the sweep removes from the registry exactly the records
    whose [lastAccess] lies more than 15 minutes (900000 ms) before the
    sweep's clock reading, and sends each of them the stop sequence; every
    other registry entry, every record and the rest of the service state are
    as before, and nothing is sent to a process that is not of a removed
    record. *)
Theorem sweep_stops_exactly_the_idle now kt s :
  let s' := cleanupInactiveInstances now kt s in
  (∀ id, instances s' !! id =
           match get_instance s id with
           | Some (_, i) =>
               if decide (now - lastAccess i > 900000)%Z then None
               else instances s !! id
           | None => instances s !! id
           end) ∧
  heap s' = heap s ∧ portPool s' = portPool s ∧
  currentPortIndex s' = currentPortIndex s ∧ fs s' = fs s ∧
  ∃ added,
    trace s' = trace s ++ added ∧
    (∀ id l i, get_instance s id = Some (l, i) → (now - lastAccess i > 900000)%Z →
       EvKill (process i) SIGTERM ∈ added) ∧
    (∀ e, e ∈ added →
       ∃ id l i, get_instance s id = Some (l, i) ∧
                 (now - lastAccess i > 900000)%Z ∧ e ∈ stop_events kt i).
Proof.
  simpl. split_and!.
  - intros id. rewrite sweep_lookup.
    destruct (get_instance s id) as [[l i]|]; [|done].
    unfold idle, METRO_TIMEOUT. by repeat case_bool_decide; case_decide.
  - apply stop_each_frame.
  - apply stop_each_frame.
  - apply stop_each_frame.
  - apply stop_each_frame.
  - destruct (stop_each_trace kt (inactiveInstances now s) s) as (added & Htr & Hsub & Hkill).
    exists added. split_and!; [done|..].
    + intros id l i Hget Hold. apply (Hkill id l i); [|done].
      apply elem_of_inactiveInstances. exists l, i. split; [done|].
      unfold idle, METRO_TIMEOUT. by apply bool_decide_eq_true.
    + intros e He. destruct (Hsub e He) as (id & l & i & Hin & Hget & Hev).
      exists id, l, i. split_and!; [done|..|done].
      apply elem_of_inactiveInstances in Hin as (l' & i' & Hg & Hi).
      rewrite Hget in Hg. injection Hg as <- <-.
      unfold idle, METRO_TIMEOUT in Hi. by apply bool_decide_eq_true in Hi.
Qed.

End Sweep.

(** ** The port allocator *)

Section Allocator.
Implicit Types (s : MetroService) (id : string).

Lemma getNextPort_pool s :
  portPool s = seqZ 8081 100 →
  (0 ≤ currentPortIndex s < 100)%Z →
  getNextPort s =
    (Some (8081 + currentPortIndex s)%Z,
     set_cursor ((currentPortIndex s + 1) `mod` 100)%Z s).
Proof.
  intros Hp Hc. unfold getNextPort. rewrite Hp, length_seqZ.
  change (Z.of_nat (Z.to_nat 100)) with 100%Z.
  case_decide; [done|]. f_equal.
  rewrite Z.mod_small by done. apply lookup_seqZ. lia.
Qed.

Lemma getNextPort_frame s :
  let s' := (getNextPort s).2 in
  instances s' = instances s ∧ portPool s' = portPool s ∧ heap s' = heap s ∧
  fs s' = fs s ∧ next_pid s' = next_pid s ∧ trace s' = trace s.
Proof. unfold getNextPort. by case_decide. Qed.

Lemma new_service_pool fault f : portPool (new_service fault f) = seqZ 8081 100.
Proof. done. Qed.

End Allocator.

(** ** Reachable states *)

Section Invariant.
Implicit Types (s : MetroService) (S : System) (id : string).

Lemma evolved_refl i : evolved i i.
Proof. by unfold evolved. Qed.

Lemma evolved_touch now i : evolved i (touch now i).
Proof. by unfold evolved. Qed.

Lemma evolved_mark_ready url i : truthy_str (Some url) = true → evolved i (mark_ready url i).
Proof. by unfold evolved. Qed.

Lemma evolved_alter f l0 (h : list MetroInstance) l i' :
  (∀ i, evolved i (f i)) →
  alter f l0 h !! l = Some i' → ∃ i, h !! l = Some i ∧ evolved i i'.
Proof.
  intros Hf. rewrite list_lookup_alter. case_decide as Hd.
  - subst l0. destruct (h !! l) as [i|]; [|done]. intros [= <-]. eauto.
  - intros H. exists i'. split; [done|apply evolved_refl].
Qed.

(** A turn that draws no port, registers nothing and lets records only
    evolve keeps the invariant. *)
Lemma inv_mono n S S' :
  inv n S →
  portPool (service S') = portPool (service S) →
  currentPortIndex (service S') = currentPortIndex (service S) →
  next_pid (service S') = next_pid (service S) →
  length (heap (service S')) = length (heap (service S)) →
  (∀ l i', heap (service S') !! l = Some i' →
     ∃ i, heap (service S) !! l = Some i ∧ evolved i i') →
  (∀ id l, instances (service S') !! id = Some l →
     instances (service S) !! id = Some l) →
  (∀ k p, flight_port (calls S') k = Some p → flight_port (calls S) k = Some p) →
  inv n S'.
Proof.
  intros [Hpool Hcur Hready Hbound Hpids Hrange Hdist] Ep Ec En El Hheap Hinst Hcalls.
  assert (Hheld : ∀ h p, held_port S' h = Some p → held_port S h = Some p).
  { intros [k|id] p; simpl; [apply Hcalls|].
    unfold registered_port. intros H.
    destruct (get_instance (service S') id) as [[l i']|] eqn:E; [|done].
    apply get_instance_Some in E as [E1 E2]. injection H as <-.
    destruct (Hheap _ _ E2) as (i & Hi & Hp & _).
    apply Hinst in E1.
    assert (get_instance (service S) id = Some (l, i)) as -> by by apply get_instance_Some.
    simpl. by rewrite Hp. }
  split.
  - congruence.
  - congruence.
  - intros l i' Hl. destruct (Hheap _ _ Hl) as (i & Hi & _ & _ & Hr).
    apply Hr. eauto.
  - intros id l Hl. rewrite El. eauto.
  - intros l i' Hl. destruct (Hheap _ _ Hl) as (i & Hi & _ & Hp & _).
    rewrite En, Hp. eauto.
  - intros Hn h p Hh. eauto.
  - intros Hn h1 h2 p H1 H2. eauto.
Qed.

Lemma resume_register o c s p ws :
  c_stage c = Launching p ws → registers o c = true →
  resume o c s =
    (launch_stage o (length (heap s)) p,
     {| instances := <[c_appId c := length (heap s)]> (instances s);
        portPool := portPool s; currentPortIndex := currentPortIndex s;
        heap := heap s ++ [new_instance o c p ws (next_pid s)];
        fs := fs s; next_pid := S (next_pid s);
        trace := trace s ++ [EvSpawn (next_pid s) ws p] |}).
Proof.
  unfold resume, registers, launch_stage. intros ->.
  by destruct (npm_error o), (spawned o).
Qed.

Lemma launch_stage_port o l p : stage_port (launch_stage o l p) = None.
Proof. unfold launch_stage. by destruct (spawned o). Qed.

Lemma resume_stage_port o c s p :
  stage_port (resume o c s).1 = Some p → stage_port (c_stage c) = Some p.
Proof.
  unfold resume. destruct (c_stage c) as [q ws|q ws|l q|l q|r|]; simpl.
  - by destruct (createWorkspace _ _ _ _) as [[e|[]] f].
  - by destruct (npm_error o), (spawned o).
  - by destruct (waitForMetroReady _ _).
  - destruct (ngrok_url o) as [url|]; [|done]. by destruct (truthy_str _).
  - done.
  - done.
Qed.

(** Every turn of a call but the registering one is quiet. *)
Lemma resume_quiet o c s :
  registers o c = false →
  let s' := (resume o c s).2 in
  portPool s' = portPool s ∧ currentPortIndex s' = currentPortIndex s ∧
  next_pid s' = next_pid s ∧ length (heap s') = length (heap s) ∧
  (∀ l i', heap s' !! l = Some i' → ∃ i, heap s !! l = Some i ∧ evolved i i') ∧
  (∀ id l, instances s' !! id = Some l → instances s !! id = Some l).
Proof.
  assert (Hsame : ∀ l i', heap s !! l = Some i' →
                    ∃ i, heap s !! l = Some i ∧ evolved i i').
  { intros l i' H. exists i'. split; [done|apply evolved_refl]. }
  assert (Hstop : ∀ kt id, let s' := (stopMetro kt id s).2 in
    portPool s' = portPool s ∧ currentPortIndex s' = currentPortIndex s ∧
    next_pid s' = next_pid s ∧ length (heap s') = length (heap s) ∧
    (∀ l i', heap s' !! l = Some i' → ∃ i, heap s !! l = Some i ∧ evolved i i') ∧
    (∀ id' l, instances s' !! id' = Some l → instances s !! id' = Some l)).
  { intros kt id. simpl.
    destruct (stopMetro_frame kt id s) as (-> & -> & -> & _ & ->).
    split_and!; try done.
    intros id' l. rewrite stopMetro_lookup. by case_decide. }
  unfold resume, registers. destruct (c_stage c) as [q ws|q ws|l q|l q|r|]; simpl.
  - intros _. by destruct (createWorkspace _ _ _ _) as [[e|[]] f].
  - destruct (npm_error o), (spawned o); done.
  - intros _. destruct (waitForMetroReady _ _); [done|apply Hstop].
  - intros _. destruct (ngrok_url o) as [url|]; [|apply Hstop].
    destruct (truthy_str (Some url)) eqn:Hu; [|apply Hstop]. simpl.
    split_and!; try done.
    + apply length_alter.
    + intros l' i'. apply evolved_alter. intros i. by apply evolved_mark_ready.
  - done.
  - done.
Qed.

Lemma start_begin_fresh now id s :
  reusable s id = false →
  start_begin now id s = start_fresh id (touch_existing now id s).
Proof.
  unfold reusable, start_begin, touch_existing.
  destruct (get_instance s id) as [[l i]|]; [|done]. by intros ->.
Qed.

Lemma start_begin_reuse now id s l i :
  get_instance s id = Some (l, i) → reusable s id = true →
  start_begin now id s =
    (Returned {| success := true; r_tunnelUrl := tunnelUrl i;
                 r_bundleUrl := bundleUrl i; r_port := Some (port i);
                 error := None |},
     set_heap (alter (touch now) l (heap s)) s).
Proof.
  unfold reusable, start_begin. intros ->. by intros ->.
Qed.

Lemma touch_existing_quiet now id s :
  let s' := touch_existing now id s in
  instances s' = instances s ∧ portPool s' = portPool s ∧
  currentPortIndex s' = currentPortIndex s ∧ next_pid s' = next_pid s ∧
  fs s' = fs s ∧ trace s' = trace s ∧
  length (heap s') = length (heap s) ∧
  (∀ l i', heap s' !! l = Some i' → ∃ i, heap s !! l = Some i ∧ evolved i i').
Proof.
  unfold touch_existing. destruct (get_instance s id) as [[l0 i0]|]; simpl.
  - split_and!; try done; [apply length_alter|].
    intros l i'. apply evolved_alter, evolved_touch.
  - split_and!; try done. intros l i' H. exists i'. split; [done|apply evolved_refl].
Qed.

Lemma flight_port_snoc cs c k :
  flight_port (cs ++ [c]) k =
    if decide (k = length cs) then stage_port (c_stage c) else flight_port cs k.
Proof.
  unfold flight_port. case_decide as Hd.
  - subst k. by rewrite list_lookup_middle.
  - destruct (decide (k < length cs)).
    + by rewrite lookup_app_l.
    + rewrite !lookup_ge_None_2; [done|lia|]. rewrite length_app. simpl. lia.
Qed.

Lemma flight_port_insert cs c k j :
  k < length cs →
  flight_port (<[k := c]> cs) j =
    if decide (k = j) then stage_port (c_stage c) else flight_port cs j.
Proof.
  intros Hk. unfold flight_port. case_decide as Hd.
  - subst j. by rewrite list_lookup_insert_eq.
  - by rewrite list_lookup_insert_ne.
Qed.

Lemma registered_port_touch now id s id' :
  registered_port (touch_existing now id s) id' = registered_port s id'.
Proof.
  unfold registered_port, touch_existing, get_instance.
  destruct (instances s !! id) as [l|] eqn:E; simpl; [|done].
  destruct (heap s !! l) as [i|] eqn:E'; simpl; [|done].
  destruct (instances s !! id') as [l'|]; simpl; [|done].
  rewrite list_lookup_alter. case_decide; [subst l'; rewrite E'|]; simpl; [done|].
  by destruct (heap s !! l').
Qed.

Lemma inv_touch n S now id :
  inv n S → inv n {| service := touch_existing now id (service S); calls := calls S |}.
Proof.
  intros HI. destruct (touch_existing_quiet now id (service S))
    as (Ei & Ep & Ec & En & _ & _ & El & Hh).
  apply (inv_mono n S); simpl; try done. by rewrite Ei.
Qed.

Lemma cursor_succ n : Z.of_nat ((n + 1) `mod` 100) = ((Z.of_nat (n `mod` 100) + 1) `mod` 100)%Z.
Proof.
  rewrite !Nat2Z.inj_mod, Nat2Z.inj_add. simpl.
  by rewrite Zplus_mod_idemp_l.
Qed.

Lemma cursor_range n : (0 ≤ Z.of_nat (n `mod` 100) < 100)%Z.
Proof. pose proof (Nat.mod_upper_bound n 100). lia. Qed.

(** A draw: the cursor moves on and the new call holds the port the old
    cursor pointed at. *)
Lemma inv_draw n S c ws :
  inv n S →
  c_stage c = Provisioning (8081 + Z.of_nat (n `mod` 100))%Z ws →
  inv (n + 1)
      {| service := set_cursor ((currentPortIndex (service S) + 1) `mod` 100)%Z (service S);
         calls := calls S ++ [c] |}.
Proof.
  intros [Hpool Hcur Hready Hbound Hpids Hrange Hdist] Hc.
  assert (Hheld : n + 1 ≤ 100 → ∀ h p,
    held_port {| service := set_cursor ((currentPortIndex (service S) + 1) `mod` 100)%Z (service S);
                 calls := calls S ++ [c] |} h = Some p →
    (h = InFlight (length (calls S)) ∧ p = (8081 + Z.of_nat n)%Z) ∨
    (h ≠ InFlight (length (calls S)) ∧ held_port S h = Some p)).
  { intros Hn [k|id] p; simpl.
    - rewrite flight_port_snoc. case_decide as Hd.
      + subst k. rewrite Hc, Nat.mod_small by lia.
        intros [= <-]. by left.
      + intros H. right. split; [congruence|done].
    - intros H. right. done. }
  split; try done.
  - cbn [service currentPortIndex set_cursor]. rewrite Hcur. symmetry. apply cursor_succ.
  - intros Hn h p Hh. destruct (Hheld Hn h p Hh) as [[-> ->]|[_ Hold]]; [lia|].
    assert (n ≤ 100) as Hn' by lia. specialize (Hrange Hn' _ _ Hold). lia.
  - intros Hn h1 h2 p H1 H2. assert (n ≤ 100) as Hn' by lia.
    destruct (Hheld Hn h1 p H1) as [[E1 P1]|[N1 O1]],
             (Hheld Hn h2 p H2) as [[E2 P2]|[N2 O2]].
    + congruence.
    + specialize (Hrange Hn' _ _ O2). lia.
    + specialize (Hrange Hn' _ _ O1). lia.
    + eauto.
Qed.

(** The registering turn: the port moves from the call to the registry
    entry, which replaces whatever was registered under the appId. *)
Lemma inv_register n S k c o p ws st :
  inv n S →
  calls S !! k = Some c →
  c_stage c = Launching p ws →
  stage_port st = None →
  inv n {| service :=
             {| instances := <[c_appId c := length (heap (service S))]> (instances (service S));
                portPool := portPool (service S);
                currentPortIndex := currentPortIndex (service S);
                heap := heap (service S) ++ [new_instance o c p ws (next_pid (service S))];
                fs := fs (service S); next_pid := Datatypes.S (next_pid (service S));
                trace := trace (service S) ++ [EvSpawn (next_pid (service S)) ws p] |};
           calls := <[k := with_stage c st]> (calls S) |}.
Proof.
  intros [Hpool Hcur Hready Hbound Hpids Hrange Hdist] Hk Hc Hst.
  set (S' := Build_System _ _).
  assert (Hlen : k < length (calls S)) by (by eapply lookup_lt_Some).
  assert (Hold : held_port S (InFlight k) = Some p).
  { simpl. unfold flight_port. rewrite Hk. simpl. by rewrite Hc. }
  assert (Hheld : ∀ h q, held_port S' h = Some q →
    (h = Registered (c_appId c) ∧ q = p) ∨
    (h ≠ Registered (c_appId c) ∧ h ≠ InFlight k ∧ held_port S h = Some q)).
  { intros [j|id] q; simpl.
    - rewrite flight_port_insert by done.
      case_decide as Hd; [cbn [with_stage c_stage]; by rewrite Hst|].
      intros H. right. split_and!; [done|congruence|done].
    - unfold registered_port, get_instance. simpl.
      destruct (decide (c_appId c = id)) as [<-|Hne].
      + rewrite lookup_insert_eq. simpl. rewrite list_lookup_middle by done.
        simpl. intros [= <-]. by left.
      + rewrite lookup_insert_ne by done.
        destruct (instances (service S) !! id) as [l|] eqn:E; [|done]. simpl.
        rewrite lookup_app_l by eauto. intros H. right.
        split_and!; [congruence|done|done]. }
  split.
  - exact Hpool.
  - exact Hcur.
  - intros l i. simpl. intros [[_ H]|[_ <-]]%lookup_snoc_Some; [eauto|done].
  - intros id l. simpl. rewrite length_app. simpl.
    destruct (decide (c_appId c = id)) as [<-|Hne].
    + rewrite lookup_insert_eq. intros [= <-]. lia.
    + rewrite lookup_insert_ne by done. intros H%Hbound. lia.
  - intros l i. simpl. intros [[_ H]|[_ <-]]%lookup_snoc_Some.
    + apply Hpids in H. lia.
    + simpl. lia.
  - intros Hn h q Hh. destruct (Hheld h q Hh) as [[_ ->]|(_ & _ & H)]; eauto.
  - intros Hn h1 h2 q H1 H2.
    destruct (Hheld h1 q H1) as [[E1 P1]|(N1 & M1 & O1)],
             (Hheld h2 q H2) as [[E2 P2]|(N2 & M2 & O2)].
    + congruence.
    + subst q. destruct M2. eauto.
    + subst q. destruct M1. eauto.
    + eauto.
Qed.

Lemma stop_each_quiet kt ids s :
  let s' := stop_each kt ids s in
  portPool s' = portPool s ∧ currentPortIndex s' = currentPortIndex s ∧
  next_pid s' = next_pid s ∧ length (heap s') = length (heap s) ∧
  (∀ l i', heap s' !! l = Some i' → ∃ i, heap s !! l = Some i ∧ evolved i i') ∧
  (∀ id l, instances s' !! id = Some l → instances s !! id = Some l).
Proof.
  simpl. destruct (stop_each_frame kt ids s) as (-> & -> & -> & _ & ->).
  split_and!; try done.
  - intros l i' H. exists i'. split; [done|apply evolved_refl].
  - intros id l. rewrite stop_each_lookup. by case_decide.
Qed.

(** One turn keeps the invariant, and counts as a draw when it is one. *)
Lemma draws_port_halted S x : halted S = true → draws_port S x = false.
Proof. intros Hh. destruct x; cbn [draws_port]; by rewrite ?Hh. Qed.

Lemma draws_port_live S x :
  halted S = false →
  draws_port S x =
    match x with
    | OpStart id _ _ _ => negb (reusable (service S) id)
    | _ => false
    end.
Proof. intros Hh. destruct x; cbn [draws_port]; by rewrite ?Hh. Qed.

Lemma step_halted S x : halted S = true → step S x = S.
Proof. unfold step. by intros ->. Qed.

Lemma step_live S x : halted S = false → step S x = turn S x.
Proof. unfold step. by intros ->. Qed.

Lemma inv_step n S x :
  inv n S → inv (n + (if draws_port S x then 1 else 0)) (step S x).
Proof.
  intros HI. destruct (halted S) eqn:Eh.
  { rewrite step_halted, draws_port_halted by done. by rewrite Nat.add_0_r. }
  rewrite step_live, draws_port_live by done.
  destruct x as [id name files now|k o|id kt|now kt|kt]; simpl.
  - unfold begin_call. destruct (reusable (service S) id) eqn:Er; simpl.
    + rewrite Nat.add_0_r. unfold reusable in Er.
      destruct (get_instance (service S) id) as [[l i]|] eqn:Eg; [|done].
      rewrite (start_begin_reuse _ _ _ _ _ Eg) by (unfold reusable; by rewrite Eg).
      apply (inv_mono n S); simpl; try done.
      * apply length_alter.
      * intros l' i'. apply evolved_alter, evolved_touch.
      * intros j p. rewrite flight_port_snoc. by case_decide.
    + rewrite start_begin_fresh by done.
      pose proof (inv_touch n S now id HI) as HT.
      destruct HT as [Hpool Hcur ?????]. simpl in Hpool, Hcur.
      pose proof (cursor_range n) as Hr.
      unfold start_fresh. rewrite getNextPort_pool; [|done|by rewrite Hcur].
      unfold truthy_num. simpl. rewrite bool_decide_eq_true_2 by (rewrite Hcur; lia).
      pose proof (inv_draw n
        {| service := touch_existing now id (service S); calls := calls S |}
        {| c_appId := id; c_appName := name; c_files := files;
           c_stage := Provisioning (8081 + Z.of_nat (n `mod` 100))%Z
                        (path_join WORKSPACE_BASE id) |}
        (path_join WORKSPACE_BASE id) (inv_touch n S now id HI) eq_refl) as HD.
      simpl in HD. by rewrite Hcur in *.
  - rewrite Nat.add_0_r. destruct (calls S !! k) as [c|] eqn:Ek; [|done].
    unfold resume_call. simpl.
    destruct (registers o c) eqn:Eg.
    + unfold registers in Eg. destruct (c_stage c) as [| p ws | | | |] eqn:Ec; try done.
      rewrite (resume_register o c _ p ws) by (done || (unfold registers; by rewrite Ec)).
      apply inv_register; [done..|apply launch_stage_port].
    + destruct (resume o c (service S)) as [st s'] eqn:Eres.
      pose proof (resume_quiet o c (service S) Eg) as Hq.
      pose proof (resume_stage_port o c (service S)) as Hsp.
      rewrite Eres in Hq, Hsp. simpl in Hq, Hsp.
      destruct Hq as (? & ? & ? & ? & ? & ?).
      apply (inv_mono n S); simpl; try done.
      intros j p. rewrite flight_port_insert by (by eapply lookup_lt_Some).
      case_decide as Hd; [|done]. subst j. simpl. intros Hst%Hsp.
      unfold flight_port. by rewrite Ek.
  - rewrite Nat.add_0_r.
    destruct (stop_each_quiet kt [id] (service S)) as (? & ? & ? & ? & ? & ?).
    by apply (inv_mono n S).
  - rewrite Nat.add_0_r.
    destruct (stop_each_quiet kt (inactiveInstances now (service S)) (service S))
      as (? & ? & ? & ? & ? & ?).
    by apply (inv_mono n S).
  - rewrite Nat.add_0_r.
    destruct (stop_each_quiet kt (map_to_list (instances (service S))).*1
                (emit EvClearInterval (service S))) as (? & ? & ? & ? & ? & ?).
    by apply (inv_mono n S).
Qed.

Lemma inv_boot fault f : inv 0 (boot fault f).
Proof.
  assert (Hh : heap (service (boot fault f)) = []) by done.
  assert (Hi : instances (service (boot fault f)) = ∅) by done.
  assert (Hc : calls (boot fault f) = []) by done.
  assert (Hheld : ∀ h, held_port (boot fault f) h = None).
  { intros [k|id]; unfold held_port.
    - unfold flight_port. by rewrite Hc, lookup_nil.
    - unfold registered_port, get_instance. by rewrite Hi, lookup_empty. }
  split; try done.
  - intros _ h p. by rewrite Hheld.
  - intros _ h1 h2 p. by rewrite Hheld.
Qed.

Lemma inv_run n S ops :
  inv n S → inv (n + allocations S ops) (run S ops).
Proof.
  revert n S. induction ops as [|x ops IH]; intros n S HI; simpl.
  - by rewrite Nat.add_0_r.
  - rewrite Nat.add_assoc. apply IH. by apply inv_step.
Qed.

(** Every state reached from a freshly constructed service. *)
Lemma inv_reachable fault f ops :
  inv (allocations (boot fault f) ops) (run (boot fault f) ops).
Proof. apply (inv_run 0). apply inv_boot. Qed.

End Invariant.

(** ** What a turn leaves of a record *)

Section Identity.
Implicit Types (s : MetroService) (S : System).

Lemma same_identity_refl i : same_identity i i.
Proof. by unfold same_identity. Qed.

Lemma same_identity_alter g l0 (h : list MetroInstance) l i :
  (∀ j, same_identity j (g j)) →
  h !! l = Some i → ∃ i', alter g l0 h !! l = Some i' ∧ same_identity i i'.
Proof.
  intros Hg Hl. rewrite list_lookup_alter. case_decide as Hd.
  - subst l0. rewrite Hl. eexists. split; [done|apply Hg].
  - exists i. split; [done|apply same_identity_refl].
Qed.

Lemma same_identity_touch now j : same_identity j (touch now j).
Proof. by unfold same_identity. Qed.

Lemma same_identity_mark_ready url j : same_identity j (mark_ready url j).
Proof. by unfold same_identity. Qed.

Lemma stopMetro_keeps kt id s l i :
  heap s !! l = Some i →
  ∃ i', heap (stopMetro kt id s).2 !! l = Some i' ∧ same_identity i i'.
Proof.
  intros Hl. destruct (stopMetro_frame kt id s) as (_ & _ & -> & _).
  exists i. split; [done|apply same_identity_refl].
Qed.

Lemma stop_each_keeps kt ids s l i :
  heap s !! l = Some i →
  ∃ i', heap (stop_each kt ids s) !! l = Some i' ∧ same_identity i i'.
Proof.
  intros Hl. destruct (stop_each_frame kt ids s) as (_ & _ & -> & _).
  exists i. split; [done|apply same_identity_refl].
Qed.

Lemma start_fresh_heap id s : heap (start_fresh id s).2 = heap s.
Proof.
  unfold start_fresh. pose proof (getNextPort_frame s) as (_ & _ & Hh & _).
  destruct (getNextPort s) as [port s1]. cbn [snd] in Hh.
  by destruct (truthy_num port).
Qed.

Lemma start_begin_keeps now id s l i :
  heap s !! l = Some i →
  ∃ i', heap (start_begin now id s).2 !! l = Some i' ∧ same_identity i i'.
Proof.
  intros Hl. unfold start_begin.
  destruct (get_instance s id) as [[l0 i0]|].
  - destruct (isReady i0 && truthy_str (tunnelUrl i0)); [|rewrite start_fresh_heap];
      cbn [snd heap set_heap]; apply same_identity_alter; auto using same_identity_touch.
  - rewrite start_fresh_heap. exists i. split; [done|apply same_identity_refl].
Qed.

Lemma resume_keeps o c s l i :
  heap s !! l = Some i →
  ∃ i', heap (resume o c s).2 !! l = Some i' ∧ same_identity i i'.
Proof.
  intros Hl.
  assert (Hsame : ∃ i', heap s !! l = Some i' ∧ same_identity i i').
  { exists i. split; [done|apply same_identity_refl]. }
  unfold resume. destruct (c_stage c) as [p ws|p ws|l' p|l' p|r|].
  - by destruct (createWorkspace _ _ _ _) as [[e|[]] f'].
  - destruct (npm_error o); [done|].
    destruct (spawned o); try done;
      cbn [snd heap set_instances set_heap set_next_pid emit];
      (exists i; split; [|apply same_identity_refl]);
      (rewrite lookup_app_l; [done|]; by eapply lookup_lt_Some).
  - destruct (waitForMetroReady _ _); [done|]. by apply stopMetro_keeps.
  - destruct (ngrok_url o) as [url|]; [|by apply stopMetro_keeps].
    destruct (truthy_str (Some url)); [|by apply stopMetro_keeps].
    cbn [snd heap set_heap]. apply same_identity_alter; auto using same_identity_mark_ready.
  - done.
  - done.
Qed.

(** X9. No turn of the service changes the appId, appName, process,
    workspaceDir, port or startTime of a record that exists, and none sets
    its isReady back to false. *)
Theorem records_keep_their_identity S x l i :
  heap (service S) !! l = Some i →
  ∃ i', heap (service (step S x)) !! l = Some i' ∧ same_identity i i'.
Proof.
  intros Hl. unfold step.
  destruct (halted S); [exists i; split; [done|apply same_identity_refl]|].
  destruct x as [id name files now|k o|id kt|now kt|kt]; cbn [turn].
  - unfold begin_call.
    pose proof (start_begin_keeps now id (service S) l i Hl) as Hk.
    by destruct (start_begin now id (service S)).
  - destruct (calls S !! k) as [c|]; [|exists i; split; [done|apply same_identity_refl]].
    unfold resume_call. cbn [fst snd].
    pose proof (resume_keeps o c (service S) l i Hl) as Hk.
    by destruct (resume o c (service S)).
  - by apply stopMetro_keeps.
  - by apply stop_each_keeps.
  - unfold shutdown. cbn [service heap emit]. by apply stop_each_keeps.
Qed.

End Identity.

(** ** Registry, records and calls agree *)

Section Consistency.
Implicit Types (s : MetroService) (S : System) (c : call).

#[local] Arguments Nat.modulo : simpl never.
#[local] Arguments Z.modulo : simpl never.

Lemma consistent_mono S S' :
  consistent S →
  (∀ l i', heap (service S') !! l = Some i' →
     ∃ i, heap (service S) !! l = Some i ∧ appId i' = appId i ∧
          (well_formed i → well_formed i')) →
  (∀ id l, instances (service S') !! id = Some l →
     instances (service S) !! id = Some l) →
  (∀ k c, calls S' !! k = Some c → stage_ok c) →
  consistent S'.
Proof.
  intros [Hkey Hinj Hheap Hcalls] Hh Hi Hc. split.
  - intros id l i' H1 H2. destruct (Hh _ _ H2) as (i & Hl & -> & _). eauto.
  - intros id1 id2 l H1 H2. eauto.
  - intros l i' H. destruct (Hh _ _ H) as (i & Hl & _ & Hw). eauto.
  - done.
Qed.

Lemma keep_refl (h : list MetroInstance) l i' :
  h !! l = Some i' →
  ∃ i, h !! l = Some i ∧ appId i' = appId i ∧ (well_formed i → well_formed i').
Proof. intros H. by exists i'. Qed.

Lemma keep_alter g l0 (h : list MetroInstance) l i' :
  (∀ j, appId (g j) = appId j ∧ (well_formed j → well_formed (g j))) →
  alter g l0 h !! l = Some i' →
  ∃ i, h !! l = Some i ∧ appId i' = appId i ∧ (well_formed i → well_formed i').
Proof.
  intros Hg. rewrite list_lookup_alter. case_decide as Hd; [|apply keep_refl].
  subst l0. destruct (h !! l) as [i|]; [|done]. intros [= <-].
  exists i. split; [done|apply Hg].
Qed.

Lemma keep_touch now j :
  appId (touch now j) = appId j ∧ (well_formed j → well_formed (touch now j)).
Proof. by unfold well_formed. Qed.

Lemma keep_mark_ready url j :
  truthy_str (Some url) = true →
  appId (mark_ready url j) = appId j ∧ (well_formed j → well_formed (mark_ready url j)).
Proof.
  intros Hu. split; [done|]. unfold well_formed.
  intros (Hw & Hp & _). split; [exact Hw|]. split; [exact Hp|].
  right. split; [done|].
  exists url. split; [|done].
  unfold truthy_str in Hu. by apply bool_decide_eq_true in Hu.
Qed.

Lemma stage_ok_snoc (cs : list call) c k c' :
  (∀ k c, cs !! k = Some c → stage_ok c) → stage_ok c →
  (cs ++ [c]) !! k = Some c' → stage_ok c'.
Proof.
  intros Hcs Hc [[_ H]|[_ <-]]%lookup_snoc_Some; eauto.
Qed.

Lemma stage_ok_insert (cs : list call) c j k c' :
  (∀ k c, cs !! k = Some c → stage_ok c) → stage_ok c →
  <[j := c]> cs !! k = Some c' → stage_ok c'.
Proof.
  intros Hcs Hc [(_ & <- & _)|[_ H]]%list_lookup_insert_Some; eauto.
Qed.

Lemma stop_each_keep kt ids s :
  (∀ l i', heap (stop_each kt ids s) !! l = Some i' →
     ∃ i, heap s !! l = Some i ∧ appId i' = appId i ∧
          (well_formed i → well_formed i')) ∧
  (∀ id l, instances (stop_each kt ids s) !! id = Some l → instances s !! id = Some l).
Proof.
  destruct (stop_each_frame kt ids s) as (_ & _ & -> & _). split.
  - intros l i'. apply keep_refl.
  - intros id l. rewrite stop_each_lookup. by case_decide.
Qed.

Lemma resume_stage_ok o c s :
  registers o c = false → stage_ok c → stage_ok (with_stage c (resume o c s).1).
Proof.
  unfold registers, stage_ok, resume.
  destruct (c_stage c) as [p ws|p ws|l p|l p|r|]; cbn [with_stage c_stage c_appId].
  - intros _ Hok. by destruct (createWorkspace _ _ _ _) as [[e|[]] f'].
  - by destruct (npm_error o), (spawned o).
  - intros _ _. by destruct (waitForMetroReady _ _).
  - intros _ _. destruct (ngrok_url o) as [url|]; [|done]. by destruct (truthy_str _).
  - done.
  - done.
Qed.

Lemma resume_keep o c s :
  registers o c = false →
  (∀ l i', heap (resume o c s).2 !! l = Some i' →
     ∃ i, heap s !! l = Some i ∧ appId i' = appId i ∧
          (well_formed i → well_formed i')) ∧
  (∀ id l, instances (resume o c s).2 !! id = Some l → instances s !! id = Some l).
Proof.
  pose proof (stop_each_keep (kill_throws o) [c_appId c] s) as Hstop.
  change (stop_each (kill_throws o) [c_appId c] s)
    with (stopMetro (kill_throws o) (c_appId c) s).2 in Hstop.
  assert (Hsame :
    (∀ l i', heap s !! l = Some i' →
       ∃ i, heap s !! l = Some i ∧ appId i' = appId i ∧
            (well_formed i → well_formed i')) ∧
    (∀ id l, instances s !! id = Some l → instances s !! id = Some l)).
  { split; [intros l i'; apply keep_refl|done]. }
  unfold registers, resume. destruct (c_stage c) as [p ws|p ws|l p|l p|r|].
  - intros _. by destruct (createWorkspace _ _ _ _) as [[e|[]] f'].
  - by destruct (npm_error o), (spawned o).
  - intros _. by destruct (waitForMetroReady _ _).
  - intros _. destruct (ngrok_url o) as [url|]; [|done].
    destruct (truthy_str (Some url)) eqn:Hu; [|done].
    cbn [snd heap instances set_heap]. split; [|done].
    intros l' i'. apply keep_alter. intros j. by apply keep_mark_ready.
  - done.
  - done.
Qed.

Lemma consistent_step n S x : inv n S → consistent S → consistent (step S x).
Proof.
  intros HI HC. unfold step. destruct (halted S); [done|].
  destruct x as [id name files now|k o|id kt|now kt|kt]; cbn [turn].
  - unfold begin_call.
    destruct (touch_existing_quiet now id (service S)) as (Ei & Ep & Ec & _ & _ & _ & El & _).
    assert (Hth : ∀ l i', heap (touch_existing now id (service S)) !! l = Some i' →
              ∃ i, heap (service S) !! l = Some i ∧ appId i' = appId i ∧
                   (well_formed i → well_formed i')).
    { unfold touch_existing. destruct (get_instance (service S) id) as [[l0 i0]|].
      - intros l i'. apply keep_alter, keep_touch.
      - intros l i'. apply keep_refl. }
    destruct (reusable (service S) id) eqn:Er.
    + pose proof Er as Er'. unfold reusable in Er.
      destruct (get_instance (service S) id) as [[l0 i0]|] eqn:Eg; [|done].
      rewrite (start_begin_reuse _ _ _ _ _ Eg Er').
      apply (consistent_mono S); cbn [service calls heap instances set_heap]; try done.
      * intros l i'. apply keep_alter, keep_touch.
      * intros j c'. apply stage_ok_snoc; [apply HC|done].
    + rewrite start_begin_fresh by done.
      destruct HI as [Hpool Hcur _ _ _ _ _].
      pose proof (cursor_range n) as Hr.
      unfold start_fresh. rewrite getNextPort_pool; [|by rewrite Ep|by rewrite Ec, Hcur].
      unfold truthy_num. rewrite bool_decide_eq_true_2 by (rewrite Ec, Hcur; lia).
      cbn [default].
      apply (consistent_mono S); cbn [service calls heap instances set_cursor]; try done.
      * by rewrite Ei.
      * intros j c'. apply stage_ok_snoc; [apply HC|].
        unfold stage_ok. cbn [c_stage c_appId]. split; [|done]. rewrite Ec, Hcur.
        unfold Datatypes.id. lia.
  - destruct (calls S !! k) as [c|] eqn:Ek; [|done].
    unfold resume_call. cbn [fst snd].
    destruct (registers o c) eqn:Eg.
    + unfold registers in Eg. destruct (c_stage c) as [| p ws | | | |] eqn:Ec; try done.
      rewrite (resume_register o c _ p ws) by (done || (unfold registers; by rewrite Ec)).
      destruct HC as [Hkey Hinj Hheap Hcalls]. destruct HI as [_ _ _ Hbound _ _ _].
      pose proof (Hcalls _ _ Ek) as Hok. unfold stage_ok in Hok. rewrite Ec in Hok.
      destruct Hok as [Hp Hws].
      split; cbn [service calls heap instances].
      * intros id l i.
        destruct (decide (c_appId c = id)) as [<-|Hne].
        -- rewrite lookup_insert_eq. intros [= <-].
           rewrite list_lookup_middle by done. by intros [= <-].
        -- rewrite lookup_insert_ne by done. intros Hl.
           rewrite lookup_app_l by eauto. eauto.
      * intros id1 id2 l.
        destruct (decide (c_appId c = id1)) as [<-|Hne1],
                 (decide (c_appId c = id2)) as [<-|Hne2];
          rewrite ?lookup_insert_eq, ?lookup_insert_ne by done; try done.
        -- intros [= <-] H2%Hbound. lia.
        -- intros H1%Hbound [= <-]. lia.
        -- eauto.
      * intros l i [[_ H]|[_ <-]]%lookup_snoc_Some; [eauto|].
        unfold well_formed.
        cbn [new_instance workspaceDir appId port isReady tunnelUrl bundleUrl].
        split; [exact Hws|]. split; [exact Hp|]. by left.
      * intros j c'. apply stage_ok_insert; [done|].
        unfold stage_ok, launch_stage. cbn [with_stage c_stage]. by destruct (spawned o).
    + destruct (resume_keep o c (service S) Eg) as [Hh Hi].
      pose proof (resume_stage_ok o c (service S) Eg (con_calls _ HC _ _ Ek)) as Hok.
      destruct (resume o c (service S)) as [st s'] eqn:Eres. cbn [fst snd] in *.
      apply (consistent_mono S); cbn [service calls]; try done.
      intros j c'. apply stage_ok_insert; [apply HC|done].
  - destruct (stop_each_keep kt [id] (service S)) as [Hh Hi].
    by apply (consistent_mono S); [..|apply HC].
  - destruct (stop_each_keep kt (inactiveInstances now (service S)) (service S)) as [Hh Hi].
    by apply (consistent_mono S); [..|apply HC].
  - destruct (stop_each_keep kt (map_to_list (instances (service S))).*1
                (emit EvClearInterval (service S))) as [Hh Hi].
    by apply (consistent_mono S); [..|apply HC].
Qed.

Lemma consistent_boot fault f : consistent (boot fault f).
Proof.
  assert (Hh : heap (service (boot fault f)) = []) by done.
  assert (Hi : instances (service (boot fault f)) = ∅) by done.
  assert (Hc : calls (boot fault f) = []) by done.
  split.
  - intros id l i. by rewrite Hi, lookup_empty.
  - intros id1 id2 l. by rewrite Hi, lookup_empty.
  - intros l i. by rewrite Hh, lookup_nil.
  - intros k c. by rewrite Hc, lookup_nil.
Qed.

Lemma consistent_run n S ops : inv n S → consistent S → consistent (run S ops).
Proof.
  revert n S. induction ops as [|x ops IH]; intros n S HI HC; [done|].
  cbn [run foldl]. eapply (IH _ (step S x)).
  - by apply inv_step.
  - by eapply consistent_step.
Qed.

(** X10. In every state the service reaches, a registry entry points to a
    record that exists, whose appId is the key, whose workspaceDir is
    WORKSPACE_BASE joined with the key, whose port lies in 8081..8180, and
    which is either not ready with no URLs or ready with a non-empty
    tunnelUrl and the bundleUrl built from it; no two keys share a record. *)
Theorem registry_is_consistent fault f ops id l i :
  let s := service (run (boot fault f) ops) in
  instances s !! id = Some l →
  (∃ i, heap s !! l = Some i) ∧
  (heap s !! l = Some i →
     appId i = id ∧
     workspaceDir i = path_join WORKSPACE_BASE id ∧
     (8081 ≤ port i ≤ 8180)%Z ∧
     ((isReady i = false ∧ tunnelUrl i = None ∧ bundleUrl i = None) ∨
      (isReady i = true ∧
       ∃ url, url ≠ "" ∧ tunnelUrl i = Some url ∧ bundleUrl i = Some (bundle_of url)))) ∧
  (∀ id', instances s !! id' = Some l → id' = id).
Proof.
  cbn zeta. intros Hl.
  pose proof (consistent_run 0 (boot fault f) ops (inv_boot fault f) (consistent_boot fault f))
    as [Hkey Hinj Hheap _].
  destruct (inv_reachable fault f ops) as [_ _ _ Hbound _ _ _].
  split_and!.
  - apply lookup_lt_is_Some. eauto.
  - intros Hi. pose proof (Hkey _ _ _ Hl Hi) as Hid.
    destruct (Hheap _ _ Hi) as (Hw & Hp & Hr). rewrite Hid in Hw. done.
  - intros id' Hl'. eauto.
Qed.

End Consistency.

(** ** Draw numbers of calls and records *)

Section Ledger.
Implicit Types (s : MetroService) (S : System) (L : ledger) (c : call).

Lemma launch_stage_record o l0 p l :
  stage_record (launch_stage o l0 p) = Some l → l = l0.
Proof. unfold launch_stage. destruct (spawned o); cbn; congruence. Qed.

Lemma resume_stage_record o c s l :
  registers o c = false →
  stage_record (resume o c s).1 = Some l → stage_record (c_stage c) = Some l.
Proof.
  unfold resume, registers. destruct (c_stage c) as [q ws|q ws|l' q|l' q|r|]; simpl.
  - intros _. by destruct (createWorkspace _ _ _ _) as [[e|[]] f].
  - by destruct (npm_error o), (spawned o).
  - intros _. by destruct (waitForMetroReady _ _).
  - intros _. destruct (ngrok_url o) as [url|]; [|done]. by destruct (truthy_str _).
  - done.
  - done.
Qed.

(** What a turn that registers nothing leaves of the records. *)
Lemma resume_kept o c s :
  registers o c = false →
  next_pid (resume o c s).2 = next_pid s ∧
  length (heap (resume o c s).2) = length (heap s) ∧
  (∀ l i', heap (resume o c s).2 !! l = Some i' →
     ∃ i, heap s !! l = Some i ∧ port i' = port i ∧ process i' = process i ∧
          appId i' = appId i).
Proof.
  intros Hr. destruct (resume_quiet o c s Hr) as (_ & _ & Hn & Hl & Hev & _).
  destruct (resume_keep o c s Hr) as [Hk _].
  split_and!; [done..|]. intros l i' Hi'.
  destruct (Hev _ _ Hi') as (i & Hi & Hp & Hpr & _).
  destruct (Hk _ _ Hi') as (i2 & Hi2 & Ha & _).
  exists i. split_and!; [done..|congruence].
Qed.

Lemma stop_each_kept kt ids s :
  next_pid (stop_each kt ids s) = next_pid s ∧
  length (heap (stop_each kt ids s)) = length (heap s) ∧
  (∀ l i', heap (stop_each kt ids s) !! l = Some i' →
     ∃ i, heap s !! l = Some i ∧ port i' = port i ∧ process i' = process i ∧
          appId i' = appId i).
Proof.
  destruct (stop_each_frame kt ids s) as (_ & _ & -> & _ & ->).
  split_and!; [done..|]. intros l i' Hi'. by exists i'.
Qed.

Lemma alter_touch_kept now l0 (h : list MetroInstance) l i' :
  alter (touch now) l0 h !! l = Some i' →
  ∃ i, h !! l = Some i ∧ port i' = port i ∧ process i' = process i ∧ appId i' = appId i.
Proof.
  rewrite list_lookup_alter. case_decide as Hd.
  - subst l0. destruct (h !! l) as [i|]; [|done]. intros [= <-]. by exists i.
  - intros H. by exists i'.
Qed.

Lemma touch_existing_kept now id s :
  next_pid (touch_existing now id s) = next_pid s ∧
  length (heap (touch_existing now id s)) = length (heap s) ∧
  (∀ l i', heap (touch_existing now id s) !! l = Some i' →
     ∃ i, heap s !! l = Some i ∧ port i' = port i ∧ process i' = process i ∧
          appId i' = appId i).
Proof.
  unfold touch_existing. destruct (get_instance s id) as [[l0 i0]|]; cbn.
  - split_and!; [done|apply length_alter|]. intros l i'. apply alter_touch_kept.
  - split_and!; [done..|]. intros l i' H. by exists i'.
Qed.

(** A turn that neither starts a call nor registers a record. *)
Lemma booked_mono n S S' L :
  booked n S L →
  next_pid (service S') = next_pid (service S) →
  length (heap (service S')) = length (heap (service S)) →
  (∀ l i', heap (service S') !! l = Some i' →
     ∃ i, heap (service S) !! l = Some i ∧ port i' = port i ∧
          process i' = process i ∧ appId i' = appId i) →
  length (calls S') = length (calls S) →
  (∀ k c', calls S' !! k = Some c' →
     ∃ c, calls S !! k = Some c ∧ c_appId c' = c_appId c ∧
          (∀ p, stage_port (c_stage c') = Some p → stage_port (c_stage c) = Some p) ∧
          (∀ l, stage_record (c_stage c') = Some l →
             stage_record (c_stage c) = Some l)) →
  booked n S' L.
Proof.
  intros [Hcalls Hheap Hnext Hproc Hown Hflight Hdrawn Hdinj Hborn Hbinj] En El Hh Ec Hc.
  split; try done.
  - congruence.
  - congruence.
  - congruence.
  - intros l i' Hi'. destruct (Hh _ _ Hi') as (i & Hi & _ & -> & _). eauto.
  - intros k c' l Hk Hst. destruct (Hc _ _ Hk) as (c & Hkc & Ha & _ & Hr).
    destruct (Hown k c l Hkc (Hr _ Hst)) as (i & Hi & Hai).
    assert (l < length (heap (service S'))) as [i' Hi']%lookup_lt_is_Some.
    { rewrite El. by eapply lookup_lt_Some. }
    exists i'. split; [done|].
    destruct (Hh _ _ Hi') as (i0 & Hi0 & _ & _ & ->). congruence.
  - intros k c' p Hk Hsp. destruct (Hc _ _ Hk) as (c & Hkc & _ & Hp & _). eauto.
  - intros l i' Hi'. destruct (Hh _ _ Hi') as (i & Hi & -> & _). eauto.
Qed.

(** A new call: it took the reuse branch, or it made draw number [n]. *)
Lemma booked_start n n' S s' c od L :
  booked n S L →
  next_pid s' = next_pid (service S) →
  length (heap s') = length (heap (service S)) →
  (∀ l i', heap s' !! l = Some i' →
     ∃ i, heap (service S) !! l = Some i ∧ port i' = port i ∧
          process i' = process i ∧ appId i' = appId i) →
  stage_record (c_stage c) = None →
  n ≤ n' →
  (od = None ∧ stage_port (c_stage c) = None) ∨
  (od = Some n ∧ n < n' ∧
   stage_port (c_stage c) = Some (8081 + Z.of_nat (n `mod` 100))%Z) →
  booked n' {| service := s'; calls := calls S ++ [c] |}
         {| drawn := drawn L ++ [od]; born := born L |}.
Proof.
  intros [Hcalls Hheap Hnext Hproc Hown Hflight Hdrawn Hdinj Hborn Hbinj]
    En El Hh Hrec Hn Hod.
  assert (Hbound : ∀ l d, born L !! l = Some (Some d) → d < n).
  { intros l d Hl.
    assert (l < length (heap (service S))) as [i Hi]%lookup_lt_is_Some.
    { rewrite <- Hheap. by eapply lookup_lt_Some. }
    destruct (Hborn _ _ Hi) as (d' & Hd' & Hlt & _). congruence. }
  split; cbn [service calls drawn born].
  - rewrite !length_app. cbn. lia.
  - congruence.
  - congruence.
  - intros l i' Hi'. destruct (Hh _ _ Hi') as (i & Hi & _ & -> & _). eauto.
  - intros k c0 l [[Hlt Hk]|[_ <-]]%lookup_snoc_Some Hst; [|congruence].
    destruct (Hown k c0 l Hk Hst) as (i & Hi & Hai).
    assert (l < length (heap s')) as [i' Hi']%lookup_lt_is_Some.
    { rewrite El. by eapply lookup_lt_Some. }
    exists i'. split; [done|].
    destruct (Hh _ _ Hi') as (i0 & Hi0 & _ & _ & ->). congruence.
  - intros k c0 p [[Hlt Hk]|[-> <-]]%lookup_snoc_Some Hsp.
    + destruct (Hflight k c0 p Hk Hsp) as (d & Hd & Hp & Hfree).
      exists d. split_and!; [|done..]. rewrite lookup_app_l; [done|]. lia.
    + destruct Hod as [[_ Hnone]|(-> & _ & Hsome)]; [congruence|].
      exists n. split_and!.
      * rewrite <- Hcalls. by apply list_lookup_middle.
      * congruence.
      * intros l Hl. apply Hbound in Hl. lia.
  - intros k d [[Hlt Hk]|[_ E]]%lookup_snoc_Some.
    + apply Hdrawn in Hk. lia.
    + destruct Hod as [[? _]|(? & ? & _)]; simplify_eq. lia.
  - intros k1 k2 d [[Hlt1 H1]|[-> E1]]%lookup_snoc_Some
                   [[Hlt2 H2]|[-> E2]]%lookup_snoc_Some.
    + eauto.
    + destruct Hod as [[? _]|(? & ? & _)]; simplify_eq.
      apply Hdrawn in H1. lia.
    + destruct Hod as [[? _]|(? & ? & _)]; simplify_eq.
      apply Hdrawn in H2. lia.
    + done.
  - intros l i' Hi'. destruct (Hh _ _ Hi') as (i & Hi & -> & _).
    destruct (Hborn _ _ Hi) as (d & Hd & Hlt & Hp). exists d. split_and!; [done|lia|done].
  - done.
Qed.

(** The registering turn: the record is born with the draw number of its
    call. *)
Lemma booked_register n S k c o p ws st L :
  booked n S L →
  calls S !! k = Some c →
  c_stage c = Launching p ws →
  stage_port st = None →
  (∀ l, stage_record st = Some l → l = length (heap (service S))) →
  booked n
    {| service :=
         {| instances := <[c_appId c := length (heap (service S))]> (instances (service S));
            portPool := portPool (service S);
            currentPortIndex := currentPortIndex (service S);
            heap := heap (service S) ++ [new_instance o c p ws (next_pid (service S))];
            fs := fs (service S); next_pid := Datatypes.S (next_pid (service S));
            trace := trace (service S) ++ [EvSpawn (next_pid (service S)) ws p] |};
       calls := <[k := with_stage c st]> (calls S) |}
    {| drawn := drawn L; born := born L ++ [mjoin (drawn L !! k)] |}.
Proof.
  intros [Hcalls Hheap Hnext Hproc Hown Hflight Hdrawn Hdinj Hborn Hbinj] Hk Hc Hst Hrec.
  assert (Hlen : k < length (calls S)) by (by eapply lookup_lt_Some).
  destruct (Hflight k c p Hk) as (d & Hd & Hp & Hfree).
  { by rewrite Hc. }
  assert (Hborn_lt : ∀ l x, born L !! l = Some x → l < length (heap (service S))).
  { intros l x Hl. rewrite <- Hheap. by eapply lookup_lt_Some. }
  split; cbn [service calls drawn born heap next_pid].
  - by rewrite length_insert.
  - rewrite !length_app. cbn. lia.
  - rewrite length_app. cbn. lia.
  - intros l i [[_ H]|[-> <-]]%lookup_snoc_Some; [eauto|]. cbn. done.
  - intros k' c' l [(-> & <- & _)|[Hne Hk']]%list_lookup_insert_Some Hsr.
    + cbn [with_stage c_stage c_appId] in *. apply Hrec in Hsr as ->.
      eexists. split; [by apply list_lookup_middle|done].
    + destruct (Hown k' c' l Hk' Hsr) as (i & Hi & Hai).
      exists i. split; [|done]. rewrite lookup_app_l; [done|]. by eapply lookup_lt_Some.
  - intros k' c' q [(-> & <- & _)|[Hne Hk']]%list_lookup_insert_Some Hsp.
    + cbn [with_stage c_stage] in Hsp. congruence.
    + destruct (Hflight k' c' q Hk' Hsp) as (d' & Hd' & Hq & Hfree').
      exists d'. split_and!; [done..|].
      intros l [[_ Hl]|[_ Hl]]%lookup_snoc_Some; [by eapply Hfree'|].
      rewrite Hd in Hl. cbn in Hl. injection Hl as ->. eauto.
  - done.
  - done.
  - intros l i [[_ Hl]|[-> <-]]%lookup_snoc_Some.
    + destruct (Hborn _ _ Hl) as (d' & Hd' & Hlt & Hpt).
      exists d'. split_and!; [|done..]. rewrite lookup_app_l; [done|].
      rewrite Hheap. by eapply lookup_lt_Some.
    + exists d. split_and!.
      * rewrite <- Hheap, list_lookup_middle by done. by rewrite Hd.
      * eauto.
      * done.
  - intros l1 l2 d' [[_ H1]|[-> E1]]%lookup_snoc_Some [[_ H2]|[-> E2]]%lookup_snoc_Some.
    + eauto.
    + rewrite Hd in E2. cbn in E2. injection E2 as ->. by apply Hfree in H1.
    + rewrite Hd in E1. cbn in E1. injection E1 as ->. by apply Hfree in H2.
    + done.
Qed.

(** One turn keeps the books. *)
Lemma booked_step n S x L :
  inv n S → booked n S L →
  booked (n + (if draws_port S x then 1 else 0)) (step S x) (note n S x L).
Proof.
  intros HI HB. unfold note. destruct (halted S) eqn:Eh.
  { rewrite step_halted, draws_port_halted by done. by rewrite Nat.add_0_r. }
  rewrite step_live, draws_port_live by done.
  assert (Hsame : ∀ k c', calls S !! k = Some c' →
     ∃ c, calls S !! k = Some c ∧ c_appId c' = c_appId c ∧
          (∀ p, stage_port (c_stage c') = Some p → stage_port (c_stage c) = Some p) ∧
          (∀ l, stage_record (c_stage c') = Some l →
             stage_record (c_stage c) = Some l)).
  { intros k c' Hk. by exists c'. }
  destruct x as [id name files now|k o|id kt|now kt|kt]; cbn [turn].
  - unfold begin_call. destruct (reusable (service S) id) eqn:Er; cbn [negb].
    + pose proof Er as Er'. unfold reusable in Er.
      destruct (get_instance (service S) id) as [[l i]|] eqn:Eg; [|done].
      rewrite (start_begin_reuse _ _ _ _ _ Eg Er').
      apply (booked_start n _ S); cbn [heap next_pid set_heap c_stage]; try done.
      * apply length_alter.
      * intros l' i'. apply alter_touch_kept.
      * lia.
      * by left.
    + rewrite start_begin_fresh by done.
      destruct (touch_existing_quiet now id (service S)) as (_ & Ep & Ec & _).
      destruct (touch_existing_kept now id (service S)) as (En & El & Hh).
      destruct HI as [Hpool Hcur _ _ _ _ _].
      pose proof (cursor_range n) as Hr.
      unfold start_fresh. rewrite getNextPort_pool; [|by rewrite Ep|by rewrite Ec, Hcur].
      unfold truthy_num. rewrite bool_decide_eq_true_2 by (rewrite Ec, Hcur; lia).
      cbn [default].
      apply (booked_start n _ S); cbn [heap next_pid set_cursor c_stage]; try done.
      * lia.
      * right. split_and!; [done|lia|]. cbn. by rewrite Ec, Hcur.
  - rewrite Nat.add_0_r. destruct (calls S !! k) as [c|] eqn:Ek; [|done].
    unfold resume_call. cbn [fst snd].
    destruct (registers o c) eqn:Eg.
    + pose proof Eg as Eg'. unfold registers in Eg.
      destruct (c_stage c) as [| p ws | | | |] eqn:Ec; try done.
      rewrite (resume_register o c _ p ws) by done.
      apply booked_register; [done..|apply launch_stage_port|apply launch_stage_record].
    + destruct (resume_kept o c (service S) Eg) as (En & El & Hh).
      pose proof (resume_stage_port o c (service S)) as Hsp.
      pose proof (resume_stage_record o c (service S)) as Hsr.
      destruct (resume o c (service S)) as [st s'] eqn:Eres. cbn [fst snd] in *.
      apply (booked_mono n S); cbn [service calls]; try done.
      * by rewrite length_insert.
      * intros k' c' [(-> & <- & _)|[Hne Hk']]%list_lookup_insert_Some; [|by apply Hsame].
        exists c. split_and!; [done|done|..]; cbn [with_stage c_stage]; eauto.
  - rewrite Nat.add_0_r.
    destruct (stop_each_kept kt [id] (service S)) as (? & ? & ?).
    by apply (booked_mono n S).
  - rewrite Nat.add_0_r.
    destruct (stop_each_kept kt (inactiveInstances now (service S)) (service S))
      as (? & ? & ?).
    by apply (booked_mono n S).
  - rewrite Nat.add_0_r.
    destruct (stop_each_kept kt (map_to_list (instances (service S))).*1
                (emit EvClearInterval (service S))) as (? & ? & ?).
    by apply (booked_mono n S).
Qed.

Lemma booked_boot fault f : booked 0 (boot fault f) no_ledger.
Proof. by split. Qed.

Lemma booked_run n S L ops :
  inv n S → booked n S L →
  booked (n + allocations S ops) (run S ops) (ledger_of n S L ops).
Proof.
  revert n S L. induction ops as [|x ops IH]; intros n S L HI HB; cbn.
  - by rewrite Nat.add_0_r.
  - rewrite Nat.add_assoc. apply IH; [by apply inv_step|by apply booked_step].
Qed.

(** Every state reached from a freshly constructed service, with the ledger
    of the run. *)
Lemma booked_reachable fault f ops :
  booked (allocations (boot fault f) ops) (run (boot fault f) ops)
         (ledger_of 0 (boot fault f) no_ledger ops).
Proof. apply (booked_run 0); [apply inv_boot|apply booked_boot]. Qed.

End Ledger.

(** ** Round-robin allocation and port uniqueness *)

Section RoundRobin.
Implicit Types (s : MetroService) (id : string).

Lemma getNextPort_None s : (getNextPort s).1 = None ↔ portPool s = [].
Proof.
  unfold getNextPort. case_decide as Hd; simpl.
  - split; [|done]. intros _. apply length_zero_iff_nil. lia.
  - split.
    + intros Hl. apply lookup_ge_None in Hl.
      pose proof (Z.mod_pos_bound (currentPortIndex s) (Z.of_nat (length (portPool s)))).
      lia.
    + intros Hp. rewrite Hp in Hd. done.
Qed.

(** C2. In the state reached from a freshly constructed service by any
    turns whatever (starts, later turns of calls, stops, sweeps), of which
    [n] drew a port, the next call of the allocator returns the pool
    element at index [n mod 100], which is the port [8081 + n mod 100] of
    the fixed range 8081..8180, and advances the cursor to [(n + 1) mod 100];
    the allocator returns the null sentinel only for an empty pool. *)
Theorem allocator_is_round_robin fault f ops :
  let S := run (boot fault f) ops in
  let n := allocations (boot fault f) ops in
  portPool (service S) = seqZ 8081 100 ∧
  (getNextPort (service S)).1 = portPool (service S) !! (n `mod` 100) ∧
  (getNextPort (service S)).1 = Some (8081 + Z.of_nat (n `mod` 100))%Z ∧
  currentPortIndex (getNextPort (service S)).2 = Z.of_nat ((n + 1) `mod` 100) ∧
  (∀ s, (getNextPort s).1 = None → portPool s = []).
Proof.
  simpl. destruct (inv_reachable fault f ops) as [Hpool Hcur _ _ _ _ _].
  pose proof (cursor_range (allocations (boot fault f) ops)) as Hr.
  rewrite getNextPort_pool by (done || by rewrite Hcur).
  rewrite Hpool, Hcur. simpl. split_and!.
  - done.
  - symmetry. apply lookup_seqZ. lia.
  - done.
  - symmetry. apply cursor_succ.
  - intros s. apply getNextPort_None.
Qed.

Lemma draw_of_record_Some S ops l d :
  draw_of_record S ops l = Some d ↔
  born (ledger_of 0 S no_ledger ops) !! l = Some (Some d).
Proof.
  unfold draw_of_record.
  destruct (born (ledger_of 0 S no_ledger ops) !! l) as [[d'|]|]; cbn; naive_solver.
Qed.

Lemma same_slot d1 d2 :
  d1 `mod` 100 = d2 `mod` 100 → d1 < d2 + 100 → d2 < d1 + 100 → d1 = d2.
Proof.
  intros Hm H1 H2.
  pose proof (Nat.div_mod_eq d1 100). pose proof (Nat.div_mod_eq d2 100). lia.
Qed.

(** C1, as the code has it. Number the calls of [getNextPort] 0, 1, 2, ...
    in the order they are made. Every registered record carries the pool
    port of the draw that gave it its port, [8081 + d mod 100]. Two distinct
    registry entries stem from different draws, and their ports are equal
    exactly when the two draw numbers differ by a multiple of 100: entries
    whose draws lie fewer than 100 apart never share a port. Likewise the
    port the allocator hands out next is carried by a registered record
    exactly when that record's draw lies a multiple of 100 draws back, hence
    by no record drawn within the last 99 draws. In particular no two
    entries share a port while at most 100 draws have been made. *)
Theorem ports_collide_only_a_cycle_apart fault f ops :
  let S := run (boot fault f) ops in
  let n := allocations (boot fault f) ops in
  (∀ id l i, get_instance (service S) id = Some (l, i) →
     ∃ d, draw_of_record (boot fault f) ops l = Some d ∧ d < n ∧
          port i = (8081 + Z.of_nat (d `mod` 100))%Z) ∧
  (∀ id1 id2 l1 l2 i1 i2 d1 d2,
     get_instance (service S) id1 = Some (l1, i1) →
     get_instance (service S) id2 = Some (l2, i2) →
     id1 ≠ id2 →
     draw_of_record (boot fault f) ops l1 = Some d1 →
     draw_of_record (boot fault f) ops l2 = Some d2 →
     d1 ≠ d2 ∧
     (port i1 = port i2 ↔ d1 `mod` 100 = d2 `mod` 100) ∧
     (d1 < d2 + 100 → d2 < d1 + 100 → port i1 ≠ port i2)) ∧
  (∀ id l i d,
     get_instance (service S) id = Some (l, i) →
     draw_of_record (boot fault f) ops l = Some d →
     ((getNextPort (service S)).1 = Some (port i) ↔ n `mod` 100 = d `mod` 100) ∧
     (n < d + 100 → (getNextPort (service S)).1 ≠ Some (port i))) ∧
  (n ≤ 100 →
   ∀ id1 id2 l1 l2 i1 i2,
     get_instance (service S) id1 = Some (l1, i1) →
     get_instance (service S) id2 = Some (l2, i2) →
     id1 ≠ id2 → port i1 ≠ port i2).
Proof.
  cbn zeta.
  destruct (inv_reachable fault f ops) as [Hpool Hcur _ _ _ _ _].
  pose proof (consistent_run 0 (boot fault f) ops (inv_boot fault f)
                (consistent_boot fault f)) as [_ Hinj _ _].
  destruct (booked_reachable fault f ops) as [_ _ _ _ _ _ _ _ Hborn Hbinj].
  pose proof (cursor_range (allocations (boot fault f) ops)) as Hr.
  assert (Hdraw : ∀ id l i, get_instance (service (run (boot fault f) ops)) id = Some (l, i) →
     ∃ d, draw_of_record (boot fault f) ops l = Some d ∧
          d < allocations (boot fault f) ops ∧
          port i = (8081 + Z.of_nat (d `mod` 100))%Z).
  { intros id l i [_ Hi]%get_instance_Some.
    destruct (Hborn _ _ Hi) as (d & Hd & Hlt & Hp).
    exists d. split; [by apply draw_of_record_Some|done]. }
  assert (Hpair : ∀ id1 id2 l1 l2 i1 i2 d1 d2,
     get_instance (service (run (boot fault f) ops)) id1 = Some (l1, i1) →
     get_instance (service (run (boot fault f) ops)) id2 = Some (l2, i2) →
     id1 ≠ id2 →
     draw_of_record (boot fault f) ops l1 = Some d1 →
     draw_of_record (boot fault f) ops l2 = Some d2 →
     d1 ≠ d2 ∧
     (port i1 = port i2 ↔ d1 `mod` 100 = d2 `mod` 100) ∧
     (d1 < d2 + 100 → d2 < d1 + 100 → port i1 ≠ port i2)).
  { intros id1 id2 l1 l2 i1 i2 d1 d2 H1 H2 Hne D1 D2.
    destruct (Hdraw _ _ _ H1) as (d1' & D1' & _ & P1).
    destruct (Hdraw _ _ _ H2) as (d2' & D2' & _ & P2).
    assert (d1' = d1) as -> by congruence. assert (d2' = d2) as -> by congruence.
    apply draw_of_record_Some in D1, D2.
    apply get_instance_Some in H1 as [H1 _], H2 as [H2 _].
    assert (d1 ≠ d2) as Hd.
    { intros ->. assert (l1 = l2) as -> by eauto. eauto. }
    assert (port i1 = port i2 ↔ d1 `mod` 100 = d2 `mod` 100) as Hiff.
    { rewrite P1, P2. split; [lia|by intros ->]. }
    split_and!; [done..|].
    intros Ha Hb Hp%Hiff. apply Hd. by apply same_slot. }
  split_and!.
  - exact Hdraw.
  - exact Hpair.
  - intros id l i d Hg D.
    destruct (Hdraw _ _ _ Hg) as (d' & D' & Hlt & P).
    assert (d' = d) as -> by congruence.
    rewrite getNextPort_pool by (done || by rewrite Hcur).
    rewrite Hcur, P. cbn [fst].
    assert (Some (8081 + Z.of_nat (allocations (boot fault f) ops `mod` 100))%Z
              = Some (8081 + Z.of_nat (d `mod` 100))%Z
            ↔ allocations (boot fault f) ops `mod` 100 = d `mod` 100) as Hiff.
    { split; [intros [= ?]; lia|by intros ->]. }
    split; [exact Hiff|].
    intros Hn He%Hiff. apply same_slot in He; lia.
  - intros Hn id1 id2 l1 l2 i1 i2 H1 H2 Hne.
    destruct (Hdraw _ _ _ H1) as (d1 & D1 & L1 & _).
    destruct (Hdraw _ _ _ H2) as (d2 & D2 & L2 & _).
    destruct (Hpair _ _ _ _ _ _ _ _ H1 H2 Hne D1 D2) as (_ & _ & H). apply H; lia.
Qed.

(** C1, as stated, fails once the cursor has wrapped: app "a" is started,
    99 further starts fail in [npm install] (each one draws a port), and
    the start of app "c" is handed port 8081, which the live record of "a"
    still carries. *)
Lemma port_collision_after_wraparound :
  let S := run (boot no_fault ∅) wraparound_ops in
  ∃ la lc a c,
    get_instance (service S) "a" = Some (la, a) ∧
    get_instance (service S) "c" = Some (lc, c) ∧
    la ≠ lc ∧ isReady a = true ∧ isReady c = true ∧
    port a = 8081%Z ∧ port c = 8081%Z.
Proof.
  eexists _, _, _, _. vm_compute. split_and!; try reflexivity. done.
Qed.

End RoundRobin.

(** ** Removal from the registry *)

Section Removal.
Implicit Types (s : MetroService) (S : System) (id : string).





Lemma stop_events_pid kt i e :
  e ∈ stop_events kt i →
  e = EvKill (process i) SIGTERM ∨ e = EvForceKillTimer (process i) ∨
  e = EvNgrokDisconnect (tunnelUrl i).
Proof.
  unfold stop_events. destruct (kt (process i)), (truthy_str (tunnelUrl i)); set_solver.
Qed.

Lemma stop_events_timer kt i :
  kt (process i) = false →
  EvForceKillTimer (process i) ∈ stop_events kt i ∧
  (truthy_str (tunnelUrl i) = true → EvNgrokDisconnect (tunnelUrl i) ∈ stop_events kt i).
Proof.
  unfold stop_events. intros ->. split; [set_solver|]. intros ->. set_solver.
Qed.


(** A run of [stopMetro] over [ids] sends every registered record among
    them its whole stop sequence. *)
Lemma stop_each_sends kt ids s id l i :
  id ∈ ids → get_instance s id = Some (l, i) →
  ∃ added, trace (stop_each kt ids s) = trace s ++ added ∧
           ∀ e, e ∈ stop_events kt i → e ∈ added.
Proof.
  revert s. induction ids as [|id0 ids IH]; intros s Hin Hget.
  { by apply elem_of_nil in Hin. }
  rewrite stop_each_cons.
  destruct (decide (id0 = id)) as [->|Hne].
  - destruct (stop_each_trace kt ids (stopMetro kt id s).2) as (added & Htr & _).
    rewrite Htr, (stopMetro_present _ _ _ _ _ Hget). cbn [snd trace].
    exists (stop_events kt i ++ added). split; [by rewrite <- app_assoc|set_solver].
  - destruct (IH (stopMetro kt id0 s).2) as (added & Htr & Hall).
    { set_solver. }
    { rewrite stopMetro_get. case_decide as Hd; [by destruct Hd|done]. }
    destruct (get_instance s id0) as [[l0 i0]|] eqn:E0.
    + rewrite Htr, (stopMetro_present _ _ _ _ _ E0). cbn [snd trace].
      exists (stop_events kt i0 ++ added). split; [by rewrite <- app_assoc|set_solver].
    + rewrite Htr, (stopMetro_absent _ _ _ E0). cbn [snd]. eauto.
Qed.







End Removal.

(** ** The sweep and readiness *)

Section Readiness.
Implicit Types (s : MetroService) (id : string) (kt : pid → bool).

(** C8, as the code has it. The sweep does not read [isReady]. A record
    that is not ready and whose [lastAccess] lies more than 15 minutes back
    is treated like any other idle record: its entry is removed and its
    process is sent SIGTERM (and, unless [kill] raised, the forced kill is
    armed). A record that is not ready and was accessed within the last 15
    minutes stays registered, and, in every state the service reaches, the
    sweep sends its process nothing. The record itself is left as it was in
    both cases. *)
Theorem sweep_ignores_readiness now kt :
  (∀ s id l i,
     let s' := cleanupInactiveInstances now kt s in
     get_instance s id = Some (l, i) →
     isReady i = false →
     heap s' !! l = Some i ∧
     if decide (now - lastAccess i > 900000)%Z
     then instances s' !! id = None ∧
          ∃ added, trace s' = trace s ++ added ∧
                   EvKill (process i) SIGTERM ∈ added ∧
                   (kt (process i) = false → EvForceKillTimer (process i) ∈ added)
     else instances s' !! id = Some l) ∧
  (∀ fault f ops id l i,
     let s := service (run (boot fault f) ops) in
     let s' := cleanupInactiveInstances now kt s in
     get_instance s id = Some (l, i) →
     isReady i = false →
     ¬ (now - lastAccess i > 900000)%Z →
     ∃ added, trace s' = trace s ++ added ∧
              (∀ sig, EvKill (process i) sig ∉ added) ∧
              EvForceKillTimer (process i) ∉ added).
Proof.
  split.
  - intros s id l i. cbn zeta. intros Hget _.
    pose proof Hget as [Hin Hl]%get_instance_Some.
    split.
    { unfold cleanupInactiveInstances.
      destruct (stop_each_frame kt (inactiveInstances now s) s) as (_ & _ & -> & _). done. }
    rewrite sweep_lookup, Hget.
    unfold idle, METRO_TIMEOUT. case_bool_decide as Hold; case_decide; try lia.
    + split; [done|]. unfold cleanupInactiveInstances.
      destruct (stop_each_sends kt (inactiveInstances now s) s id l i) as (added & Htr & Hall).
      { apply elem_of_inactiveInstances. exists l, i. split; [done|].
        unfold idle, METRO_TIMEOUT. by apply bool_decide_eq_true. }
      { done. }
      exists added. split; [done|]. split; [apply Hall, sigterm_in_stop_events|].
      intros Hk. apply Hall. by apply stop_events_timer.
    + done.
  - intros fault f ops id l i. cbn zeta. intros Hget _ Hfresh.
    pose proof Hget as [Hin Hl]%get_instance_Some.
    destruct (booked_reachable fault f ops) as [_ _ _ Hproc _ _ _ _ _ _].
    unfold cleanupInactiveInstances.
    destruct (stop_each_trace kt (inactiveInstances now (service (run (boot fault f) ops)))
                (service (run (boot fault f) ops))) as (added & Htr & Hsub & _).
    exists added. split; [done|].
    assert (Hno : ∀ e, e ∈ added →
              e ≠ EvForceKillTimer (process i) ∧ ∀ sig, e ≠ EvKill (process i) sig).
    { intros e He.
      destruct (Hsub e He) as (id2 & l2 & i2 & Hidle & Hg2 & Hev).
      apply elem_of_inactiveInstances in Hidle as (l3 & i3 & Hg3 & Hi3).
      rewrite Hg2 in Hg3. injection Hg3 as <- <-.
      apply get_instance_Some in Hg2 as [_ Hl2].
      assert (process i2 = process i → False) as Hne.
      { intros Hp. assert (l2 = l) as ->.
        { rewrite <- (Hproc _ _ Hl2), <- (Hproc _ _ Hl). done. }
        assert (i2 = i) as -> by congruence.
        unfold idle, METRO_TIMEOUT in Hi3. apply bool_decide_eq_true in Hi3. lia. }
      apply stop_events_pid in Hev. destruct Hev as [-> | [-> | ->]]; split; try done.
      - intros sig [= ? _]. done.
      - intros [= ?]. done. }
    split.
    + intros sig Hin'. destruct (Hno _ Hin') as [_ H]. by apply (H sig).
    + intros Hin'. by destruct (Hno _ Hin') as [H _].
Qed.

End Readiness.

(** ** The workspace provisioner *)

Section Provision.
Implicit Types (f : gmap path fsnode) (p q d r ws : path).

#[local] Arguments createWorkspace : simpl never.

Lemma sys_ok fault n m f f' : sys fault n m f = (inr (), f') → m f = (inr (), f').
Proof. unfold sys. by destruct (fault n). Qed.

Lemma sys_fault fault n m f e : fault n = Some e → sys fault n m f = (inl e, f).
Proof. unfold sys. by intros ->. Qed.

Lemma fs_rm_lookup ws f q :
  (fs_rm ws f).2 !! q = if decide (ws `prefix_of` q) then None else f !! q.
Proof.
  unfold fs_rm. cbn [snd]. case_decide as Hd.
  - apply map_lookup_filter_None. right. intros x _. simpl. tauto.
  - destruct (f !! q) as [x|] eqn:E.
    + by apply map_lookup_filter_Some.
    + apply map_lookup_filter_None. by left.
Qed.

Lemma fs_bind_ok {A B} (m : FS A) (k : A → FS B) f b f' :
  fs_bind m k f = (inr b, f') → ∃ a f1, m f = (inr a, f1) ∧ k a f1 = (inr b, f').
Proof.
  unfold fs_bind. destruct (m f) as [[e|a] f1]; [done|]. eauto.
Qed.

(** [mkdir] never touches an existing entry: it only adds directories along
    its own path. *)
Lemma mkdir_from_lookup d r f q :
  (mkdir_from d r f).2 !! q = f !! q ∨
  (f !! q = None ∧ (mkdir_from d r f).2 !! q = Some Dir ∧
   ∃ t, t `prefix_of` r ∧ t ≠ [] ∧ q = d ++ t).
Proof.
  revert d f. induction r as [|seg r IH]; intros d f; [by left|].
  assert (Hext : ∀ t, t `prefix_of` r →
            seg :: t `prefix_of` seg :: r ∧ seg :: t ≠ [] ∧
            (d ++ [seg]) ++ t = d ++ seg :: t).
  { intros t Ht. split_and!; [by apply prefix_cons|done|by rewrite <- app_assoc]. }
  cbn [mkdir_from]. destruct (f !! (d ++ [seg])) as [[|c]|] eqn:E.
  - destruct (IH (d ++ [seg]) f) as [H|(H0 & H & t & Ht & _ & ->)]; [by left|].
    right. split_and!; [done..|]. exists (seg :: t). naive_solver.
  - by left.
  - destruct (IH (d ++ [seg]) (<[d ++ [seg] := Dir]> f)) as [H|(H0 & H & t & Ht & _ & ->)].
    + destruct (decide (q = d ++ [seg])) as [->|Hne].
      * rewrite lookup_insert_eq in H. right. split_and!; [done..|].
        exists [seg]. split_and!; [|done|done].
        apply prefix_cons, prefix_nil.
      * rewrite lookup_insert_ne in H by done. by left.
    + right.
      assert ((d ++ [seg]) ++ t ≠ d ++ [seg]) as Hne.
      { intros Heq. rewrite Heq, lookup_insert_eq in H0. done. }
      rewrite lookup_insert_ne in H0 by done.
      split_and!; [done..|]. exists (seg :: t). naive_solver.
Qed.

Lemma fs_writeFile_ok p slashed content f f' :
  fs_writeFile p slashed content f = (inr (), f') →
  f' = <[p := File content]> f ∧ f !! p ≠ Some Dir.
Proof.
  unfold fs_writeFile. destruct slashed; [done|].
  destruct (is_dir f p) eqn:Ed; [done|].
  destruct (is_dir f (path_dirname p)); [|done].
  intros [= <-]. split; [done|]. intros Hp.
  unfold is_dir in Ed. destruct p; [done|]. by rewrite bool_decide_eq_true_2 in Ed.
Qed.

Lemma inside_not_prefix ws q t : inside ws q → t `prefix_of` ws → q ≠ t.
Proof.
  intros [Hp Hne] Ht ->. apply Hne.
  apply (anti_symm prefix); done.
Qed.

Lemma dirname_prefix p t :
  p ≠ [] → t `prefix_of` path_dirname p → t `prefix_of` p ∧ t ≠ p.
Proof.
  intros Hp Ht. unfold path_dirname in Ht.
  destruct (exists_last Hp) as (d & x & ->). rewrite removelast_last in Ht.
  split; [by apply prefix_app_r|].
  intros ->. by apply prefix_snoc_not in Ht.
Qed.

Lemma write_files_exact fault n ws R D f f' :
  (∀ k c, (k, c) ∈ R → inside ws (path_join ws k)) →
  NoDup (resolved ws (D ++ R)) →
  provisioned_as ws D f →
  write_files fault n ws R f = (inr (), f') →
  provisioned_as ws (D ++ R) f'.
Proof.
  revert n D f. induction R as [|[k c] R IH]; intros n D f Hin Hnd Hinv Hw.
  - cbn in Hw. injection Hw as <-. by rewrite app_nil_r.
  - cbn [write_files] in Hw.
    apply fs_bind_ok in Hw as ([] & f1 & Hm%sys_ok & Hw).
    apply fs_bind_ok in Hw as ([] & f2 & Hwf%sys_ok & Hw).
    apply fs_writeFile_ok in Hwf as [-> Hnd'].
    assert (Hfull : inside ws (path_join ws k)) by (apply (Hin k c); set_solver).
    assert (Hfresh : ∀ k' c', (k', c') ∈ D → path_join ws k' ≠ path_join ws k).
    { intros k' c' Hk' Heq. unfold resolved in Hnd. rewrite fmap_app in Hnd.
      apply NoDup_app in Hnd as (_ & Hnd & _). apply (Hnd (path_join ws k')).
      - apply list_elem_of_fmap. exists (k', c'). by split.
      - rewrite Heq. apply list_elem_of_fmap. exists (k, c). split; [done|]. set_solver. }
    assert (Hf1 : ∀ q, f1 !! q = f !! q ∨
              (f !! q = None ∧ f1 !! q = Some Dir ∧
               q `prefix_of` path_join ws k ∧ q ≠ path_join ws k)).
    { intros q. pose proof (mkdir_from_lookup [] (path_dirname (path_join ws k)) f q) as Hl.
      unfold fs_mkdir in Hm. rewrite Hm in Hl. cbn [snd] in Hl.
      destruct Hl as [?|(? & ? & t & Ht & _ & ->)]; [by left|].
      assert (path_join ws k ≠ []) as Hnil.
      { intros E. rewrite E in Hfull. destruct Hfull as [Hp Hne].
        apply Hne. symmetry. by apply prefix_nil_inv. }
      destruct (dirname_prefix _ _ Hnil Ht) as [? ?]. by right. }
    rewrite cons_middle, app_assoc in Hnd. rewrite cons_middle, app_assoc.
    apply (IH (n + 2) (D ++ [(k, c)]) (<[path_join ws k := File c]> f1)); try done.
    { intros k' c' H'. apply (Hin k' c'). set_solver. }
    destruct Hinv as [Ha Hb]. split.
    + intros q c' Hq. destruct (decide (q = path_join ws k)) as [->|Hne].
      * rewrite lookup_insert_eq. split.
        -- intros [= <-]. exists k. set_solver.
        -- intros (k' & [Hk'|Hk']%elem_of_app & Heq).
           ++ by destruct (Hfresh _ _ Hk').
           ++ apply list_elem_of_singleton in Hk'. congruence.
      * rewrite lookup_insert_ne by done.
        destruct (Hf1 q) as [->|(Hn & Hd & _)].
        -- rewrite (Ha q c' Hq). split.
           ++ intros (k' & ? & ?). exists k'. set_solver.
           ++ intros (k' & [Hk'|Hk']%elem_of_app & Heq); [eauto|].
              apply list_elem_of_singleton in Hk'. congruence.
        -- rewrite Hd. split; [done|].
           intros (k' & [Hk'|Hk']%elem_of_app & Heq).
           ++ assert (f !! q = Some (File c')) as Hc by (apply Ha; eauto). congruence.
           ++ apply list_elem_of_singleton in Hk'. congruence.
    + intros q Hq. destruct (decide (q = path_join ws k)) as [->|Hne].
      * by rewrite lookup_insert_eq.
      * rewrite lookup_insert_ne by done.
        destruct (Hf1 q) as [->|(Hn & Hd & Hp & Hpn)].
        -- intros (k' & c' & ? & ?)%Hb; [|done]. exists k', c'. set_solver.
        -- intros _. exists k, c. set_solver.
Qed.

Lemma write_files_faulty fault n0 ws files f n :
  n0 ≤ n < n0 + 2 * length files → is_Some (fault n) →
  ∃ e, (write_files fault n0 ws files f).1 = inl e.
Proof.
  revert n0 f. induction files as [|[k c] R IH]; intros n0 f Hn [e He].
  - simpl in Hn. lia.
  - cbn [write_files]. unfold fs_bind.
    destruct (decide (n = n0)) as [->|Hne0].
    { rewrite (sys_fault _ _ _ _ _ He). eauto. }
    destruct (sys fault n0 _ f) as [[e0|[]] f1]; [eauto|].
    destruct (decide (n = n0 + 1)) as [->|Hne1].
    { rewrite (sys_fault _ _ _ _ _ He). eauto. }
    destruct (sys fault (n0 + 1) _ f1) as [[e1|[]] f2]; [eauto|].
    apply IH; [|eauto]. cbn [length] in Hn. lia.
Qed.

Lemma createWorkspace_faulty fault ws files f n :
  1 ≤ n < 2 + 2 * length files → is_Some (fault n) →
  ∃ e, (createWorkspace fault ws files f).1 = inl e.
Proof.
  intros Hn [e He]. unfold createWorkspace, fs_bind, fs_ignore.
  destruct (decide (n = 1)) as [->|Hne].
  { rewrite (sys_fault _ _ _ _ _ He). eauto. }
  destruct (sys fault 1 _ _) as [[e0|[]] f1]; [eauto|].
  apply (write_files_faulty _ _ _ _ _ n); [lia|eauto].
Qed.

Lemma createWorkspace_exact fault ws files f f' :
  fault 0 = None →
  (∀ k c, (k, c) ∈ files → inside ws (path_join ws k)) →
  NoDup (resolved ws files) →
  createWorkspace fault ws files f = (inr (), f') →
  provisioned_as ws files f'.
Proof.
  intros H0 Hin Hnd. unfold createWorkspace.
  intros ([] & f1 & Hrm & Hw)%fs_bind_ok.
  apply fs_bind_ok in Hw as ([] & f2 & Hmk%sys_ok & Hw).
  unfold fs_ignore, sys in Hrm. rewrite H0 in Hrm.
  assert (f1 = (fs_rm ws f).2) as -> by (by injection Hrm).
  apply (write_files_exact fault 2 ws files [] f2 f'); try done.
  pose proof (mkdir_from_lookup [] ws (fs_rm ws f).2) as Hl.
  unfold fs_mkdir in Hmk. rewrite Hmk in Hl. cbn [snd] in Hl.
  assert (Hnone : ∀ q, inside ws q → f2 !! q = None).
  { intros q Hq. destruct (Hl q) as [->|(_ & _ & t & Ht & _ & ->)].
    - rewrite fs_rm_lookup. destruct Hq as [Hp _]. by case_decide.
    - by destruct (inside_not_prefix ws t t Hq Ht). }
  split.
  - intros q c Hq. rewrite (Hnone q Hq). split; [done|].
    intros (k & Hk & _). by apply elem_of_nil in Hk.
  - intros q Hq. by rewrite (Hnone q Hq).
Qed.

End Provision.

(** ** The start pipeline *)

Section Start.
Implicit Types (s : MetroService) (id : string) (c : call).

#[local] Arguments resume : simpl never.
#[local] Arguments startMetro : simpl never.
#[local] Arguments turns : simpl never.
#[local] Arguments pipeline : simpl never.
#[local] Arguments resume_call : simpl never.
#[local] Arguments stopMetro : simpl never.
#[local] Arguments createWorkspace : simpl never.
#[local] Arguments start_begin : simpl never.
#[local] Arguments start_fresh : simpl never.
#[local] Arguments getNextPort : simpl never.
#[local] Arguments touch_existing : simpl never.
#[local] Arguments first_failure : simpl never.
#[local] Arguments waitForMetroReady : simpl never.

Lemma with_stage_id c : with_stage c (c_stage c) = c.
Proof. by destruct c. Qed.

Lemma resume_call_eq o c s :
  resume_call o (c, s) = (with_stage c (resume o c s).1, (resume o c s).2).
Proof. unfold resume_call. cbn [fst snd]. by destruct (resume o c s). Qed.

Lemma turns_S k o c s :
  turns (S k) o (c, s) = turns k o (with_stage c (resume o c s).1, (resume o c s).2).
Proof.
  unfold turns. by rewrite Nat.iter_succ_r, resume_call_eq.
Qed.

Lemma resume_returned o c s r : c_stage c = Returned r → resume o c s = (Returned r, s).
Proof. unfold resume. by intros ->. Qed.

Lemma turns_returned k o c s r : c_stage c = Returned r → turns k o (c, s) = (c, s).
Proof.
  intros Hc. induction k as [|k IH]; [done|].
  rewrite turns_S, (resume_returned _ _ _ _ Hc). cbn [fst snd].
  by rewrite <- Hc, with_stage_id.
Qed.

Lemma turns_done k o c s r :
  turns k o (with_stage c (Returned r), s) = (with_stage c (Returned r), s).
Proof. by apply (turns_returned _ _ _ _ r). Qed.

Lemma resume_crashed o c s : c_stage c = Crashed → resume o c s = (Crashed, s).
Proof. unfold resume. by intros ->. Qed.

Lemma turns_dead k o c s :
  turns k o (with_stage c Crashed, s) = (with_stage c Crashed, s).
Proof.
  induction k as [|k IH]; [done|].
  rewrite turns_S, resume_crashed by done. cbn [fst snd]. exact IH.
Qed.

Lemma startMetro_pipeline now o id name files s :
  startMetro now o id name files s =
    pipeline o {| c_appId := id; c_appName := name; c_files := files;
                  c_stage := (start_begin now id s).1 |}
             (start_begin now id s).2.
Proof.
  unfold startMetro, pipeline, begin_call.
  destruct (start_begin now id s). reflexivity.
Qed.

Lemma pipeline_returned o c s r :
  c_stage c = Returned r → pipeline o c s = (Returned r, s).
Proof.
  intros Hc. unfold pipeline. rewrite (turns_returned _ _ _ _ _ Hc).
  cbn [fst snd]. by rewrite Hc.
Qed.

Lemma startMetro_reuse now o id name files s l i :
  get_instance s id = Some (l, i) → reusable s id = true →
  startMetro now o id name files s =
    (Returned {| success := true; r_tunnelUrl := tunnelUrl i;
                 r_bundleUrl := bundleUrl i; r_port := Some (port i);
                 error := None |},
     set_heap (alter (touch now) l (heap s)) s).
Proof.
  intros Hg Hr. rewrite startMetro_pipeline, (start_begin_reuse _ _ _ _ _ Hg Hr).
  by apply pipeline_returned.
Qed.

Lemma startMetro_fresh now o id name files s :
  reusable s id = false →
  startMetro now o id name files s =
    pipeline o {| c_appId := id; c_appName := name; c_files := files;
                  c_stage := (start_fresh id (touch_existing now id s)).1 |}
             (start_fresh id (touch_existing now id s)).2.
Proof. intros Hr. by rewrite startMetro_pipeline, start_begin_fresh. Qed.

Lemma start_fresh_port id s p s1 :
  getNextPort s = (Some p, s1) → p ≠ 0%Z →
  start_fresh id s = (Provisioning p (path_join WORKSPACE_BASE id), s1).
Proof.
  unfold start_fresh. intros -> Hp.
  unfold truthy_num. by rewrite bool_decide_eq_true_2.
Qed.

(** The turns of [resume], one stage at a time. *)
Lemma resume_provisioning o c s p ws :
  c_stage c = Provisioning p ws →
  resume o c s =
    match createWorkspace (io_fault o) ws (c_files c) (fs s) with
    | (inl e, f) => (Returned (failure e), set_fs f s)
    | (inr _, f) => (Launching p ws, emit (EvNpmInstall ws) (set_fs f s))
    end.
Proof. unfold resume. by intros ->. Qed.

Lemma resume_launching o c s p ws :
  c_stage c = Launching p ws →
  resume o c s =
    match npm_error o, spawned o with
    | Some e, _ => (Returned (failure e), s)
    | None, SpawnThrew e => (Returned (failure e), s)
    | None, SpawnErrorEvent => (Crashed, registered o c p ws s)
    | None, SpawnOk => (Probing (length (heap s)) p, registered o c p ws s)
    end.
Proof. unfold resume. intros ->. by destruct (npm_error o), (spawned o). Qed.

Lemma resume_probing o c s l p :
  c_stage c = Probing l p →
  resume o c s =
    if waitForMetroReady (probe o) 30
    then (Tunneling l p, emit (EvNgrokConnect p) s)
    else (Returned (failure "Metro failed to start within timeout"),
          (stopMetro (kill_throws o) (c_appId c) s).2).
Proof. unfold resume. by intros ->. Qed.

Lemma resume_tunneling o c s l p :
  c_stage c = Tunneling l p →
  resume o c s =
    if truthy_str (ngrok_url o)
    then (Returned {| success := true; r_tunnelUrl := ngrok_url o;
                      r_bundleUrl := Some (bundle_of (default "" (ngrok_url o)));
                      r_port := Some p; error := None |},
          set_heap (alter (mark_ready (default "" (ngrok_url o))) l (heap s)) s)
    else (Returned (failure "Failed to create ngrok tunnel"),
          (stopMetro (kill_throws o) (c_appId c) s).2).
Proof.
  unfold resume. intros ->. destruct (ngrok_url o) as [url|]; [|done].
  by destruct (truthy_str (Some url)).
Qed.

Lemma pipeline_provisioning o c s p ws :
  c_stage c = Provisioning p ws →
  let f := (createWorkspace (io_fault o) ws (c_files c) (fs s)).2 in
  let s2 := emit (EvNpmInstall ws) (set_fs f s) in
  let s3 := registered o c p ws s2 in
  pipeline o c s =
    match first_failure o ws (c_files c) (fs s) with
    | Some (FailProvision e) => (Returned (failure e), set_fs f s)
    | Some (FailInstall e) | Some (FailLaunch e) => (Returned (failure e), s2)
    | Some FailSpawnEvent => (Crashed, s3)
    | Some FailProbe =>
        (Returned (failure "Metro failed to start within timeout"),
         (stopMetro (kill_throws o) (c_appId c) s3).2)
    | Some FailTunnel =>
        (Returned (failure "Failed to create ngrok tunnel"),
         (stopMetro (kill_throws o) (c_appId c) (emit (EvNgrokConnect p) s3)).2)
    | None =>
        (Returned {| success := true; r_tunnelUrl := ngrok_url o;
                     r_bundleUrl := Some (bundle_of (default "" (ngrok_url o)));
                     r_port := Some p; error := None |},
         set_heap (alter (mark_ready (default "" (ngrok_url o))) (length (heap s))
                     (heap s3))
           (emit (EvNgrokConnect p) s3))
    end.
Proof.
  intros Hc. cbn zeta. unfold pipeline, first_failure.
  rewrite turns_S, (resume_provisioning _ _ _ _ _ Hc).
  destruct (createWorkspace (io_fault o) ws (c_files c) (fs s)) as [[e|[]] f];
    cbn [fst snd]; [by rewrite turns_done|].
  rewrite turns_S, (resume_launching _ _ _ p ws) by done.
  cbn [c_files c_appId c_appName with_stage].
  destruct (npm_error o) as [e|]; cbn [fst snd]; [by rewrite turns_done|].
  destruct (spawned o) as [|e|]; cbn [fst snd];
    [|by rewrite turns_done|by rewrite turns_dead].
  rewrite turns_S, (resume_probing _ _ _ (length (heap s)) p) by done.
  cbn [c_files c_appId c_appName with_stage].
  destruct (waitForMetroReady (probe o) 30); cbn [fst snd]; [|by rewrite turns_done].
  rewrite turns_S, (resume_tunneling _ _ _ (length (heap s)) p) by done.
  cbn [c_files c_appId c_appName with_stage].
  destruct (truthy_str (ngrok_url o)); cbn [fst snd]; by rewrite turns_done.
Qed.

Lemma reachable_draw fault f ops now id :
  let s := service (run (boot fault f) ops) in
  start_fresh id (touch_existing now id s) =
    (Provisioning (8081 + currentPortIndex s)%Z (path_join WORKSPACE_BASE id),
     set_cursor ((currentPortIndex s + 1) `mod` 100)%Z (touch_existing now id s)).
Proof.
  cbn zeta. destruct (inv_reachable fault f ops) as [Hpool Hcur _ _ _ _ _].
  pose proof (cursor_range (allocations (boot fault f) ops)) as Hr.
  destruct (touch_existing_quiet now id (service (run (boot fault f) ops)))
    as (_ & Ep & Ec & _).
  rewrite <- Ec.
  apply start_fresh_port; [|rewrite Ec, Hcur; lia].
  apply getNextPort_pool; [by rewrite Ep|by rewrite Ec, Hcur].
Qed.

(** The whole of a start that draws a port, in a reachable state. *)
Lemma startMetro_outcome fault f ops now o id name files :
  let s := service (run (boot fault f) ops) in
  let p := (8081 + currentPortIndex s)%Z in
  let ws := path_join WORKSPACE_BASE id in
  let c := {| c_appId := id; c_appName := name; c_files := files;
              c_stage := Provisioning p ws |} in
  let s1 := set_cursor ((currentPortIndex s + 1) `mod` 100)%Z (touch_existing now id s) in
  let s2 := emit (EvNpmInstall ws)
              (set_fs (createWorkspace (io_fault o) ws files (fs s)).2 s1) in
  let s3 := registered o c p ws s2 in
  reusable s id = false →
  startMetro now o id name files s =
    match first_failure o ws files (fs s) with
    | Some (FailProvision e) =>
        (Returned (failure e),
         set_fs (createWorkspace (io_fault o) ws files (fs s)).2 s1)
    | Some (FailInstall e) | Some (FailLaunch e) => (Returned (failure e), s2)
    | Some FailSpawnEvent => (Crashed, s3)
    | Some FailProbe =>
        (Returned (failure "Metro failed to start within timeout"),
         (stopMetro (kill_throws o) id s3).2)
    | Some FailTunnel =>
        (Returned (failure "Failed to create ngrok tunnel"),
         (stopMetro (kill_throws o) id (emit (EvNgrokConnect p) s3)).2)
    | None =>
        (Returned {| success := true; r_tunnelUrl := ngrok_url o;
                     r_bundleUrl := Some (bundle_of (default "" (ngrok_url o)));
                     r_port := Some p; error := None |},
         set_heap (alter (mark_ready (default "" (ngrok_url o))) (length (heap s1))
                     (heap s3))
           (emit (EvNgrokConnect p) s3))
    end.
Proof.
  cbn zeta. intros Hre.
  rewrite startMetro_fresh, reachable_draw by done. cbn [fst snd].
  erewrite pipeline_provisioning; [|reflexivity].
  destruct (touch_existing_quiet now id (service (run (boot fault f) ops)))
    as (_ & _ & _ & _ & Ef & _).
  cbn [c_files c_appId fs set_cursor heap]. by rewrite Ef.
Qed.

Lemma get_instance_registered o c p ws s :
  get_instance (registered o c p ws s) (c_appId c) =
    Some (length (heap s), new_instance o c p ws (next_pid s)).
Proof.
  apply get_instance_Some. unfold registered. fields.
  split; [apply lookup_insert_eq|]. by apply list_lookup_middle.
Qed.

Lemma stop_registered kt o c p ws s :
  let s' := (stopMetro kt (c_appId c) (registered o c p ws s)).2 in
  instances s' = delete (c_appId c) (instances s) ∧
  trace s' = trace s ++ EvSpawn (next_pid s) ws p
                       :: stop_events kt (new_instance o c p ws (next_pid s)) ∧
  heap s' = heap s ++ [new_instance o c p ws (next_pid s)] ∧
  fs s' = fs s.
Proof.
  cbn zeta. rewrite (stopMetro_present _ _ _ _ _ (get_instance_registered o c p ws s)).
  unfold registered. fields.
  split_and!; [apply delete_insert_eq|by rewrite <- app_assoc|done|done].
Qed.

Lemma stop_connected kt o c p ws s :
  let s' := (stopMetro kt (c_appId c) (emit (EvNgrokConnect p) (registered o c p ws s))).2 in
  instances s' = delete (c_appId c) (instances s) ∧
  trace s' = trace s ++ EvSpawn (next_pid s) ws p :: EvNgrokConnect p
                       :: stop_events kt (new_instance o c p ws (next_pid s)) ∧
  heap s' = heap s ++ [new_instance o c p ws (next_pid s)] ∧
  fs s' = fs s.
Proof.
  cbn zeta.
  assert (get_instance (emit (EvNgrokConnect p) (registered o c p ws s)) (c_appId c)
          = Some (length (heap s), new_instance o c p ws (next_pid s))) as Hg
    by apply get_instance_registered.
  rewrite (stopMetro_present _ _ _ _ _ Hg).
  unfold registered. fields.
  split_and!; [apply delete_insert_eq|by rewrite <- !app_assoc|done|done].
Qed.

Lemma first_failure_None o ws files f :
  first_failure o ws files f = None →
  ∃ url, ngrok_url o = Some url ∧ truthy_str (Some url) = true.
Proof.
  unfold first_failure.
  destruct (createWorkspace _ _ _ _).1; [done|].
  destruct (npm_error o); [done|]. destruct (spawned o); [|done|done].
  destruct (waitForMetroReady _ _); [|done].
  destruct (ngrok_url o) as [url|]; [|done].
  destruct (truthy_str (Some url)) eqn:Et; [|done]. eauto.
Qed.

(** After a start that reported success, the record registered under the
    appId is ready and stores what the call returned. *)
Lemma startMetro_success_record fault f ops now o id name files r :
  let s := service (run (boot fault f) ops) in
  (startMetro now o id name files s).1 = Returned r →
  success r = true →
  ∃ l i, get_instance (startMetro now o id name files s).2 id = Some (l, i) ∧
         isReady i = true ∧ truthy_str (tunnelUrl i) = true ∧
         r_tunnelUrl r = tunnelUrl i ∧ r_bundleUrl r = bundleUrl i ∧
         r_port r = Some (port i) ∧ error r = None.
Proof.
  cbn zeta. set (s := service (run (boot fault f) ops)).
  destruct (reusable s id) eqn:Er.
  - pose proof Er as Er'. unfold reusable in Er.
    destruct (get_instance s id) as [[l i]|] eqn:Eg; [|done].
    rewrite (startMetro_reuse _ _ _ _ _ _ _ _ Eg Er'). cbn [fst snd]. intros [= <-] _.
    apply andb_true_iff in Er as [Hr Ht].
    apply get_instance_Some in Eg as [E1 E2].
    exists l, (touch now i). split_and!; try done.
    apply get_instance_Some. fields. split; [done|].
    by rewrite list_lookup_alter_eq, E2.
  - unfold s. rewrite startMetro_outcome by done. fold s.
    destruct (first_failure _ _ _ _) as [[e|e|e| | |]|] eqn:Ef; cbn [fst snd];
      try (intros [= <-]; done); try done.
    intros [= <-] _.
    apply first_failure_None in Ef as (url & Eu & Et). rewrite Eu. cbn [default].
    eexists _, _. split.
    + apply get_instance_Some. unfold registered. fields.
      split; [apply lookup_insert_eq|].
      rewrite list_lookup_alter_eq, list_lookup_middle; done.
    + done.
Qed.

(** The cleanup after a failed probe or tunnel: [stopMetro(appId)] acts on
    the record that is registered under the appId when the turn runs. *)
Lemma cleanup_reaches_the_registered fault f ops k c l kt :
  let t := service (run (boot fault f) ops) in
  let t' := (stopMetro kt (c_appId c) t).2 in
  calls (run (boot fault f) ops) !! k = Some c →
  stage_record (c_stage c) = Some l →
  instances t' = delete (c_appId c) (instances t) ∧
  heap t' = heap t ∧
  ∃ own, heap t !! l = Some own ∧ appId own = c_appId c ∧
    match get_instance t (c_appId c) with
    | None => trace t' = trace t
    | Some (l', i') =>
        trace t' = trace t ++ stop_events kt i' ∧
        (l' = l → i' = own) ∧
        (l' ≠ l →
           process i' ≠ process own ∧
           ∀ e, e ∈ stop_events kt i' →
             (∀ sig, e ≠ EvKill (process own) sig) ∧
             e ≠ EvForceKillTimer (process own))
    end.
Proof.
  cbn zeta. intros Hk Hst.
  destruct (booked_reachable fault f ops) as [_ _ _ Hproc Hown _ _ _ _ _].
  destruct (inv_reachable fault f ops) as [_ _ _ Hbound _ _ _].
  destruct (Hown _ _ _ Hk Hst) as (own & Hl & Ha).
  destruct (stopMetro_frame kt (c_appId c) (service (run (boot fault f) ops)))
    as (_ & _ & Hh & _).
  destruct (get_instance (service (run (boot fault f) ops)) (c_appId c))
    as [[l' i']|] eqn:Eg.
  - rewrite (stopMetro_present _ _ _ _ _ Eg). cbn [snd instances heap trace].
    split; [done|]. split; [done|]. exists own. split; [done|]. split; [done|].
    apply get_instance_Some in Eg as [_ Hl']. split; [done|]. split.
    + intros ->. congruence.
    + intros Hne.
      assert (process i' ≠ process own) as Hp.
      { rewrite (Hproc _ _ Hl'), (Hproc _ _ Hl). done. }
      split; [done|]. intros e He. apply stop_events_pid in He.
      destruct He as [-> | [-> | ->]]; split; try done.
      * intros sig [= ? _]. done.
      * intros [= ?]. done.
  - rewrite (stopMetro_absent _ _ _ Eg). cbn [snd].
    split; [|split; [done|by exists own]].
    symmetry. apply delete_id.
    destruct (instances (service (run (boot fault f) ops)) !! c_appId c) as [l0|] eqn:Ei;
      [|done].
    pose proof (Hbound _ _ Ei) as [i0 Hi0]%lookup_lt_is_Some.
    assert (get_instance (service (run (boot fault f) ops)) (c_appId c) = Some (l0, i0))
      by (by apply get_instance_Some).
    congruence.
Qed.

(** C5. In every state the service reaches, a start request for an appId
    whose record is ready returns success with the record's [tunnelUrl],
    [bundleUrl] and [port]; it sets the record's [lastAccess] to the time of
    the request and changes nothing else: the record's other fields, the
    other records, the registry, the cursor, the file tree, the process
    counter and the trace of outside calls are as before (no port drawn,
    nothing provisioned, nothing launched). The values returned are those
    the call that made the record ready returned: after a start that
    reported success, a second start of the same appId returns the same
    result. *)
Theorem start_on_ready_instance_reuses fault f ops now o id name files :
  let s := service (run (boot fault f) ops) in
  let s' := (startMetro now o id name files s).2 in
  (∀ l i, get_instance s id = Some (l, i) → isReady i = true →
     (startMetro now o id name files s).1 =
       Returned {| success := true; r_tunnelUrl := tunnelUrl i;
                   r_bundleUrl := bundleUrl i; r_port := Some (port i);
                   error := None |} ∧
     heap s' !! l =
       Some {| appId := appId i; appName := appName i; process := process i;
               workspaceDir := workspaceDir i; port := port i;
               tunnelUrl := tunnelUrl i; bundleUrl := bundleUrl i;
               startTime := startTime i; lastAccess := now; isReady := true |} ∧
     (∀ l', l' ≠ l → heap s' !! l' = heap s !! l') ∧
     instances s' = instances s ∧ portPool s' = portPool s ∧
     currentPortIndex s' = currentPortIndex s ∧ fs s' = fs s ∧
     next_pid s' = next_pid s ∧ trace s' = trace s) ∧
  (∀ r now2 o2 name2 files2,
     (startMetro now o id name files s).1 = Returned r → success r = true →
     (startMetro now2 o2 id name2 files2 s').1 = Returned r).
Proof.
  cbn zeta. set (s := service (run (boot fault f) ops)). split.
  - intros l i Hg Hr.
    destruct (inv_reachable fault f ops) as [_ _ Hready _ _ _ _].
    pose proof Hg as [E1 E2]%get_instance_Some.
    assert (reusable s id = true) as Hre.
    { unfold reusable. rewrite Hg, Hr. cbn [andb]. by eapply Hready. }
    rewrite (startMetro_reuse _ _ _ _ _ _ _ _ Hg Hre). fields.
    split_and!; try done.
    + rewrite list_lookup_alter_eq, E2. cbn [fmap option_fmap option_map].
      unfold touch. by rewrite Hr.
    + intros l' Hne. by apply list_lookup_alter_ne.
  - intros r now2 o2 name2 files2 Hst Hs.
    destruct (startMetro_success_record fault f ops now o id name files r Hst Hs)
      as (l & i & Hg & Hr & Ht & E1 & E2 & E3 & He).
    fold s in Hg. clear Hst.
    rewrite (startMetro_reuse _ _ _ _ _ _ l i Hg).
    + cbn [fst]. f_equal. destruct r as [r1 r2 r3 r4 r5].
      cbn [success r_tunnelUrl r_bundleUrl r_port error] in *. congruence.
    + unfold reusable. by rewrite Hg, Hr, Ht.
Qed.

(** C4, as the code has it. In every state the service reaches, a start
    request that draws a port and then fails at a stage (provisioning,
    [npm install], spawn, readiness probe, tunnel), its turns taken back to
    back, makes no outside call of a later stage and returns
    [{success: false, error}] with that stage's message, with one exception:
    when the spawn fails through the child's ['error'] event, for which
    there is no listener, the record is registered and the process then dies
    of the uncaught exception, so that nothing is returned. A start that
    fails before its child runs leaves the registry as it found it, so that
    an entry registered by an earlier, unfinished start of the same appId
    stays. A start that fails after the launch has called [kill('SIGTERM')]
    on its process, has armed the forced kill exactly when that call did not
    raise, and has deleted the registry entry of the appId.

    When other turns run between those of the call, the failing turn of a
    launched start still returns the stage's message and leaves the appId
    without an entry, but its cleanup is [stopMetro(appId)] and reaches the
    record registered under the appId at that moment: the call's own record
    if it is still the registered one; the record of another start of the
    same appId if that has replaced it, the call's own process being sent
    nothing; no process at all if the entry is gone. A failing turn before
    the launch changes neither registry, records nor trace, and a call that
    has returned does nothing in any later turn. *)
Theorem failed_start_is_contained fault f ops now o id name files stg :
  let s := service (run (boot fault f) ops) in
  let p := (8081 + currentPortIndex s)%Z in
  let ws := path_join WORKSPACE_BASE id in
  let i := new_instance o {| c_appId := id; c_appName := name; c_files := files;
                             c_stage := Provisioning p ws |} p ws (next_pid s) in
  let s' := (startMetro now o id name files s).2 in
  reusable s id = false →
  first_failure o ws files (fs s) = Some stg →
  ((startMetro now o id name files s).1 =
     match failure_message stg with
     | Some msg => Returned (failure msg)
     | None => Crashed
     end ∧
   trace s' = trace s ++ failure_trace (kill_throws o) i stg ∧
   (launched stg = true →
      EvKill (next_pid s) SIGTERM ∈ failure_trace (kill_throws o) i stg ∧
      (EvForceKillTimer (next_pid s) ∈ failure_trace (kill_throws o) i stg ↔
         kill_throws o (next_pid s) = false) ∧
      instances s' !! id = None) ∧
   instances s' =
     match stg with
     | FailProbe | FailTunnel => delete id (instances s)
     | FailSpawnEvent => <[id := length (heap s)]> (instances s)
     | _ => instances s
     end) ∧
  (∀ ops' k c l q r,
     let t := service (run (boot fault f) ops') in
     calls (run (boot fault f) ops') !! k = Some c →
     c_stage c = Probing l q ∨ c_stage c = Tunneling l q →
     (resume o c t).1 = Returned r → success r = false →
     r = failure (match c_stage c with
                  | Probing _ _ => "Metro failed to start within timeout"
                  | _ => "Failed to create ngrok tunnel"
                  end) ∧
     instances (resume o c t).2 = delete (c_appId c) (instances t) ∧
     heap (resume o c t).2 = heap t ∧
     ∃ own, heap t !! l = Some own ∧ appId own = c_appId c ∧
       match get_instance t (c_appId c) with
       | None => trace (resume o c t).2 = trace t
       | Some (l', i') =>
           trace (resume o c t).2 = trace t ++ stop_events (kill_throws o) i' ∧
           (l' = l → i' = own) ∧
           (l' ≠ l →
              process i' ≠ process own ∧
              ∀ e, e ∈ stop_events (kill_throws o) i' →
                (∀ sig, e ≠ EvKill (process own) sig) ∧
                e ≠ EvForceKillTimer (process own))
       end) ∧
  (∀ c t q wsq r,
     c_stage c = Provisioning q wsq ∨ c_stage c = Launching q wsq →
     (resume o c t).1 = Returned r →
     (∃ e, r = failure e) ∧
     instances (resume o c t).2 = instances t ∧
     heap (resume o c t).2 = heap t ∧
     trace (resume o c t).2 = trace t) ∧
  (∀ c t r, c_stage c = Returned r → resume o c t = (Returned r, t)).
Proof.
  cbn zeta. set (s := service (run (boot fault f) ops)). intros Hre Hff.
  split; [|split; [|split]].
  - unfold s. rewrite startMetro_outcome by done. fold s. rewrite Hff.
    destruct (touch_existing_quiet now id s) as (Ei & _ & _ & En & _ & Et & El & _).
    assert (Hstop : ∀ kt, EvKill (next_pid s) SIGTERM ∈ stop_events kt
        (new_instance o {| c_appId := id; c_appName := name; c_files := files;
                           c_stage := Provisioning (8081 + currentPortIndex s)%Z
                                        (path_join WORKSPACE_BASE id) |}
           (8081 + currentPortIndex s)%Z (path_join WORKSPACE_BASE id) (next_pid s))
      ∧ (EvForceKillTimer (next_pid s) ∈ stop_events kt
        (new_instance o {| c_appId := id; c_appName := name; c_files := files;
                           c_stage := Provisioning (8081 + currentPortIndex s)%Z
                                        (path_join WORKSPACE_BASE id) |}
           (8081 + currentPortIndex s)%Z (path_join WORKSPACE_BASE id) (next_pid s))
         ↔ kt (next_pid s) = false)).
    { intros kt. unfold stop_events. cbn [new_instance process tunnelUrl].
      destruct (kt (next_pid s)); cbn [truthy_str]; set_solver. }
    destruct stg as [e|e|e| | |];
      cbn [launched failure_message failure_trace fst snd].
    + fields. rewrite Et, Ei, app_nil_r. done.
    + fields. rewrite Et, Ei. done.
    + fields. rewrite Et, Ei. done.
    + unfold registered. fields. rewrite Et, Ei, En, El.
      cbn [new_instance workspaceDir process port].
      split_and!; try done. by rewrite <- app_assoc.
    + match goal with |- context [stopMetro ?kt _ (registered ?o ?c ?p ?ws ?s2)] =>
        destruct (stop_registered kt o c p ws s2) as (Hi & Htr & _) end.
      fields. rewrite Hi, Htr, Et, Ei, En. cbn [new_instance workspaceDir process port].
      destruct (Hstop (kill_throws o)) as [Hk Ht].
      split_and!; try done.
      * by rewrite <- app_assoc.
      * intros _. split_and!; [set_solver| |apply lookup_delete_eq].
        rewrite <- Ht. set_solver.
    + match goal with |- context [stopMetro ?kt _ (emit _ (registered ?o ?c ?p ?ws ?s2))] =>
        destruct (stop_connected kt o c p ws s2) as (Hi & Htr & _) end.
      fields. rewrite Hi, Htr, Et, Ei, En. cbn [new_instance workspaceDir process port].
      destruct (Hstop (kill_throws o)) as [Hk Ht].
      split_and!; try done.
      * by rewrite <- app_assoc.
      * intros _. split_and!; [set_solver| |apply lookup_delete_eq].
        rewrite <- Ht. set_solver.
  - intros ops' k c l q r Hk Hc Hres Hfail.
    assert (stage_record (c_stage c) = Some l) as Hsr.
    { by destruct Hc as [-> | ->]. }
    destruct (cleanup_reaches_the_registered fault f ops' k c l (kill_throws o) Hk Hsr)
      as (Hi & Hh & Hown).
    destruct Hc as [Hc|Hc].
    + rewrite (resume_probing _ _ _ _ _ Hc) in *. rewrite Hc.
      destruct (waitForMetroReady (probe o) 30); cbn [fst snd] in *; [done|].
      by injection Hres as <-.
    + rewrite (resume_tunneling _ _ _ _ _ Hc) in *. rewrite Hc.
      destruct (truthy_str (ngrok_url o)); cbn [fst snd] in *.
      * injection Hres as <-. done.
      * by injection Hres as <-.
  - intros c t q wsq r [Hc|Hc].
    + rewrite (resume_provisioning _ _ _ _ _ Hc).
      destruct (createWorkspace _ _ _ _) as [[e|[]] f']; cbn [fst snd]; [|done].
      intros [= <-]. split; [by exists e|done].
    + rewrite (resume_launching _ _ _ _ _ Hc).
      destruct (npm_error o) as [e|]; [|destruct (spawned o) as [|e|]];
        cbn [fst snd]; try done.
      all: intros [= <-]; split; [by exists e|done].
  - intros c t r. apply resume_returned.
Qed.

(** C4, as stated, fails on the registry: while a first start of "x" waits
    for its readiness probe, a second start of "x" that dies in
    [npm install] reports failure and leaves the entry of "x" in the
    registry. *)
Lemma failed_start_leaves_earlier_entry :
  let s := service (run (boot no_fault ∅) probing_ops) in
  let r := startMetro 5 npm_fails "x" "Demo" [] s in
  r.1 = Returned (failure "Command failed: npm install --legacy-peer-deps") ∧
  instances r.2 !! "x" = Some 0.
Proof. vm_compute. done. Qed.

(** C10. In every state the service reaches, a start request for an appId
    whose record is not ready (or has no tunnel URL) sets that record's
    [lastAccess] to the time of the request, leaving the record's other
    fields and everything else alone, and then starts from scratch. Its
    first turn draws the next port of the pool. Its second turn provisions
    the workspace again: when the provision succeeds on keys that resolve to
    distinct places inside the workspace, the workspace holds the files just
    sent, with their contents, and no other file. When provisioning and
    [npm install] succeed and the spawn does not throw, its third turn
    spawns a second process and makes the registry entry of the appId point
    to a new record, the old record staying in memory as it was. No turn of
    the call sends any signal to the old record's process. *)
Theorem restart_over_unready_record fault f ops now o id name files l old :
  let s := service (run (boot fault f) ops) in
  let p := (8081 + currentPortIndex s)%Z in
  let ws := path_join WORKSPACE_BASE id in
  let c := {| c_appId := id; c_appName := name; c_files := files;
              c_stage := Provisioning p ws |} in
  let touched :=
    {| appId := appId old; appName := appName old; process := process old;
       workspaceDir := workspaceDir old; port := port old;
       tunnelUrl := tunnelUrl old; bundleUrl := bundleUrl old;
       startTime := startTime old; lastAccess := now; isReady := isReady old |} in
  let s1 := (begin_call now id name files s).2 in
  let s2 := (resume_call o (c, s1)).2 in
  let s3 := (resume_call o (resume_call o (c, s1))).2 in
  get_instance s id = Some (l, old) →
  isReady old && truthy_str (tunnelUrl old) = false →
  ((begin_call now id name files s).1 = c ∧
   (getNextPort s).1 = Some p ∧
   heap s1 !! l = Some touched ∧
   (∀ l', l' ≠ l → heap s1 !! l' = heap s !! l') ∧
   instances s1 = instances s ∧ fs s1 = fs s ∧ trace s1 = trace s ∧
   next_pid s1 = next_pid s ∧
   currentPortIndex s1 = ((currentPortIndex s + 1) `mod` 100)%Z) ∧
  (fs s2 = (createWorkspace (io_fault o) ws files (fs s)).2 ∧
   (io_fault o 0 = None →
    (∀ k ct, (k, ct) ∈ files → inside ws (path_join ws k)) →
    NoDup (resolved ws files) →
    (createWorkspace (io_fault o) ws files (fs s)).1 = inr () →
    (∀ k ct, (k, ct) ∈ files → fs s2 !! path_join ws k = Some (File ct)) ∧
    (∀ q ct, inside ws q → fs s2 !! q = Some (File ct) →
       ∃ k, (k, ct) ∈ files ∧ path_join ws k = q))) ∧
  ((createWorkspace (io_fault o) ws files (fs s)).1 = inr () →
   npm_error o = None → (∀ e, spawned o ≠ SpawnThrew e) →
   trace s3 = trace s ++ [EvNpmInstall ws; EvSpawn (next_pid s) ws p] ∧
   process old ≠ next_pid s ∧
   instances s3 = <[id := length (heap s)]> (instances s) ∧
   l ≠ length (heap s) ∧
   heap s3 !! length (heap s) = Some (new_instance o c p ws (next_pid s)) ∧
   heap s3 !! l = Some touched) ∧
  ∃ added,
    trace (startMetro now o id name files s).2 = trace s ++ added ∧
    ∀ sig, EvKill (process old) sig ∉ added.
Proof.
  cbn zeta. set (s := service (run (boot fault f) ops)). intros Hg Hnr.
  destruct (inv_reachable fault f ops) as [Hpool Hcur _ _ Hpids _ _].
  fold s in Hpool, Hcur, Hpids.
  pose proof (cursor_range (allocations (boot fault f) ops)) as Hr.
  pose proof Hg as [E1 E2]%get_instance_Some.
  assert (Hlt : l < length (heap s)) by (by eapply lookup_lt_Some).
  assert (Hpid : process old < next_pid s) by eauto.
  assert (Hre : reusable s id = false) by (unfold reusable; by rewrite Hg).
  assert (Ht : touch_existing now id s = set_heap (alter (touch now) l (heap s)) s).
  { unfold touch_existing. by rewrite Hg. }
  pose proof (reachable_draw fault f ops now id) as Hd. cbn zeta in Hd. fold s in Hd.
  rewrite Ht in Hd.
  assert (Hl : alter (touch now) l (heap s) !! l =
            Some {| appId := appId old; appName := appName old; process := process old;
                    workspaceDir := workspaceDir old; port := port old;
                    tunnelUrl := tunnelUrl old; bundleUrl := bundleUrl old;
                    startTime := startTime old; lastAccess := now;
                    isReady := isReady old |}).
  { by rewrite list_lookup_alter_eq, E2. }
  assert (Hbegin : begin_call now id name files s =
            ({| c_appId := id; c_appName := name; c_files := files;
                c_stage := Provisioning (8081 + currentPortIndex s)%Z
                             (path_join WORKSPACE_BASE id) |},
             set_cursor ((currentPortIndex s + 1) `mod` 100)%Z
               (set_heap (alter (touch now) l (heap s)) s))).
  { unfold begin_call. by rewrite start_begin_fresh, Ht, Hd. }
  rewrite Hbegin. cbn [fst snd].
  set (c := Build_call _ _ _ _).
  pose proof (resume_provisioning o c
    (set_cursor ((currentPortIndex s + 1) `mod` 100)%Z
       (set_heap (alter (touch now) l (heap s)) s)) _ _ eq_refl) as Hp1.
  assert (Hfs2 : fs (resume_call o (c, set_cursor ((currentPortIndex s + 1) `mod` 100)%Z
                       (set_heap (alter (touch now) l (heap s)) s))).2
                 = (createWorkspace (io_fault o) (path_join WORKSPACE_BASE id) files (fs s)).2).
  { rewrite resume_call_eq, Hp1. cbn [snd]. fields.
    by destruct (createWorkspace _ _ _ _) as [[e|[]] f']. }
  fields.
  split_and!.
  - done.
  - rewrite getNextPort_pool; [by rewrite Hcur|done|by rewrite Hcur].
  - done.
  - intros l' Hne. by apply list_lookup_alter_ne.
  - done.
  - done.
  - done.
  - done.
  - done.
  - exact Hfs2.
  - intros H0 Hin Hnd Hok. rewrite Hfs2.
    destruct (createWorkspace (io_fault o) (path_join WORKSPACE_BASE id) files (fs s))
      as [[e|[]] f'] eqn:Ecw; [done|]. cbn [snd].
    destruct (createWorkspace_exact _ _ _ _ _ H0 Hin Hnd Ecw) as [Ha _].
    split.
    + intros k ct Hk. apply Ha; [by eapply Hin|]. eauto.
    + intros q ct Hq Hf. by apply Ha.
  - intros Hcw Hnpm Hsp. rewrite resume_call_eq, Hp1.
    destruct (createWorkspace _ _ _ _) as [[e|[]] f'] eqn:Ecw; [done|]. cbn [fst snd].
    rewrite resume_call_eq, (resume_launching _ _ _ (8081 + currentPortIndex s)%Z
                               (path_join WORKSPACE_BASE id)) by done.
    rewrite Hnpm.
    destruct (spawned o) as [|e|] eqn:Es; [|by destruct (Hsp e)|];
      unfold registered; fields; rewrite length_alter.
    all: split_and!; try done;
      [by rewrite <- app_assoc|lia|lia
      |apply list_lookup_middle; by rewrite length_alter
      |by rewrite lookup_app_l by (by rewrite length_alter)].
  - unfold s. rewrite startMetro_outcome by done. fold s. rewrite Ht.
    destruct (first_failure _ _ _ _) as [[e|e|e| | |]|]; cbn [snd].
    + exists []. fields. rewrite app_nil_r. split; [done|]. set_solver.
    + eexists. fields. split; [done|]. set_solver.
    + eexists. fields. split; [done|]. set_solver.
    + eexists. unfold registered. fields. rewrite <- !app_assoc. split; [done|]. set_solver.
    + match goal with |- context [stopMetro ?kt _ (registered ?o ?c ?p ?ws ?s2)] =>
        destruct (stop_registered kt o c p ws s2) as (_ & Htr & _) end.
      fields. rewrite Htr. eexists. rewrite <- app_assoc. split; [done|].
      intros sig [?|[?|Hin%stop_events_pid]%elem_of_cons]%elem_of_cons; try done.
      cbn [new_instance process tunnelUrl] in Hin.
      destruct Hin as [[= ?]|[?|?]]; [lia|done|done].
    + match goal with |- context [stopMetro ?kt _ (emit _ (registered ?o ?c ?p ?ws ?s2))] =>
        destruct (stop_connected kt o c p ws s2) as (_ & Htr & _) end.
      fields. rewrite Htr. eexists. rewrite <- app_assoc. split; [done|].
      intros sig [?|[?|[?|Hin%stop_events_pid]%elem_of_cons]%elem_of_cons]%elem_of_cons;
        try done.
      cbn [new_instance process tunnelUrl] in Hin.
      destruct Hin as [[= ?]|[?|?]]; [lia|done|done].
    + eexists. unfold registered. fields. rewrite <- !app_assoc. split; [done|]. set_solver.
Qed.

End Start.

(** ** What a provision leaves behind *)

Section Provisioned.
Implicit Types (f : gmap path fsnode) (p q d r ws : path).

#[local] Arguments createWorkspace : simpl never.

(** C9, as the code has it. For a mapping whose keys resolve to pairwise
    distinct places inside the workspace, a provision that succeeds and whose
    initial recursive removal did not fail leaves inside the workspace
    exactly the files of the mapping, each with its content, and no
    directory but the ancestors of those files, whatever the tree held
    before. If any [mkdir] or [writeFile] of the run fails, the provision
    fails; and when the provision fails, the start returns a failure with
    the error's message and the state it had, file tree apart, before the
    provision: nothing is installed or spawned. *)
Theorem provision_leaves_exactly_the_files fault ws files f :
  (∀ f',
     fault 0 = None →
     (∀ k c, (k, c) ∈ files → inside ws (path_join ws k)) →
     NoDup (resolved ws files) →
     createWorkspace fault ws files f = (inr (), f') →
     (∀ k c, (k, c) ∈ files → f' !! path_join ws k = Some (File c)) ∧
     (∀ q c, inside ws q → f' !! q = Some (File c) →
        ∃ k, (k, c) ∈ files ∧ path_join ws k = q) ∧
     (∀ q, inside ws q → f' !! q = Some Dir →
        ∃ k c, (k, c) ∈ files ∧ q `prefix_of` path_join ws k ∧ q ≠ path_join ws k)) ∧
  (∀ n, 1 ≤ n < 2 + 2 * length files → is_Some (fault n) →
     ∃ e, (createWorkspace fault ws files f).1 = inl e) ∧
  (∀ (o : oracle) (c : call) (s : MetroService) (port : Z) (e : string),
     c_stage c = Provisioning port ws →
     (createWorkspace (io_fault o) ws (c_files c) (fs s)).1 = inl e →
     pipeline o c s =
       (Returned (failure e),
        set_fs (createWorkspace (io_fault o) ws (c_files c) (fs s)).2 s)).
Proof.
  split_and!.
  - intros f' H0 Hin Hnd Hcw.
    destruct (createWorkspace_exact fault ws files f f' H0 Hin Hnd Hcw) as [Ha Hb].
    split_and!.
    + intros k c Hk. apply Ha; [by eapply Hin|]. eauto.
    + intros q c Hq Hf. by apply Ha.
    + done.
  - intros n. apply createWorkspace_faulty.
  - intros o c s port e Hc He.
    rewrite (pipeline_provisioning _ _ _ _ _ Hc). unfold first_failure. by rewrite He.
Qed.

(** C9, as stated, fails for a key that climbs out of the workspace: the
    provision of ["../evil.js"] succeeds, leaves no file inside the
    workspace, and writes the file next to it. *)
Lemma provision_escapes_workspace :
  let r := createWorkspace no_fault demo_workspace escaping_files ∅ in
  r.1 = inr () ∧
  files_inside demo_workspace r.2 = [] ∧
  r.2 !! ["tmp"; "metro-apps"; "evil.js"] = Some (File "x").
Proof. vm_compute. done. Qed.

End Provisioned.


(** ** Worked instances *)

(** After 102 draws the records of "c" and "d", draws 100 and 101, carry
    different ports. *)
Lemma ports_collide_only_a_cycle_apart_witness :
  let S := run (boot no_fault ∅) beyond_cycle_ops in
  ∃ lc ld c d,
    get_instance (service S) "c" = Some (lc, c) ∧
    get_instance (service S) "d" = Some (ld, d) ∧
    draw_of_record (boot no_fault ∅) beyond_cycle_ops lc = Some 100 ∧
    draw_of_record (boot no_fault ∅) beyond_cycle_ops ld = Some 101 ∧
    port c ≠ port d.
Proof.
  cbn zeta. eexists _, _, _, _.
  assert (get_instance (service (run (boot no_fault ∅) beyond_cycle_ops)) "c" = Some _) as Hc
    by (vm_compute; reflexivity).
  assert (get_instance (service (run (boot no_fault ∅) beyond_cycle_ops)) "d" = Some _) as Hd
    by (vm_compute; reflexivity).
  assert (draw_of_record (boot no_fault ∅) beyond_cycle_ops 1 = Some 100) as Dc
    by (vm_compute; reflexivity).
  assert (draw_of_record (boot no_fault ∅) beyond_cycle_ops 2 = Some 101) as Dd
    by (vm_compute; reflexivity).
  assert ("c" ≠ "d") as Hne by discriminate.
  split; [exact Hc|]. split; [exact Hd|]. split; [exact Dc|]. split; [exact Dd|].
  destruct (ports_collide_only_a_cycle_apart no_fault ∅ beyond_cycle_ops) as (_ & H & _).
  destruct (H "c" "d" _ _ _ _ 100 101 Hc Hd Hne Dc Dd) as (_ & _ & Hp).
  apply Hp; lia.
Defined.

(** After the 101 draws of the wrap-around run the allocator is at index 1. *)
Lemma allocator_is_round_robin_witness :
  (getNextPort (service (run (boot no_fault ∅) wraparound_ops))).1 = Some 8082%Z.
Proof.
  destruct (allocator_is_round_robin no_fault ∅ wraparound_ops) as (_ & _ & H & _).
  rewrite H. vm_compute. reflexivity.
Defined.



(** A start whose dev server never answers: timeout message, entry removed.
    A start whose child emits ['error']: nothing is returned. *)
Lemma failed_start_is_contained_witness :
  let s := service (run (boot no_fault ∅) []) in
  reusable s "x" = false ∧
  first_failure never_ready (path_join WORKSPACE_BASE "x") demo_files (fs s) = Some FailProbe ∧
  (startMetro 5 never_ready "x" "Demo" demo_files s).1
    = Returned (failure "Metro failed to start within timeout") ∧
  instances (startMetro 5 never_ready "x" "Demo" demo_files s).2 !! "x" = None ∧
  first_failure spawn_dies (path_join WORKSPACE_BASE "x") demo_files (fs s)
    = Some FailSpawnEvent ∧
  (startMetro 5 spawn_dies "x" "Demo" demo_files s).1 = Crashed.
Proof.
  cbn zeta.
  assert (reusable (service (run (boot no_fault ∅) [])) "x" = false) as Hr
    by (vm_compute; reflexivity).
  assert (first_failure never_ready (path_join WORKSPACE_BASE "x") demo_files
            (fs (service (run (boot no_fault ∅) []))) = Some FailProbe) as Hf
    by (vm_compute; reflexivity).
  assert (first_failure spawn_dies (path_join WORKSPACE_BASE "x") demo_files
            (fs (service (run (boot no_fault ∅) []))) = Some FailSpawnEvent) as Hf'
    by (vm_compute; reflexivity).
  destruct (failed_start_is_contained no_fault ∅ [] 5 never_ready "x" "Demo" demo_files
              FailProbe Hr Hf) as ((H1 & _ & H3 & _) & _).
  destruct (failed_start_is_contained no_fault ∅ [] 5 spawn_dies "x" "Demo" demo_files
              FailSpawnEvent Hr Hf') as ((H1' & _) & _).
  split; [exact Hr|]. split; [exact Hf|]. split; [exact H1|].
  split; [apply H3; reflexivity|]. split; [exact Hf'|exact H1'].
Defined.

(** A second start of a ready app returns the stored URLs and port and sets
    lastAccess. *)
Lemma start_on_ready_instance_reuses_witness :
  let s := service (run (boot no_fault ∅) (full_start 0 "a")) in
  ∃ i, get_instance s "a" = Some (0, i) ∧ isReady i = true ∧
       (startMetro 50 never_ready "a" "Demo" [] s).1 =
         Returned {| success := true; r_tunnelUrl := Some "https://stub.example";
                     r_bundleUrl := Some "https://stub.example/index.bundle?platform=ios&dev=true&minify=false";
                     r_port := Some 8081%Z; error := None |} ∧
       lastAccess i = 1000%Z ∧
       lastAccess <$> heap (startMetro 50 never_ready "a" "Demo" [] s).2 !! 0 = Some 50%Z ∧
       trace (startMetro 50 never_ready "a" "Demo" [] s).2 = trace s.
Proof.
  cbn zeta. eexists.
  assert (get_instance (service (run (boot no_fault ∅) (full_start 0 "a"))) "a" = Some (0, _)) as Hg
    by (vm_compute; reflexivity).
  destruct (start_on_ready_instance_reuses no_fault ∅ (full_start 0 "a") 50 never_ready
              "a" "Demo" []) as [H _].
  destruct (H _ _ Hg eq_refl) as (-> & -> & _ & _ & _ & _ & _ & _ & ->).
  split; [exact Hg|]. split; [reflexivity|]. split; [reflexivity|].
  split; [reflexivity|]. split; reflexivity.
Defined.

(** Of two apps, the sweep reaps the one not asked for in 15 minutes. *)
Lemma sweep_stops_exactly_the_idle_witness :
  let s := service (run (boot no_fault ∅) touched_ops) in
  instances (cleanupInactiveInstances 901001 quiet s) !! "a" = None ∧
  instances (cleanupInactiveInstances 901001 quiet s) !! "b" = Some 1.
Proof.
  cbn zeta.
  destruct (sweep_stops_exactly_the_idle 901001 quiet
              (service (run (boot no_fault ∅) touched_ops))) as (H & _).
  rewrite (H "a"), (H "b"). vm_compute. split; reflexivity.
Defined.

(** A record still waiting for its probe, last accessed at time 1000, is
    reaped and signalled one millisecond past the threshold, and kept and
    left alone at the threshold. *)
Lemma sweep_ignores_readiness_witness :
  let s := service (run (boot no_fault ∅) probing_ops) in
  ∃ i, get_instance s "x" = Some (0, i) ∧ isReady i = false ∧
       instances (cleanupInactiveInstances 901001 quiet s) !! "x" = None ∧
       (∃ added, trace (cleanupInactiveInstances 901001 quiet s) = trace s ++ added ∧
                 EvKill (process i) SIGTERM ∈ added) ∧
       instances (cleanupInactiveInstances 901000 quiet s) !! "x" = Some 0 ∧
       (∃ added, trace (cleanupInactiveInstances 901000 quiet s) = trace s ++ added ∧
                 ∀ sig, EvKill (process i) sig ∉ added).
Proof.
  cbn zeta. eexists.
  assert (get_instance (service (run (boot no_fault ∅) probing_ops)) "x" = Some (0, _)) as Hg
    by (vm_compute; reflexivity).
  split; [exact Hg|]. split; [reflexivity|].
  destruct (sweep_ignores_readiness 901001 quiet) as [H1 _].
  destruct (sweep_ignores_readiness 901000 quiet) as [H2 H3].
  destruct (H1 _ "x" 0 _ Hg eq_refl) as [_ Hold].
  case_decide as Hd1; [|exfalso; apply Hd1; vm_compute; reflexivity].
  destruct (H2 _ "x" 0 _ Hg eq_refl) as [_ Hfresh].
  case_decide as Hd2; [exfalso; vm_compute in Hd2; discriminate Hd2|].
  destruct (H3 no_fault ∅ probing_ops "x" 0 _ Hg eq_refl Hd2) as (added & Htr & Hno & _).
  destruct Hold as (Hnone & added1 & Htr1 & Hk & _).
  split; [exact Hnone|].
  split; [exists added1; split; [exact Htr1|exact Hk]|].
  split; [exact Hfresh|].
  exists added. split; [exact Htr|exact Hno].
Defined.

(** Provisioning over an older workspace: the new files are there and nothing else is. *)
Lemma provision_leaves_exactly_the_files_witness :
  let r := createWorkspace no_fault demo_workspace demo_files demo_tree in
  no_fault 0 = None ∧
  (∀ k c, (k, c) ∈ demo_files → inside demo_workspace (path_join demo_workspace k)) ∧
  NoDup (resolved demo_workspace demo_files) ∧
  r = (inr (), r.2) ∧
  r.2 !! (demo_workspace ++ ["src"; "App.js"]) = Some (File "export default 1") ∧
  ∀ q c, inside demo_workspace q → r.2 !! q = Some (File c) →
    ∃ k, (k, c) ∈ demo_files ∧ path_join demo_workspace k = q.
Proof.
  cbn zeta.
  assert (∀ k c, (k, c) ∈ demo_files → inside demo_workspace (path_join demo_workspace k)) as Hin.
  { intros k c Hk. unfold demo_files in Hk.
    repeat (apply elem_of_cons in Hk as [Hk|Hk];
            [injection Hk as -> ->; apply (bool_decide_unpack _); vm_compute; exact I|]).
    by apply elem_of_nil in Hk. }
  assert (NoDup (resolved demo_workspace demo_files)) as Hnd
    by (apply (bool_decide_unpack _); vm_compute; exact I).
  assert ((createWorkspace no_fault demo_workspace demo_files demo_tree).1 = inr ()) as Hfst
    by (vm_compute; reflexivity).
  assert (createWorkspace no_fault demo_workspace demo_files demo_tree
          = (inr (), (createWorkspace no_fault demo_workspace demo_files demo_tree).2)) as Hok.
  { destruct (createWorkspace no_fault demo_workspace demo_files demo_tree) as [[e|[]] f'];
      [discriminate Hfst|reflexivity]. }
  clear Hfst.
  destruct (provision_leaves_exactly_the_files no_fault demo_workspace demo_files demo_tree)
    as (HA & _ & _).
  destruct (HA _ eq_refl Hin Hnd Hok) as (H1 & H2 & _).
  split_and!; [reflexivity|exact Hin|exact Hnd|exact Hok| |exact H2].
  apply (H1 "src/App.js"). apply list_elem_of_further, list_elem_of_here.
Defined.

(** A second start of an app whose first start is still probing: the old
    record's lastAccess becomes 5, port 8082 is drawn, and nothing is sent to
    the old process. *)
Lemma restart_over_unready_record_witness :
  let s := service (run (boot no_fault ∅) probing_ops) in
  ∃ old, get_instance s "x" = Some (0, old) ∧
         isReady old && truthy_str (tunnelUrl old) = false ∧
         lastAccess old = 1000%Z ∧
         lastAccess <$> heap (begin_call 5 "x" "Demo" demo_files s).2 !! 0 = Some 5%Z ∧
         (getNextPort s).1 = Some 8082%Z ∧
         ∃ added,
           trace (startMetro 5 stub_oracle "x" "Demo" demo_files s).2 = trace s ++ added ∧
           ∀ sig, EvKill (process old) sig ∉ added.
Proof.
  cbn zeta. eexists.
  assert (get_instance (service (run (boot no_fault ∅) probing_ops)) "x" = Some (0, _)) as Hg
    by (vm_compute; reflexivity).
  destruct (restart_over_unready_record no_fault ∅ probing_ops 5 stub_oracle "x" "Demo"
              demo_files 0 _ Hg eq_refl) as ((_ & Hp & Hl & _) & _ & _ & Hk).
  split; [exact Hg|]. split; [reflexivity|]. split; [reflexivity|].
  split; [rewrite Hl; reflexivity|]. split; [|exact Hk].
  rewrite Hp. vm_compute. reflexivity.
Defined.

(** C8, as stated, fails: a record whose start is still waiting for its
    readiness probe, last accessed more than 15 minutes ago, is removed by
    the sweep. *)
Lemma sweep_reaps_unready_record :
  let s := service (run (boot no_fault ∅) probing_ops) in
  (∃ i, get_instance s "x" = Some (0, i) ∧ isReady i = false) ∧
  instances (cleanupInactiveInstances 901001 quiet s) !! "x" = None.
Proof.
  cbn zeta. split.
  - eexists. split; [vm_compute; reflexivity|reflexivity].
  - vm_compute. reflexivity.
Qed.

(** * Further properties of the code *)

Section Probe.

Lemma wait_from_spec probe a n :
  wait_from probe a n = true ↔ ∃ k, a ≤ k < a + n ∧ probe k = FetchOk.
Proof.
  revert a. induction n as [|n IH]; intros a; cbn [wait_from].
  - split; [done|]. intros (k & ? & _). lia.
  - destruct (probe a) eqn:E.
    + split; [|done]. intros _. exists a. split; [lia|done].
    + rewrite IH. split; intros (k & Hk & Hp).
      * exists k. split; [lia|done].
      * exists k. split; [|done]. destruct (decide (k = a)) as [->|]; [congruence|lia].
    + rewrite IH. split; intros (k & Hk & Hp).
      * exists k. split; [lia|done].
      * exists k. split; [|done]. destruct (decide (k = a)) as [->|]; [congruence|lia].
Qed.

(** X1. The readiness prober answers true exactly when one of the attempts
    1..maxAttempts gets an ok response; a response that is not ok and a
    fetch that throws both count as "not ready yet"; and what the server
    would answer after the first ok attempt is never looked at. *)
Theorem waitForMetroReady_iff_some_attempt_ok probe maxAttempts :
  (waitForMetroReady probe maxAttempts = true ↔
     ∃ k, 1 ≤ k ≤ maxAttempts ∧ probe k = FetchOk) ∧
  (∀ probe' k, 1 ≤ k ≤ maxAttempts → probe k = FetchOk →
     (∀ j, j ≤ k → probe' j = probe j) →
     waitForMetroReady probe' maxAttempts = true).
Proof.
  unfold waitForMetroReady. split.
  - rewrite wait_from_spec. split; intros (k & Hk & Hp); exists k; split; (lia || done).
  - intros probe' k Hk Hp Hsame. apply wait_from_spec. exists k. split; [lia|].
    rewrite Hsame; done.
Qed.

End Probe.

Section StopTwice.
Implicit Types (s : MetroService) (id : string) (kt : pid → bool).

(** X5. Stopping the same appId a second time returns false and changes
    nothing: no second SIGTERM, no second timer, no second disconnect. *)
Theorem stop_twice_is_stop_once kt kt' id s :
  stopMetro kt' id (stopMetro kt id s).2 = (false, (stopMetro kt id s).2).
Proof.
  apply stopMetro_absent. rewrite stopMetro_get.
  case_decide as Hd; [done|].
  destruct (get_instance s id) as [[l i]|] eqn:E; [|done].
  destruct Hd. split; [done|eauto].
Qed.

Lemma stop_each_nil_like kt ids s :
  (∀ id, id ∈ ids → get_instance s id = None) → stop_each kt ids s = s.
Proof.
  induction ids as [|id ids IH]; intros H; [done|].
  rewrite stop_each_cons, stopMetro_absent by (apply H; set_solver).
  apply IH. intros id' Hin. apply H. set_solver.
Qed.

(** X6. A second sweep at the same clock reading finds nothing to do: it
    leaves the service exactly as the first sweep left it. *)
Theorem sweep_twice_is_sweep_once now kt kt' s :
  cleanupInactiveInstances now kt' (cleanupInactiveInstances now kt s)
  = cleanupInactiveInstances now kt s.
Proof.
  unfold cleanupInactiveInstances at 1. apply stop_each_nil_like.
  intros id (l & i & Hg & Hi)%elem_of_inactiveInstances.
  exfalso. pose proof Hg as [H1 H2]%get_instance_Some.
  rewrite sweep_lookup in H1.
  destruct (stop_each_frame kt (inactiveInstances now s) s) as (_ & _ & Hh & _).
  fold (cleanupInactiveInstances now kt s) in Hh. rewrite Hh in H2.
  destruct (get_instance s id) as [[l0 i0]|] eqn:E.
  - destruct (idle now i0) eqn:Ei; [done|].
    apply get_instance_Some in E as [E1 E2]. congruence.
  - unfold get_instance in E. rewrite H1 in E. simpl in E. by rewrite H2 in E.
Qed.

End StopTwice.

Section Success.
Implicit Types (s : MetroService) (id : string).

#[local] Arguments Nat.modulo : simpl never.
#[local] Arguments Z.modulo : simpl never.
#[local] Arguments stopMetro : simpl never.
#[local] Arguments createWorkspace : simpl never.
#[local] Arguments startMetro : simpl never.
#[local] Arguments touch_existing : simpl never.
#[local] Arguments first_failure : simpl never.
#[local] Arguments getNextPort : simpl never.

(** X3. In every state the service reaches, a start that draws a port and
    meets no failure returns success with the tunnel URL ngrok gave, the
    bundle URL built from it and the drawn port [8081 + cursor]; it leaves
    the appId registered with a ready record carrying these, other entries
    as they were, the cursor one further, the workspace provisioned, and has
    made exactly three outside calls: npm install, the spawn, ngrok.connect. *)
Theorem successful_start_registers_ready_record fault f ops now o id name files :
  let s := service (run (boot fault f) ops) in
  let p := (8081 + currentPortIndex s)%Z in
  let ws := path_join WORKSPACE_BASE id in
  let c := {| c_appId := id; c_appName := name; c_files := files;
              c_stage := Provisioning p ws |} in
  let s' := (startMetro now o id name files s).2 in
  reusable s id = false →
  first_failure o ws files (fs s) = None →
  ∃ url,
    ngrok_url o = Some url ∧ url ≠ "" ∧
    (startMetro now o id name files s).1 =
      Returned {| success := true; r_tunnelUrl := Some url;
                  r_bundleUrl := Some (bundle_of url); r_port := Some p;
                  error := None |} ∧
    get_instance s' id =
      Some (length (heap s), mark_ready url (new_instance o c p ws (next_pid s))) ∧
    (∀ id', id' ≠ id → instances s' !! id' = instances s !! id') ∧
    trace s' = trace s ++ [EvNpmInstall ws; EvSpawn (next_pid s) ws p; EvNgrokConnect p] ∧
    currentPortIndex s' = ((currentPortIndex s + 1) `mod` 100)%Z ∧
    fs s' = (createWorkspace (io_fault o) ws files (fs s)).2.
Proof.
  cbn zeta. set (s := service (run (boot fault f) ops)). intros Hre Hff.
  destruct (first_failure_None _ _ _ _ Hff) as (url & Eu & Et).
  exists url. split; [done|]. split.
  { unfold truthy_str in Et. by apply bool_decide_eq_true in Et. }
  unfold s. rewrite startMetro_outcome by done. fold s. rewrite Hff, Eu.
  destruct (touch_existing_quiet now id s) as (Ei & _ & _ & En & _ & Etr & El & _).
  unfold registered. fields. cbn [default]. rewrite En, El, Ei, Etr.
  split_and!; try done.
  - apply get_instance_Some. fields. split; [apply lookup_insert_eq|].
    rewrite list_lookup_alter_eq, list_lookup_middle; done.
  - intros id' Hne. by apply lookup_insert_ne.
  - by rewrite <- !app_assoc.
Qed.

(** X4. Stopping an instance right after its successful start takes its
    entry out of the registry but gives nothing else back: the workspace on
    disk is as the start left it, and the next port the allocator hands out
    is the following one of the pool, not the one just released. *)
Theorem start_then_stop_keeps_port_and_workspace fault f ops now o kt id name files :
  let s := service (run (boot fault f) ops) in
  let p := (8081 + currentPortIndex s)%Z in
  let ws := path_join WORKSPACE_BASE id in
  let s' := (startMetro now o id name files s).2 in
  let s'' := (stopMetro kt id s').2 in
  reusable s id = false →
  first_failure o ws files (fs s) = None →
  (stopMetro kt id s').1 = true ∧
  instances s'' = delete id (instances s) ∧
  fs s'' = (createWorkspace (io_fault o) ws files (fs s)).2 ∧
  ∃ p', (getNextPort s'').1 = Some p' ∧ p' ≠ p ∧
        p' = (8081 + (currentPortIndex s + 1) `mod` 100)%Z.
Proof.
  cbn zeta. intros Hre Hff.
  destruct (successful_start_registers_ready_record fault f ops now o id name files
              Hre Hff) as (url & _ & _ & _ & Hg & Hoth & _ & Hc & Hfs).
  destruct (inv_reachable fault f ops) as [Hpool Hcur _ _ _ _ _].
  pose proof (cursor_range (allocations (boot fault f) ops)) as Hr.
  pose proof (inv_reachable fault f (ops ++ [OpStart id name files now])) as HI.
  assert (Hpool' : portPool (startMetro now o id name files
                               (service (run (boot fault f) ops))).2 = seqZ 8081 100).
  { rewrite startMetro_outcome by done. rewrite Hff.
    destruct (touch_existing_quiet now id (service (run (boot fault f) ops)))
      as (_ & Ep & _).
    unfold registered. cbn [snd portPool set_heap emit set_fs set_cursor]. by rewrite Ep. }
  clear HI.
  generalize dependent (startMetro now o id name files (service (run (boot fault f) ops))).
  intros [st s'] Hg Hoth Hc Hfs Hpool'. cbn [snd] in *.
  rewrite (stopMetro_present _ _ _ _ _ Hg). cbn [fst snd instances fs].
  split_and!.
  - done.
  - apply map_eq. intros id'. destruct (decide (id' = id)) as [->|Hne].
    + by rewrite !lookup_delete_eq.
    + rewrite !lookup_delete_ne by done. by apply Hoth.
  - done.
  - assert (0 ≤ (currentPortIndex (service (run (boot fault f) ops)) + 1) `mod` 100 < 100)%Z
      as Hm by (apply Z.mod_pos_bound; lia).
    rewrite getNextPort_pool; cbn [portPool currentPortIndex]; [|done|by rewrite Hc].
    rewrite Hc. eexists. split; [done|]. split; [|done].
    rewrite Hcur in *.
    destruct (decide (Z.of_nat (allocations (boot fault f) ops `mod` 100) = 99)%Z) as [->|Hne].
    + change ((99 + 1) `mod` 100)%Z with 0%Z. lia.
    + rewrite Z.mod_small by lia. lia.
Qed.

End Success.

Section Race.
Implicit Types (s : MetroService) (c : call).

#[local] Arguments resume : simpl never.
#[local] Arguments stopMetro : simpl never.
#[local] Arguments waitForMetroReady : simpl never.

(** X15. In every state the service reaches, the cleanup of a start whose
    readiness probe runs out stops whatever record is registered under the
    appId at that moment. If another start of the same appId has replaced
    the entry meanwhile, it is that start's process that gets the SIGTERM
    and that start's entry that is deleted; the failing call's own record
    stays in memory, its process is another one, and it is sent nothing. *)
Theorem failed_probe_stops_the_registered_record fault f ops o k c l p l' i' :
  let t := service (run (boot fault f) ops) in
  calls (run (boot fault f) ops) !! k = Some c →
  c_stage c = Probing l p →
  waitForMetroReady (probe o) 30 = false →
  get_instance t (c_appId c) = Some (l', i') →
  l' ≠ l →
  ∃ own,
    heap t !! l = Some own ∧ appId own = c_appId c ∧
    (resume o c t).1 = Returned (failure "Metro failed to start within timeout") ∧
    trace (resume o c t).2 = trace t ++ stop_events (kill_throws o) i' ∧
    instances (resume o c t).2 = delete (c_appId c) (instances t) ∧
    heap (resume o c t).2 !! l = Some own ∧
    process own ≠ process i' ∧
    ∀ sig, EvKill (process own) sig ∉ stop_events (kill_throws o) i'.
Proof.
  cbn zeta. intros Hk Hc Hw Hg Hne.
  destruct (cleanup_reaches_the_registered fault f ops k c l (kill_throws o) Hk)
    as (Hi & Hh & own & Hown & Ha & Hm).
  { by rewrite Hc. }
  rewrite Hg in Hm. destruct Hm as (Htr & _ & Hother).
  destruct (Hother Hne) as [Hp Hno].
  exists own. rewrite (resume_probing _ _ _ _ _ Hc), Hw. cbn [fst snd].
  split_and!; try done.
  - by rewrite Hh.
  - intros sig Hin. destruct (Hno _ Hin) as [H _]. by apply (H sig).
Qed.

End Race.

(** The first of two racing starts of "x" gives up: the second one's
    process is the one that is signalled. *)
Lemma failed_probe_stops_the_registered_record_witness :
  let S := run (boot no_fault ∅) racing_ops in
  ∃ c i',
    calls S !! 0 = Some c ∧ c_stage c = Probing 0 8081 ∧
    waitForMetroReady (probe never_ready) 30 = false ∧
    get_instance (service S) (c_appId c) = Some (1, i') ∧
    trace (resume never_ready c (service S)).2
      = trace (service S) ++ [EvKill 1 SIGTERM; EvForceKillTimer 1].
Proof.
  cbn zeta. eexists _, _.
  assert (calls (run (boot no_fault ∅) racing_ops) !! 0 = Some _) as Hc by (vm_compute; reflexivity).
  split; [exact Hc|].
  assert (waitForMetroReady (probe never_ready) 30 = false) as Hw by (vm_compute; reflexivity).
  assert (get_instance (service (run (boot no_fault ∅) racing_ops)) "x" = Some (1, _)) as Hg
    by (vm_compute; reflexivity).
  split; [reflexivity|]. split; [exact Hw|]. split; [exact Hg|].
  assert (1 ≠ 0) as Hne by lia.
  lazymatch type of Hc with
  | _ = Some ?c0 =>
      destruct (failed_probe_stops_the_registered_record no_fault ∅ racing_ops never_ready
                  0 c0 0 8081%Z 1 _ Hc eq_refl Hw Hg Hne) as (own & _ & _ & _ & Htr & _)
  end.
  rewrite Htr. reflexivity.
Defined.

Section Listing.
Implicit Types (s : MetroService) (id : string) (kt : pid → bool).

Lemma getStatus_Some now id s st :
  getStatus now id s = Some st ↔
  ∃ l i, get_instance s id = Some (l, i) ∧ st = status_of now i.
Proof.
  unfold getStatus. destruct (get_instance s id) as [[l i]|]; split.
  - intros [= <-]. eauto.
  - intros (l' & i' & [= <- <-] & ->). done.
  - done.
  - intros (? & ? & ? & _). done.
Qed.

Lemma length_omap_total {A B} (g : A → option B) (xs : list A) :
  (∀ x, x ∈ xs → is_Some (g x)) → length (omap g xs) = length xs.
Proof.
  induction xs as [|x xs IH]; intros H; [done|]. cbn [omap list_omap].
  destruct (H x) as [y Hy]; [set_solver|]. rewrite Hy. cbn [length]. f_equal.
  apply IH. intros x' Hx'. apply H. set_solver.
Qed.

(** X7. In every state the service reaches, listInstances yields exactly the
    statuses getStatus reports for the registered appIds, one per registry
    entry. *)
Theorem listInstances_lists_the_registry fault f ops now :
  let s := service (run (boot fault f) ops) in
  (∀ st, st ∈ listInstances now s ↔ ∃ id, getStatus now id s = Some st) ∧
  length (listInstances now s) = size (instances s).
Proof.
  cbn zeta. set (s := service (run (boot fault f) ops)).
  destruct (inv_reachable fault f ops) as [_ _ _ Hbound _ _ _]. fold s in Hbound.
  split.
  - intros st. unfold listInstances. rewrite list_elem_of_omap. split.
    + intros ([id l] & Hin%elem_of_map_to_list & Hst). cbn [snd] in Hst.
      destruct (heap s !! l) as [i|] eqn:E; [|done]. injection Hst as <-.
      exists id. apply getStatus_Some. exists l, i. split; [|done].
      by apply get_instance_Some.
    + intros (id & (l & i & [H1 H2]%get_instance_Some & ->)%getStatus_Some).
      exists (id, l). split; [apply elem_of_map_to_list; exact H1|].
      cbn [snd]. by rewrite H2.
  - unfold listInstances. rewrite length_omap_total; [apply length_map_to_list|].
    intros [id l] Hin%elem_of_map_to_list. cbn [snd].
    apply Hbound in Hin. apply lookup_lt_is_Some in Hin as [i ->]. by eexists.
Qed.

(** X8. In every state the service reaches, shutdown leaves the registry
    empty; it clears the interval first, sends SIGTERM to the process of
    every registered record, signals no process of an unregistered record,
    and ends with the global ngrok.disconnect(); records, cursor and file
    tree are as before. *)
Theorem shutdown_stops_everything fault f ops kt :
  let s := service (run (boot fault f) ops) in
  instances (shutdown kt s) = ∅ ∧
  heap (shutdown kt s) = heap s ∧
  currentPortIndex (shutdown kt s) = currentPortIndex s ∧
  fs (shutdown kt s) = fs s ∧
  ∃ added,
    trace (shutdown kt s) = trace s ++ [EvClearInterval] ++ added ++ [EvNgrokDisconnect None] ∧
    (∀ id l i, get_instance s id = Some (l, i) → EvKill (process i) SIGTERM ∈ added) ∧
    (∀ e, e ∈ added → ∃ id l i, get_instance s id = Some (l, i) ∧ e ∈ stop_events kt i).
Proof.
  cbn zeta. set (s := service (run (boot fault f) ops)).
  destruct (inv_reachable fault f ops) as [_ _ _ Hbound _ _ _]. fold s in Hbound.
  unfold shutdown.
  set (ids := (map_to_list (instances s)).*1).
  assert (Hids : ∀ id l, instances s !! id = Some l → id ∈ ids).
  { intros id l Hl. apply list_elem_of_fmap. exists (id, l).
    split; [done|by apply elem_of_map_to_list]. }
  destruct (stop_each_frame kt ids (emit EvClearInterval s)) as (_ & Hc & Hh & Hf & _).
  split_and!.
  - apply map_eq. intros id. rewrite lookup_empty. cbn [instances emit].
    change (instances (stop_each kt ids (emit EvClearInterval s)) !! id = None).
    rewrite stop_each_lookup. case_decide as Hd; [done|].
    cbn [instances emit]. destruct (instances s !! id) as [l|] eqn:E; [|done].
    destruct Hd. split; [by eapply Hids|].
    pose proof (Hbound _ _ E) as [i Hi]%lookup_lt_is_Some.
    exists (l, i). by apply get_instance_Some.
  - exact Hh.
  - exact Hc.
  - exact Hf.
  - destruct (stop_each_trace kt ids (emit EvClearInterval s)) as (added & Htr & Hsub & Hkill).
    exists added. split_and!.
    + cbn [trace emit]. rewrite Htr. cbn [trace emit]. by rewrite <- !app_assoc.
    + intros id l i Hg. apply (Hkill id l i); [|done].
      apply get_instance_Some in Hg as [Hg _]. by eapply Hids.
    + intros e He. destruct (Hsub e He) as (id & l & i & _ & Hg & Hev). eauto.
Qed.

End Listing.

Section Paths.
Implicit Types (f : gmap path fsnode) (p q d r ws base : path).

Lemma push_segment_prefix base dir seg :
  seg ≠ ".." → base `prefix_of` dir → base `prefix_of` push_segment dir seg.
Proof.
  intros Hs Hp. unfold push_segment. repeat case_decide; try done.
  by apply prefix_app_r.
Qed.

Lemma foldl_push_prefix base dir segs :
  ".." ∉ segs → base `prefix_of` dir → base `prefix_of` foldl push_segment dir segs.
Proof.
  revert dir. induction segs as [|seg segs IH]; intros dir Hn Hp; [done|].
  cbn [foldl]. apply IH; [set_solver|]. apply push_segment_prefix; [set_solver|done].
Qed.

(** X13. A joined path stays at or below its base unless the relative part
    has a [..] segment: so does the workspace of an appId and the place of a
    file key. *)
Theorem path_join_stays_below base rel :
  ¬ climbs rel → base `prefix_of` path_join base rel.
Proof. intros Hn. by apply foldl_push_prefix. Qed.

(** X14. For two different appIds that are ordinary names (no slash, not
    empty, not [.] or [..]) the workspace is WORKSPACE_BASE/appId and neither
    workspace lies inside the other. *)
Theorem plain_ids_have_disjoint_workspaces id1 id2 :
  plain id1 → plain id2 → id1 ≠ id2 →
  path_join WORKSPACE_BASE id1 = WORKSPACE_BASE ++ [id1] ∧
  ¬ path_join WORKSPACE_BASE id1 `prefix_of` path_join WORKSPACE_BASE id2.
Proof.
  intros (Hs1 & Ha1 & Hb1 & Hc1) (Hs2 & Ha2 & Hb2 & Hc2) Hne.
  assert (∀ id, split_slash id = [id] → id ≠ "" → id ≠ "." → id ≠ ".." →
            path_join WORKSPACE_BASE id = WORKSPACE_BASE ++ [id]) as Hj.
  { intros id Hs ???. unfold path_join. rewrite Hs. cbn [foldl].
    unfold push_segment. by repeat case_decide. }
  rewrite !Hj by done. split; [done|].
  intros [k Hk]. unfold WORKSPACE_BASE in Hk. cbn in Hk. congruence.
Qed.

End Paths.

Section Isolation.
Implicit Types (f : gmap path fsnode) (p q d r ws : path).

#[local] Arguments createWorkspace : simpl never.

Lemma untouched_refl ws f q : untouched_at ws f f q.
Proof. by left. Qed.

Lemma untouched_trans ws f f1 f2 q :
  untouched_at ws f f1 q → untouched_at ws f1 f2 q → untouched_at ws f f2 q.
Proof.
  unfold untouched_at. intros [H1|(H1 & H1' & ?)] [H2|(H2 & H2' & ?)].
  - left. congruence.
  - right. split_and!; congruence || done.
  - right. split_and!; congruence || done.
  - congruence.
Qed.

Lemma mkdir_untouched ws d f q :
  ws `prefix_of` d ∨ d `prefix_of` ws → ¬ ws `prefix_of` q →
  untouched_at ws f (fs_mkdir d f).2 q.
Proof.
  intros Hd Hq. unfold fs_mkdir.
  destruct (mkdir_from_lookup [] d f q) as [H|(H0 & H & t & Ht & _ & ->)]; [by left|].
  right. split_and!; [done..|]. cbn [app] in *.
  destruct Hd as [Hd|Hd]; [|by etrans].
  destruct (prefix_weak_total t ws d Ht Hd) as [?|?]; done.
Qed.

Lemma sys_untouched ws fault n (m : FS unit) f q :
  untouched_at ws f (m f).2 q → untouched_at ws f (sys fault n m f).2 q.
Proof. unfold sys. destruct (fault n); [intros _; apply untouched_refl|done]. Qed.

Lemma writeFile_untouched ws p slashed content f q :
  ws `prefix_of` p → ¬ ws `prefix_of` q →
  untouched_at ws f (fs_writeFile p slashed content f).2 q.
Proof.
  intros Hp Hq. unfold fs_writeFile.
  destruct slashed; [apply untouched_refl|].
  destruct (is_dir f p); [apply untouched_refl|].
  destruct (is_dir f (path_dirname p)); [|apply untouched_refl].
  left. cbn [snd]. apply lookup_insert_ne. by intros ->.
Qed.

Lemma dirname_comparable ws p : ws `prefix_of` p →
  ws `prefix_of` path_dirname p ∨ path_dirname p `prefix_of` ws.
Proof.
  intros [r ->]. unfold path_dirname. destruct r as [|x r].
  - right. rewrite app_nil_r. destruct (decide (ws = [])) as [->|Hne]; [done|].
    destruct (exists_last Hne) as (d & y & ->). rewrite removelast_last.
    by apply prefix_app_r.
  - left. rewrite removelast_app by done. by apply prefix_app_r.
Qed.

Lemma fs_bind_snd {A B} (m : FS A) (k : A → FS B) f :
  (fs_bind m k f).2 = match m f with
                      | (inl _, f1) => f1
                      | (inr a, f1) => (k a f1).2
                      end.
Proof. unfold fs_bind. by destruct (m f) as [[e|a] f1]. Qed.

Lemma write_files_untouched ws fault n files f q :
  (∀ k c, (k, c) ∈ files → ¬ climbs k) → ¬ ws `prefix_of` q →
  untouched_at ws f (write_files fault n ws files f).2 q.
Proof.
  intros Hk Hq. revert n f. induction files as [|[k c] files IH]; intros n f.
  - apply untouched_refl.
  - assert (ws `prefix_of` path_join ws k) as Hin.
    { apply path_join_stays_below. apply (Hk k c). set_solver. }
    cbn [write_files]. rewrite fs_bind_snd.
    pose proof (sys_untouched ws fault n (fs_mkdir (path_dirname (path_join ws k))) f q
                  (mkdir_untouched ws _ f q (dirname_comparable ws _ Hin) Hq)) as H1.
    destruct (sys fault n _ f) as [[e|[]] f1]; [done|]. cbn [snd] in H1.
    rewrite fs_bind_snd.
    pose proof (sys_untouched ws fault (n + 1)
                  (fs_writeFile (path_join ws k) (trailing_slash k) c) f1 q
                  (writeFile_untouched ws _ _ _ f1 q Hin Hq)) as H2.
    destruct (sys fault (n + 1) _ f1) as [[e|[]] f2]; cbn [snd] in H2.
    + by eapply untouched_trans.
    + eapply untouched_trans; [done|]. eapply untouched_trans; [done|].
      apply IH. intros k' c' H'. apply (Hk k' c'). set_solver.
Qed.

(** X11. Whatever its outcome, a provision whose keys have no [..] segment
    changes nothing outside the workspace: an entry there is neither
    removed nor overwritten, and the only thing that can appear is a missing
    directory on the way down to the workspace. *)
Theorem provision_touches_nothing_outside fault ws files f q :
  (∀ k c, (k, c) ∈ files → ¬ climbs k) →
  ¬ ws `prefix_of` q →
  let f' := (createWorkspace fault ws files f).2 in
  f' !! q = f !! q ∨ (f !! q = None ∧ f' !! q = Some Dir ∧ q `prefix_of` ws).
Proof.
  intros Hk Hq. cbn zeta. change (untouched_at ws f (createWorkspace fault ws files f).2 q).
  unfold createWorkspace. rewrite fs_bind_snd.
  assert (untouched_at ws f (fs_ignore (sys fault 0 (fs_rm ws)) f).2 q) as H0.
  { unfold fs_ignore. cbn [snd]. apply sys_untouched. left.
    rewrite fs_rm_lookup. by case_decide. }
  destruct (fs_ignore (sys fault 0 (fs_rm ws)) f) as [[e|[]] f0]; [done|]. cbn [snd] in H0.
  rewrite fs_bind_snd.
  pose proof (sys_untouched ws fault 1 (fs_mkdir ws) f0 q
                (mkdir_untouched ws ws f0 q (or_introl (reflexivity ws)) Hq)) as H1.
  destruct (sys fault 1 (fs_mkdir ws) f0) as [[e|[]] f1]; cbn [snd] in H1.
  - by eapply untouched_trans.
  - eapply untouched_trans; [done|]. eapply untouched_trans; [done|].
    by apply write_files_untouched.
Qed.

End Isolation.

Section Conflicts.
Implicit Types (f : gmap path fsnode) (p q d r ws : path).

#[local] Arguments createWorkspace : simpl never.

Lemma fs_writeFile_inv p slashed content f f' :
  fs_writeFile p slashed content f = (inr (), f') →
  slashed = false ∧ p ≠ [] ∧ f !! p ≠ Some Dir ∧ f' = <[p := File content]> f.
Proof.
  unfold fs_writeFile. destruct slashed; [done|].
  destruct (is_dir f p) eqn:Ed; [done|].
  destruct (is_dir f (path_dirname p)); [|done].
  intros [= <-]. unfold is_dir in Ed. destruct p as [|x p]; [done|].
  apply bool_decide_eq_false in Ed. done.
Qed.

(** After a successful [mkdir], every directory on the way is there. *)
Lemma mkdir_from_made d r f f' t :
  mkdir_from d r f = (inr (), f') → t `prefix_of` r → t ≠ [] →
  f' !! (d ++ t) = Some Dir.
Proof.
  revert d f t. induction r as [|seg r IH]; intros d f t Hm Ht Hne.
  - apply prefix_nil_inv in Ht. done.
  - destruct t as [|x t]; [done|].
    pose proof (prefix_cons_inv_1 _ _ _ _ Ht) as ->.
    apply prefix_cons_inv_2 in Ht.
    cbn [mkdir_from] in Hm.
    assert (∀ f0, f0 !! (d ++ [seg]) = Some Dir →
              mkdir_from (d ++ [seg]) r f0 = (inr (), f') →
              f' !! (d ++ seg :: t) = Some Dir) as Hstep.
    { intros f0 Hd Hm0. destruct t as [|y t].
      - pose proof (mkdir_from_lookup (d ++ [seg]) r f0 (d ++ [seg])) as Hl.
        rewrite Hm0 in Hl. cbn [snd] in Hl.
        destruct Hl as [->|(Hn & _)]; [done|congruence].
      - rewrite (cons_middle seg), app_assoc. by apply (IH _ f0). }
    destruct (f !! (d ++ [seg])) as [[|c]|] eqn:E; [by apply (Hstep f)|done|].
    apply (Hstep (<[d ++ [seg] := Dir]> f)); [apply lookup_insert_eq|done].
Qed.

Lemma mkdir_keeps d r f q x : f !! q = Some x → (mkdir_from d r f).2 !! q = Some x.
Proof.
  intros Hq. destruct (mkdir_from_lookup d r f q) as [->|(Hn & _)]; [done|congruence].
Qed.

(** What one round of the loop leaves: directories stay, files stay files. *)
Lemma write_files_keeps fault n ws files f f' :
  write_files fault n ws files f = (inr (), f') →
  (∀ q, f !! q = Some Dir → f' !! q = Some Dir) ∧
  (∀ q c, f !! q = Some (File c) → ∃ c', f' !! q = Some (File c')).
Proof.
  revert n f. induction files as [|[k c] files IH]; intros n f Hw.
  - cbn in Hw. injection Hw as <-. eauto.
  - cbn [write_files] in Hw.
    apply fs_bind_ok in Hw as ([] & f1 & Hm%sys_ok & Hw).
    apply fs_bind_ok in Hw as ([] & f2 & Hwf%sys_ok & Hw).
    apply fs_writeFile_inv in Hwf as (_ & _ & Hnd & ->).
    destruct (IH _ _ Hw) as [Hd Hf].
    assert (∀ q x, f !! q = Some x → f1 !! q = Some x) as H1.
    { intros q x Hq. pose proof (mkdir_keeps [] (path_dirname (path_join ws k)) f q x Hq) as Hk.
      unfold fs_mkdir in Hm. by rewrite Hm in Hk. }
    split.
    + intros q Hq. apply Hd. apply H1 in Hq.
      rewrite lookup_insert_ne; [done|]. intros <-. done.
    + intros q c0 Hq. apply H1 in Hq.
      destruct (decide (q = path_join ws k)) as [->|Hne].
      * apply (Hf _ c). apply lookup_insert_eq.
      * apply (Hf _ c0). by rewrite lookup_insert_ne.
Qed.

Lemma write_files_written fault n ws files f f' k c :
  write_files fault n ws files f = (inr (), f') → (k, c) ∈ files →
  trailing_slash k = false ∧ path_join ws k ≠ [] ∧
  (∃ c', f' !! path_join ws k = Some (File c')) ∧
  (∀ t, t `prefix_of` path_dirname (path_join ws k) → t ≠ [] → f' !! t = Some Dir).
Proof.
  revert n f. induction files as [|[k0 c0] files IH]; intros n f Hw Hin.
  - by apply elem_of_nil in Hin.
  - cbn [write_files] in Hw.
    apply fs_bind_ok in Hw as ([] & f1 & Hm%sys_ok & Hw).
    apply fs_bind_ok in Hw as ([] & f2 & Hwf%sys_ok & Hw).
    apply elem_of_cons in Hin as [[= -> ->]|Hin]; [|by eapply IH].
    apply fs_writeFile_inv in Hwf as (Hs & Hnil & Hnd & ->).
    destruct (write_files_keeps _ _ _ _ _ _ Hw) as [Hd Hf].
    split_and!; [done|done|..].
    + apply (Hf _ c0). apply lookup_insert_eq.
    + intros t Ht Hne. apply Hd.
      destruct (dirname_prefix _ _ Hnil Ht) as [_ Hneq].
      rewrite lookup_insert_ne by (intros E; by apply Hneq).
      unfold fs_mkdir in Hm. exact (mkdir_from_made [] _ f f1 t Hm Ht Hne).
Qed.

(** X12. A provision succeeds only if every key names a file: no key ends in
    a slash, none resolves to the workspace directory itself, and none
    resolves to a place above another key's place (a name cannot be a file
    and a directory at once). *)
Theorem provision_succeeds_only_on_file_names fault ws files f f' :
  createWorkspace fault ws files f = (inr (), f') →
  ∀ k c, (k, c) ∈ files →
    trailing_slash k = false ∧
    path_join ws k ≠ ws ∧
    ∀ k2 c2, (k2, c2) ∈ files →
      path_join ws k `prefix_of` path_join ws k2 → path_join ws k = path_join ws k2.
Proof.
  unfold createWorkspace.
  intros ([] & f0 & _ & Hw)%fs_bind_ok.
  apply fs_bind_ok in Hw as ([] & f1 & Hmk%sys_ok & Hw).
  intros k c Hin.
  destruct (write_files_written _ _ _ _ _ _ k c Hw Hin) as (Hs & Hnil & [c' Hfile] & _).
  split_and!; [done|..].
  - intros Heq. rewrite Heq in Hfile, Hnil.
    destruct (write_files_keeps _ _ _ _ _ _ Hw) as [Hd _].
    assert (f1 !! ws = Some Dir) as Hdir.
    { unfold fs_mkdir in Hmk. exact (mkdir_from_made [] ws f0 f1 ws Hmk (reflexivity ws) Hnil). }
    apply Hd in Hdir. congruence.
  - intros k2 c2 Hin2 Hpre.
    destruct (decide (path_join ws k = path_join ws k2)) as [|Hne]; [done|exfalso].
    destruct (write_files_written _ _ _ _ _ _ k2 c2 Hw Hin2) as (_ & Hnil2 & _ & Hdirs).
    assert (path_join ws k `prefix_of` path_dirname (path_join ws k2)) as Hp.
    { destruct Hpre as [r Hr]. rewrite Hr. unfold path_dirname.
      destruct r as [|x r]; [by rewrite app_nil_r in Hr|].
      rewrite removelast_app by done. by apply prefix_app_r. }
    specialize (Hdirs _ Hp Hnil). congruence.
Qed.

End Conflicts.

(** ** Worked instances of the further properties *)

(** Attempt 3 is the first to get an ok response. *)
Lemma waitForMetroReady_iff_some_attempt_ok_witness :
  (1 ≤ 3 ≤ 30) ∧
  (λ n, if decide (n = 3) then FetchOk else FetchNotOk) 3 = FetchOk ∧
  waitForMetroReady (λ n, if decide (n = 3) then FetchOk else FetchNotOk) 30 = true.
Proof.
  assert (1 ≤ 3 ≤ 30) as Hk by lia.
  split; [exact Hk|]. split; [reflexivity|].
  destruct (waitForMetroReady_iff_some_attempt_ok
              (λ n, if decide (n = 3) then FetchOk else FetchNotOk) 30) as [[_ H] _].
  apply H. exists 3. split; [exact Hk|reflexivity].
Defined.

(** The end-to-end scenario of a fresh service with a stub dev server and a
    stub tunnel provider. *)
Lemma successful_start_registers_ready_record_witness :
  let s := service (run (boot no_fault ∅) []) in
  reusable s "app-1" = false ∧
  first_failure stub_oracle (path_join WORKSPACE_BASE "app-1")
    [("index.js", "console.log(1)")] (fs s) = None ∧
  (startMetro 0 stub_oracle "app-1" "Demo" [("index.js", "console.log(1)")] s).1 =
    Returned {| success := true; r_tunnelUrl := Some "https://stub.example";
                r_bundleUrl := Some "https://stub.example/index.bundle?platform=ios&dev=true&minify=false";
                r_port := Some 8081%Z; error := None |}.
Proof.
  cbn zeta.
  assert (reusable (service (run (boot no_fault ∅) [])) "app-1" = false) as Hr
    by (vm_compute; reflexivity).
  assert (first_failure stub_oracle (path_join WORKSPACE_BASE "app-1")
            [("index.js", "console.log(1)")] (fs (service (run (boot no_fault ∅) []))) = None)
    as Hf by (vm_compute; reflexivity).
  split; [exact Hr|]. split; [exact Hf|].
  destruct (successful_start_registers_ready_record no_fault ∅ [] 0 stub_oracle "app-1" "Demo"
              [("index.js", "console.log(1)")] Hr Hf) as (url & Hu & _ & -> & _).
  injection Hu as <-. reflexivity.
Defined.

(** Start and stop on a fresh service: the next port is 8082. *)
Lemma start_then_stop_keeps_port_and_workspace_witness :
  let s := service (run (boot no_fault ∅) []) in
  reusable s "app-1" = false ∧
  first_failure stub_oracle (path_join WORKSPACE_BASE "app-1") demo_files (fs s) = None ∧
  instances (stopMetro quiet "app-1"
               (startMetro 0 stub_oracle "app-1" "Demo" demo_files s).2).2 = delete "app-1" (instances s) ∧
  (getNextPort (stopMetro quiet "app-1"
                  (startMetro 0 stub_oracle "app-1" "Demo" demo_files s).2).2).1 = Some 8082%Z.
Proof.
  cbn zeta.
  assert (reusable (service (run (boot no_fault ∅) [])) "app-1" = false) as Hr
    by (vm_compute; reflexivity).
  assert (first_failure stub_oracle (path_join WORKSPACE_BASE "app-1") demo_files
            (fs (service (run (boot no_fault ∅) []))) = None)
    as Hf by (vm_compute; reflexivity).
  split; [exact Hr|]. split; [exact Hf|].
  destruct (start_then_stop_keeps_port_and_workspace no_fault ∅ [] 0 stub_oracle quiet
              "app-1" "Demo" demo_files Hr Hf) as (_ & Hi & _ & p' & Hp & _ & ->).
  split; [exact Hi|]. rewrite Hp. reflexivity.
Defined.

(** A reuse request leaves the record of "a" what it was, lastAccess apart. *)
Lemma records_keep_their_identity_witness :
  let S := run (boot no_fault ∅) (full_start 0 "a") in
  ∃ i i', heap (service S) !! 0 = Some i ∧
          heap (service (step S (OpStart "a" "Demo" [] 700))) !! 0 = Some i' ∧
          port i' = port i ∧ process i' = process i ∧ isReady i' = true.
Proof.
  cbn zeta.
  assert (heap (service (run (boot no_fault ∅) (full_start 0 "a"))) !! 0 = Some _) as Hl
    by (vm_compute; reflexivity).
  destruct (records_keep_their_identity _ (OpStart "a" "Demo" [] 700) 0 _ Hl)
    as (i' & Hl' & _ & _ & Hpr & _ & Hpo & _ & Hre).
  eexists _, i'. split; [exact Hl|]. split; [exact Hl'|].
  split; [exact Hpo|]. split; [exact Hpr|]. apply Hre. reflexivity.
Defined.

(** Two apps running: two statuses. *)
Lemma listInstances_lists_the_registry_witness :
  length (listInstances 5000 (service (run (boot no_fault ∅) two_apps_ops))) = 2.
Proof.
  destruct (listInstances_lists_the_registry no_fault ∅ two_apps_ops 5000) as [_ ->].
  vm_compute. reflexivity.
Defined.

(** Two apps running: the shutdown empties the registry. *)
Lemma shutdown_stops_everything_witness :
  instances (shutdown quiet (service (run (boot no_fault ∅) two_apps_ops))) = ∅.
Proof.
  destruct (shutdown_stops_everything no_fault ∅ two_apps_ops quiet) as [H _]. exact H.
Defined.

(** The entry of "b" after two starts. *)
Lemma registry_is_consistent_witness :
  let s := service (run (boot no_fault ∅) two_apps_ops) in
  ∃ i, instances s !! "b" = Some 1 ∧ heap s !! 1 = Some i ∧
       appId i = "b" ∧ (8081 ≤ port i ≤ 8180)%Z.
Proof.
  cbn zeta.
  assert (instances (service (run (boot no_fault ∅) two_apps_ops)) !! "b" = Some 1) as Hl
    by (vm_compute; reflexivity).
  assert (heap (service (run (boot no_fault ∅) two_apps_ops)) !! 1 = Some _) as Hh
    by (vm_compute; reflexivity).
  lazymatch type of Hh with
  | _ = Some ?i0 =>
      destruct (registry_is_consistent no_fault ∅ two_apps_ops "b" 1 i0 Hl) as (_ & H & _)
  end.
  destruct (H Hh) as (Ha & _ & Hp & _).
  eexists. split; [exact Hl|]. split; [exact Hh|]. split; [exact Ha|exact Hp].
Defined.

(** A key with a subdirectory and no [..]. *)
Lemma path_join_stays_below_witness :
  ¬ climbs "src/App.js" ∧
  demo_workspace `prefix_of` path_join demo_workspace "src/App.js".
Proof.
  assert (¬ climbs "src/App.js") as Hn
    by (unfold climbs; apply (bool_decide_unpack _); vm_compute; exact I).
  split; [exact Hn|]. exact (path_join_stays_below demo_workspace "src/App.js" Hn).
Defined.

(** Two ordinary appIds. *)
Lemma plain_ids_have_disjoint_workspaces_witness :
  plain "app-1" ∧ plain "app-2" ∧ "app-1" ≠ "app-2" ∧
  path_join WORKSPACE_BASE "app-1" = ["tmp"; "metro-apps"; "app-1"].
Proof.
  assert (plain "app-1") as H1 by (unfold plain; apply (bool_decide_unpack _); vm_compute; exact I).
  assert (plain "app-2") as H2 by (unfold plain; apply (bool_decide_unpack _); vm_compute; exact I).
  assert ("app-1" ≠ "app-2") as Hne by discriminate.
  split; [exact H1|]. split; [exact H2|]. split; [exact Hne|].
  destruct (plain_ids_have_disjoint_workspaces "app-1" "app-2" H1 H2 Hne) as [-> _].
  reflexivity.
Defined.

(** Provisioning app-1 leaves the file of app-2 alone. *)
Lemma provision_touches_nothing_outside_witness :
  (∀ k c, (k, c) ∈ demo_files → ¬ climbs k) ∧
  ¬ demo_workspace `prefix_of` ["tmp"; "metro-apps"; "app-2"; "index.js"] ∧
  (createWorkspace no_fault demo_workspace demo_files shared_tree).2
    !! ["tmp"; "metro-apps"; "app-2"; "index.js"] = Some (File "other").
Proof.
  assert (∀ k c, (k, c) ∈ demo_files → ¬ climbs k) as Hk.
  { intros k c Hin. unfold demo_files in Hin.
    repeat (apply elem_of_cons in Hin as [Hin|Hin];
            [injection Hin as -> ->; unfold climbs; apply (bool_decide_unpack _);
             vm_compute; exact I|]).
    by apply elem_of_nil in Hin. }
  assert (¬ demo_workspace `prefix_of` ["tmp"; "metro-apps"; "app-2"; "index.js"]) as Hq
    by (apply (bool_decide_unpack _); vm_compute; exact I).
  split; [exact Hk|]. split; [exact Hq|].
  destruct (provision_touches_nothing_outside no_fault demo_workspace demo_files shared_tree
              _ Hk Hq) as [->|(Hn & _)].
  - reflexivity.
  - discriminate Hn.
Defined.

(** The demo mapping provisions, so each of its keys names a file. *)
Lemma provision_succeeds_only_on_file_names_witness :
  createWorkspace no_fault demo_workspace demo_files demo_tree
    = (inr (), (createWorkspace no_fault demo_workspace demo_files demo_tree).2) ∧
  path_join demo_workspace "index.js" ≠ demo_workspace.
Proof.
  assert ((createWorkspace no_fault demo_workspace demo_files demo_tree).1 = inr ()) as Hfst
    by (vm_compute; reflexivity).
  assert (createWorkspace no_fault demo_workspace demo_files demo_tree
          = (inr (), (createWorkspace no_fault demo_workspace demo_files demo_tree).2)) as Hok.
  { destruct (createWorkspace no_fault demo_workspace demo_files demo_tree) as [[e|[]] f'];
      [discriminate Hfst|reflexivity]. }
  clear Hfst. split; [exact Hok|].
  destruct (provision_succeeds_only_on_file_names no_fault demo_workspace demo_files demo_tree
              _ Hok "index.js" "console.log(1)") as (_ & H & _).
  - apply list_elem_of_here.
  - exact H.
Defined.
